(** * Cycle prediction engine and reminder due-check: a shallow embedding

    The development follows the TypeScript sources of the repository:

    - the shared prediction library ([predictCycle], [predictMultipleCycles]
      and their helpers),
    - the copy of the same algorithm inside the [predict-cycle] edge function,
    - the reminder functions [shouldSendReminder] and
      [generateReminderMessage] of the [send-reminders] edge function.

    Modelling conventions.

    - A JavaScript [number] that takes part in floating-point arithmetic is a
      binary64 value: Rocq's primitive [float], whose operations are the IEEE
      754 ones with round-to-nearest-even, as in JavaScript.  Quantities that
      are integers by construction (day counts, rounded cycle lengths,
      millisecond time stamps) are kept in [Z].
    - An ISO calendar date ['YYYY-MM-DD'] is its day number (days since the
      epoch); [new Date(s)] is UTC midnight of that day, i.e. the time value
      [day * 86400000] in milliseconds; [toISOString] prints the UTC date.
    - [getDate] and [setDate] work on local time.  The shared library runs
      on whatever host imports it, so its functions take the host's time
      zone as a parameter.  The two edge functions run in the edge runtime,
      whose time zone is UTC: there local time is UTC and the
      [getDate]/[setDate] arithmetic moves by whole days of 86400000 ms.
    - [new Date()] (the current instant) is the parameter [now], a time value
      in milliseconds; the calls made within one run see the same instant.
    - Time values stay in the range of JavaScript dates, far below 2^53, so
      the conversions between integers and binary64 numbers are exact.  A
      projection that leaves that range, where [toISOString] throws instead
      of returning a date, is outside the model.
    - [Math.pow(x, 2)] is taken as the correctly rounded product [x * x]. *)

From Stdlib Require Import String Ascii.
From Stdlib Require Import ZArith List Bool Lia.
From Stdlib Require Import Permutation Sorted.
From Stdlib Require Import Floats.
Import ListNotations.

Open Scope Z_scope.

Set Warnings "-inexact-float".

(** ** JavaScript numbers and the [Math] functions the code calls *)

Module JS.

(** An integer as a binary64 number (exact for magnitudes below 2^53). *)
Definition of_Z (z : Z) : float :=
  if z <? 0 then PrimFloat.opp (PrimFloat.of_uint63 (Uint63.of_Z (- z)))
  else PrimFloat.of_uint63 (Uint63.of_Z z).

(** [Math.max(a, b)]: NaN when either argument is NaN, and +0 is larger
    than -0. *)
Definition Math_max (a b : float) : float :=
  if PrimFloat.is_nan a || PrimFloat.is_nan b then PrimFloat.nan
  else if PrimFloat.ltb a b then b
  else if PrimFloat.ltb b a then a
  else if PrimFloat.get_sign a then b else a.

(** [Math.min(a, b)]: NaN when either argument is NaN, and -0 is smaller
    than +0. *)
Definition Math_min (a b : float) : float :=
  if PrimFloat.is_nan a || PrimFloat.is_nan b then PrimFloat.nan
  else if PrimFloat.ltb a b then a
  else if PrimFloat.ltb b a then b
  else if PrimFloat.get_sign a then a else b.

(** The integer [floor(x + 1/2)] for the finite number [(-1)^s * m * 2^e],
    computed exactly. *)
Definition round_half_up (s : bool) (m : positive) (e : Z) : Z :=
  let sm := if s then Z.neg m else Z.pos m in
  if 0 <=? e then sm * 2 ^ e
  else Z.shiftr (sm + 2 ^ (- e - 1)) (- e).

(** [Math.round(x)] where the result is used as an integer (a number of
    days).  NaN and the infinities, which the callers never produce, are
    sent to 0. *)
Definition Math_round_Z (x : float) : Z :=
  match Prim2SF x with
  | S754_finite s m e => round_half_up s m e
  | _ => 0
  end.

(** [Math.round(x)] as a number: NaN, the infinities, the zeros and the
    numbers without a fractional part are returned unchanged; a value in
    [-0.5, 0) rounds to -0. *)
Definition Math_round (x : float) : float :=
  match Prim2SF x with
  | S754_finite s m e =>
      if 0 <=? e then x
      else
        let r := round_half_up s m e in
        if (r =? 0) && s then PrimFloat.neg_zero else of_Z r
  | _ => x
  end.

(** [Math.sqrt]. *)
Definition Math_sqrt (x : float) : float := PrimFloat.sqrt x.

(** [Math.pow(x, 2)], taken as the correctly rounded square. *)
Definition Math_pow2 (x : float) : float := PrimFloat.mul x x.

End JS.

(** ** Dates *)

Definition MS_PER_DAY : Z := 1000 * 60 * 60 * 24.

(** A [Date] object is its time value, milliseconds since the epoch. *)
Definition Date := Z.

(** [new Date('YYYY-MM-DD')] for the date with day number [day]. *)
Definition new_Date (day : Z) : Date := day * MS_PER_DAY.

(** [d.toISOString().split('T')[0]]: the UTC calendar date, as a day number. *)
Definition toISODate (d : Date) : Z := d / MS_PER_DAY.

(** The system time zone of the host that runs the code.  [offset_at t] is
    the offset of local time from UTC, in milliseconds, at the instant [t];
    [offset_of_local t] is the offset with which the local time value [t]
    is read back as an instant (where a daylight-saving switch skips or
    repeats local times, the language fixes which offset applies). *)
Record TimeZone := mkTimeZone {
  offset_at : Date -> Z;
  offset_of_local : Z -> Z
}.

(** [LocalTime(t)] and [UTC(t)] of the language specification. *)
Definition LocalTime (tz : TimeZone) (t : Date) : Z := t + offset_at tz t.

Definition UTC (tz : TimeZone) (t : Z) : Date := t - offset_of_local tz t.

(** [addDays(date, days)]: copy the date, [setDate(getDate() + days)], and
    return the ISO date.  [getDate] and [setDate] work on the local time:
    [setDate] keeps the local time of day, moves the local calendar date by
    [days] and reads the result back as an instant; [toISOString] then
    prints the UTC date of that instant. *)
Definition addDays (tz : TimeZone) (date : Date) (days : Z) : Z :=
  let result := UTC tz (LocalTime tz date + days * MS_PER_DAY) in
  toISODate result.

(** The zone UTC. *)
Definition utc_zone : TimeZone := mkTimeZone (fun _ => 0) (fun _ => 0).

(** America/New_York with its daylight-saving period of 2024: local time is
    UTC-4 from 2024-03-10T07:00Z to 2024-11-03T06:00Z and UTC-5 otherwise.
    Local times of the skipped hour (02:00 to 03:00 on March 10) are read
    with the offset before the switch, those of the repeated hour (01:00 to
    02:00 on November 3) as the earlier instant. *)
Definition new_york_2024 : TimeZone :=
  let hour := 3600000 in
  mkTimeZone
    (fun t =>
       if (19792 * MS_PER_DAY + 7 * hour <=? t)
          && (t <? 20030 * MS_PER_DAY + 6 * hour)
       then -4 * hour else -5 * hour)
    (fun t =>
       if (19792 * MS_PER_DAY + 3 * hour <=? t)
          && (t <? 20030 * MS_PER_DAY + 2 * hour)
       then -4 * hour else -5 * hour).

(** The zones whose offset from UTC never changes. *)
Definition fixed_offset (tz : TimeZone) : Prop :=
  exists c, (forall t, offset_at tz t = c)
            /\ (forall t, offset_of_local tz t = c).

(** ** Data model of the prediction algorithm *)

Record CycleEntry := mkEntry {
  entry_date : Z;                    (* day number of the ISO date string *)
  flow_intensity : option string     (* string | null *)
}.

Record UserProfile := mkProfile {
  cycle_length_days : Z;
  period_length_days : Z
}.

Inductive Source := historical | profile_default | hybrid.

Record Metadata := mkMetadata {
  cycles_analyzed : nat;
  average_cycle_length : option float;
  std_deviation : option float
}.

Record PredictionResult := mkPrediction {
  next_period_start : Z;
  next_period_end : Z;
  fertility_window_start : Z;
  fertility_window_end : Z;
  confidence : float;
  source : Source;
  metadata : Metadata
}.

Record Stats := mkStats { average : float; stdDev : float }.

(** [entries.slice(0, n)]: a negative [n] counts from the end. *)
Definition slice0 {A} (l : list A) (n : Z) : list A :=
  if n <? 0 then firstn (Z.to_nat (Z.of_nat (length l) + n)) l
  else firstn (Z.to_nat n) l.

(** An entry together with its parsed date, as built by
    [entries.map(e => ({ ...e, date: new Date(e.entry_date) }))]. *)
Record DatedEntry := mkDated {
  dated_flow : option string;
  date : Date
}.

Definition with_date (e : CycleEntry) : DatedEntry :=
  mkDated (flow_intensity e) (new_Date (entry_date e)).

(** [Array.prototype.sort] with the comparator [a.date - b.date]: a stable
    sort, ascending by time value. *)
Fixpoint insert_by_date (x : DatedEntry) (l : list DatedEntry) : list DatedEntry :=
  match l with
  | [] => [x]
  | y :: l' => if date x <=? date y then x :: y :: l'
               else y :: insert_by_date x l'
  end.

Definition sort_by_date (l : list DatedEntry) : list DatedEntry :=
  fold_right insert_by_date [] l.

(** [entry.flow_intensity && entry.flow_intensity !== 'none']: null and the
    empty string are falsy. *)
Definition hasFlow (e : DatedEntry) : bool :=
  match dated_flow e with
  | None => false
  | Some s => negb (String.eqb s EmptyString) && negb (String.eqb s "none")
  end.

(** ** The shared prediction library *)

Module Shared.

(** One iteration of the segmentation loop on the state
    [(cycleStarts, inPeriod)]. *)
Definition segment_step (st : list Date * bool) (entry : DatedEntry)
  : list Date * bool :=
  let '(cycleStarts, inPeriod) := st in
  if hasFlow entry && negb inPeriod then (cycleStarts ++ [date entry], true)
  else if negb (hasFlow entry) then (cycleStarts, false)
  else (cycleStarts, inPeriod).

Definition identifyCycleStarts (entries : list CycleEntry) : list Date :=
  match entries with
  | [] => []
  | _ =>
      let sortedEntries := sort_by_date (map with_date entries) in
      fst (fold_left segment_step sortedEntries ([], false))
  end.

(** [Math.round((b.getTime() - a.getTime()) / (1000*60*60*24))]. *)
Definition days_between (a b : Date) : Z :=
  JS.Math_round_Z (PrimFloat.div (JS.of_Z (b - a)) (JS.of_Z MS_PER_DAY)).

Fixpoint calculateCycleLengths (cycleStarts : list Date) : list Z :=
  match cycleStarts with
  | a :: (b :: _) as rest => days_between a b :: calculateCycleLengths rest
  | _ => []
  end.

Definition sum_lengths (cycleLengths : list Z) : float :=
  fold_left (fun sum val => PrimFloat.add sum (JS.of_Z val)) cycleLengths 0%float.

Definition sum_sq_dev (cycleLengths : list Z) (avg : float) : float :=
  fold_left (fun sum val =>
               PrimFloat.add sum (JS.Math_pow2 (PrimFloat.sub (JS.of_Z val) avg)))
            cycleLengths 0%float.

Definition calculateCycleStats (cycleLengths : list Z) : Stats :=
  match cycleLengths with
  | [] => mkStats 0%float 0%float
  | _ =>
      let n := Z.of_nat (length cycleLengths) in
      let avg := PrimFloat.div (sum_lengths cycleLengths) (JS.of_Z n) in
      match cycleLengths with
      | [_] => mkStats avg 0%float
      | _ =>
          let variance :=
            PrimFloat.div (sum_sq_dev cycleLengths avg) (JS.of_Z (n - 1)) in
          mkStats avg (JS.Math_sqrt variance)
      end
  end.

(** The confidence of the [historical] tier, before the final rounding. *)
Definition historical_confidence (stats : Stats) : float :=
  JS.Math_max 0.5%float
    (JS.Math_min 0.95%float
       (PrimFloat.sub 1%float
          (PrimFloat.mul (PrimFloat.div (stdDev stats) (average stats)) 0.5%float))).

(** [Math.round(confidence * 100) / 100]. *)
Definition round2 (c : float) : float :=
  PrimFloat.div (JS.Math_round (PrimFloat.mul c 100%float)) 100%float.

Definition predictCycle (tz : TimeZone) (now : Date)
           (cycleEntries : list CycleEntry)
           (profile : UserProfile) (maxEntriesToAnalyze : Z) : PredictionResult :=
  let recentEntries := slice0 cycleEntries maxEntriesToAnalyze in
  let cycleStarts := identifyCycleStarts recentEntries in
  let '(predictedCycleLength, conf, src, meta) :=
    if (2 <=? length cycleStarts)%nat then
      let cycleLengths := calculateCycleLengths cycleStarts in
      let stats := calculateCycleStats cycleLengths in
      let meta := mkMetadata (length cycleLengths)
                             (Some (average stats)) (Some (stdDev stats)) in
      if (3 <=? length cycleLengths)%nat then
        (JS.Math_round_Z (average stats), historical_confidence stats,
         historical, meta)
      else
        (JS.Math_round_Z (average stats),
         PrimFloat.add 0.6%float
           (PrimFloat.mul (JS.of_Z (Z.of_nat (length cycleLengths))) 0.1%float),
         hybrid, meta)
    else
      (cycle_length_days profile, 0.5%float, profile_default,
       mkMetadata 0 None None) in
  let lastCycleStart := last cycleStarts now in
  let nextPeriodStart := addDays tz lastCycleStart predictedCycleLength in
  let nextPeriodEnd :=
    addDays tz lastCycleStart
            (predictedCycleLength + period_length_days profile - 1) in
  let ovulationDay :=
    JS.Math_round_Z (PrimFloat.div (JS.of_Z predictedCycleLength) 2%float) in
  let fertilityWindowStart := addDays tz lastCycleStart (ovulationDay - 5) in
  let fertilityWindowEnd := addDays tz lastCycleStart (ovulationDay + 1) in
  mkPrediction nextPeriodStart nextPeriodEnd
               fertilityWindowStart fertilityWindowEnd
               (round2 conf) src meta.

(** The entry that [predictMultipleCycles] puts in front of the list after
    each prediction. *)
Definition syntheticEntry (prediction : PredictionResult) : CycleEntry :=
  mkEntry (next_period_start prediction) (Some "medium"%string).

(** One iteration of the loop of [predictMultipleCycles] on the state
    [(predictions, currentEntries)]. *)
Definition multi_step (tz : TimeZone) (now : Date) (profile : UserProfile)
           (st : list PredictionResult * list CycleEntry) (i : nat)
  : list PredictionResult * list CycleEntry :=
  let '(predictions, currentEntries) := st in
  let prediction := predictCycle tz now currentEntries profile 90 in
  (predictions ++ [prediction], syntheticEntry prediction :: currentEntries).

Definition predictMultipleCycles (tz : TimeZone) (now : Date)
           (cycleEntries : list CycleEntry)
           (profile : UserProfile) (numberOfCycles : nat)
  : list PredictionResult :=
  fst (fold_left (multi_step tz now profile) (seq 0 numberOfCycles)
                 ([], cycleEntries)).

End Shared.

(** ** The copy of the algorithm in the [predict-cycle] edge function

    The text is that of the shared library.  The edge function runs it in
    UTC ([utc_zone]); the zone stays a parameter so that the two copies can
    be compared on any host. *)

Module Edge.

Definition segment_step (st : list Date * bool) (entry : DatedEntry)
  : list Date * bool :=
  let '(cycleStarts, inPeriod) := st in
  if hasFlow entry && negb inPeriod then (cycleStarts ++ [date entry], true)
  else if negb (hasFlow entry) then (cycleStarts, false)
  else (cycleStarts, inPeriod).

Definition identifyCycleStarts (entries : list CycleEntry) : list Date :=
  match entries with
  | [] => []
  | _ =>
      let sortedEntries := sort_by_date (map with_date entries) in
      fst (fold_left segment_step sortedEntries ([], false))
  end.

Fixpoint calculateCycleLengths (cycleStarts : list Date) : list Z :=
  match cycleStarts with
  | a :: (b :: _) as rest =>
      JS.Math_round_Z (PrimFloat.div (JS.of_Z (b - a)) (JS.of_Z (1000 * 60 * 60 * 24)))
      :: calculateCycleLengths rest
  | _ => []
  end.

Definition calculateCycleStats (cycleLengths : list Z) : Stats :=
  match cycleLengths with
  | [] => mkStats 0%float 0%float
  | _ =>
      let n := Z.of_nat (length cycleLengths) in
      let avg :=
        PrimFloat.div
          (fold_left (fun sum val => PrimFloat.add sum (JS.of_Z val))
                     cycleLengths 0%float)
          (JS.of_Z n) in
      match cycleLengths with
      | [_] => mkStats avg 0%float
      | _ =>
          let variance :=
            PrimFloat.div
              (fold_left
                 (fun sum val =>
                    PrimFloat.add sum
                      (JS.Math_pow2 (PrimFloat.sub (JS.of_Z val) avg)))
                 cycleLengths 0%float)
              (JS.of_Z (n - 1)) in
          mkStats avg (JS.Math_sqrt variance)
      end
  end.

Definition predictCycle (tz : TimeZone) (now : Date)
           (cycleEntries : list CycleEntry)
           (profile : UserProfile) (maxEntriesToAnalyze : Z) : PredictionResult :=
  let recentEntries := slice0 cycleEntries maxEntriesToAnalyze in
  let cycleStarts := identifyCycleStarts recentEntries in
  let '(predictedCycleLength, conf, src, meta) :=
    if (2 <=? length cycleStarts)%nat then
      let cycleLengths := calculateCycleLengths cycleStarts in
      let stats := calculateCycleStats cycleLengths in
      let meta := mkMetadata (length cycleLengths)
                             (Some (average stats)) (Some (stdDev stats)) in
      if (3 <=? length cycleLengths)%nat then
        (JS.Math_round_Z (average stats),
         JS.Math_max 0.5%float
           (JS.Math_min 0.95%float
              (PrimFloat.sub 1%float
                 (PrimFloat.mul
                    (PrimFloat.div (stdDev stats) (average stats)) 0.5%float))),
         historical, meta)
      else
        (JS.Math_round_Z (average stats),
         PrimFloat.add 0.6%float
           (PrimFloat.mul (JS.of_Z (Z.of_nat (length cycleLengths))) 0.1%float),
         hybrid, meta)
    else
      (cycle_length_days profile, 0.5%float, profile_default,
       mkMetadata 0 None None) in
  let lastCycleStart := last cycleStarts now in
  let nextPeriodStart := addDays tz lastCycleStart predictedCycleLength in
  let nextPeriodEnd :=
    addDays tz lastCycleStart
            (predictedCycleLength + period_length_days profile - 1) in
  let ovulationDay :=
    JS.Math_round_Z (PrimFloat.div (JS.of_Z predictedCycleLength) 2%float) in
  let fertilityWindowStart := addDays tz lastCycleStart (ovulationDay - 5) in
  let fertilityWindowEnd := addDays tz lastCycleStart (ovulationDay + 1) in
  mkPrediction nextPeriodStart nextPeriodEnd
               fertilityWindowStart fertilityWindowEnd
               (PrimFloat.div (JS.Math_round (PrimFloat.mul conf 100%float))
                              100%float)
               src meta.

End Edge.

(** ** The reminder functions of the [send-reminders] edge function

    These functions exist only inside the edge function and run in the edge
    runtime, in UTC. *)

Module Reminders.

Record ScheduleConfig := mkSchedule {
  time : option string;
  days_before : option Z;
  frequency : option string;
  custom_message : option string
}.

Record Reminder := mkReminder {
  id : string;
  user_id : string;
  reminder_type : string;
  schedule_config : ScheduleConfig;
  enabled : bool
}.

Record PredictionMeta := mkPredictionMeta {
  meta_fertility_window_start : option Z;
  meta_fertility_window_end : option Z
}.

(** A row of the predictions table; the dates are day numbers. *)
Record Prediction := mkStoredPrediction {
  cycle_start_date : Z;
  cycle_end_date : Z;
  prediction_metadata : PredictionMeta
}.

(** [s || dflt] on an optional string: undefined and the empty string are
    falsy. *)
Definition string_or (s : option string) (dflt : string) : string :=
  match s with
  | Some v => if String.eqb v EmptyString then dflt else v
  | None => dflt
  end.

(** [n || dflt] on an optional integer: undefined and 0 are falsy. *)
Definition number_or (n : option Z) (dflt : Z) : Z :=
  match n with
  | Some v => if v =? 0 then dflt else v
  | None => dflt
  end.

(** [new Date(day)], [setDate(getDate() - daysBefore)], then the ISO date. *)
Definition reminder_day (day daysBefore : Z) : Z :=
  let reminderDate := new_Date day - daysBefore * MS_PER_DAY in
  toISODate reminderDate.

Definition shouldSendReminder (now : Date) (reminder : Reminder)
           (prediction : option Prediction) : bool :=
  if negb (enabled reminder) then false
  else
    let today := toISODate now in
    if (String.eqb (reminder_type reminder) "medication"
        || String.eqb (reminder_type reminder) "hydration")
       && String.eqb (string_or (frequency (schedule_config reminder)) "daily")
                     "daily"
    then true
    else
      match prediction with
      | None => false
      | Some p =>
          let daysBefore :=
            number_or (days_before (schedule_config reminder)) 3 in
          if String.eqb (reminder_type reminder) "period_start" then
            reminder_day (cycle_start_date p) daysBefore =? today
          else if String.eqb (reminder_type reminder) "period_end" then
            reminder_day (cycle_end_date p) daysBefore =? today
          else if String.eqb (reminder_type reminder) "fertile_window" then
            match meta_fertility_window_start (prediction_metadata p) with
            | None => false
            | Some fertilityStart =>
                reminder_day fertilityStart daysBefore =? today
            end
          else false
      end.

Section Messages.

(** The ISO text ['YYYY-MM-DD'] of a day number, as it is interpolated
    into the message templates. *)
Variable iso : Z -> string.

(** The [switch] on the reminder type. *)
Definition default_message (reminder : Reminder)
           (prediction : option Prediction) : string :=
  let ty := reminder_type reminder in
  if String.eqb ty "period_start" then
    match prediction with
    | Some p =>
        "Your period is expected to start around "
          ++ iso (cycle_start_date p) ++ ". Stay prepared!"
    | None => "Period reminder"
    end
  else if String.eqb ty "period_end" then
    match prediction with
    | Some p =>
        "Your period is expected to end around "
          ++ iso (cycle_end_date p) ++ "."
    | None => "Period end reminder"
    end
  else if String.eqb ty "fertile_window" then
    match prediction with
    | Some p =>
        match meta_fertility_window_start (prediction_metadata p) with
        | Some d => "Your fertile window starts around " ++ iso d ++ "."
        | None => "Fertility window reminder"
        end
    | None => "Fertility window reminder"
    end
  else if String.eqb ty "medication" then "Time to take your medication."
  else if String.eqb ty "hydration" then "Remember to stay hydrated!"
  else "Reminder notification".

Definition generateReminderMessage (reminder : Reminder)
           (prediction : option Prediction) : string :=
  match custom_message (schedule_config reminder) with
  | Some msg =>
      if negb (String.eqb msg EmptyString) then msg
      else default_message reminder prediction
  | None => default_message reminder prediction
  end.

End Messages.

End Reminders.

(** ** Specification-side definitions *)

(** The entry list that [predictMultipleCycles] analyses for its prediction
    number [i], following the description of the loop: the list for the next
    prediction is the current one with a synthetic medium-flow entry, dated at
    the current prediction's [next_period_start], put in front. *)
Fixpoint entries_at (tz : TimeZone) (now : Date) (profile : UserProfile)
         (cycleEntries : list CycleEntry) (i : nat) : list CycleEntry :=
  match i with
  | O => cycleEntries
  | S j =>
      let previous := entries_at tz now profile cycleEntries j in
      mkEntry (next_period_start (Shared.predictCycle tz now previous profile 90))
              (Some "medium"%string)
      :: previous
  end.

(** ** Sample data *)

(** An entry with a flow value. *)
Definition entry (day : Z) (flow : string) : CycleEntry :=
  mkEntry day (Some flow).

(** Three entries on one day: flow, no flow, flow. *)
Definition same_day_entries : list CycleEntry :=
  [entry 0 "medium"; entry 0 "none"; entry 0 "medium"].

(** The same three entries in another order. *)
Definition same_day_entries_permuted : list CycleEntry :=
  [entry 0 "none"; entry 0 "medium"; entry 0 "medium"].

(** Entries out of order, on distinct days. *)
Definition shuffled_entries : list CycleEntry :=
  [entry 29 "medium"; entry 1 "medium"; entry 6 "none"; entry 2 "heavy"].

Definition shuffled_entries_ascending : list CycleEntry :=
  [entry 1 "medium"; entry 2 "heavy"; entry 6 "none"; entry 29 "medium"].

(** Cycle-starts on days 0, 28 and 56, each period closed by a logged day
    without flow. *)
Definition three_regular_starts : list CycleEntry :=
  [entry 0 "medium"; entry 1 "heavy"; entry 5 "none";
   entry 28 "medium"; entry 29 "heavy"; entry 33 "none";
   entry 56 "medium"; entry 57 "light"].

(** Cycle-starts on days 0, 28, 56 and 84: three samples of 28 days. *)
Definition four_regular_starts : list CycleEntry :=
  [entry 0 "medium"; entry 5 "none"; entry 28 "medium"; entry 33 "none";
   entry 56 "medium"; entry 61 "none"; entry 84 "medium"].

(** Cycle-starts on days 0, 27, 55 and 84: samples of 27, 28 and 29 days. *)
Definition four_near_regular_starts : list CycleEntry :=
  [entry 0 "medium"; entry 5 "none"; entry 27 "medium"; entry 33 "none";
   entry 55 "medium"; entry 61 "none"; entry 84 "medium"].

(** Seven entries on one day, alternating flow and no flow: four cycle-starts
    on the same date, hence three samples of 0 days. *)
Definition four_starts_same_day : list CycleEntry :=
  [entry 0 "medium"; entry 0 "none"; entry 0 "medium"; entry 0 "none";
   entry 0 "medium"; entry 0 "none"; entry 0 "medium"].

(** Cycle-starts on days 0, 28, 63 and 84: samples of 28, 35 and 21 days. *)
Definition four_irregular_starts : list CycleEntry :=
  [entry 0 "medium"; entry 5 "none"; entry 28 "medium"; entry 33 "none";
   entry 63 "medium"; entry 66 "none"; entry 84 "medium"].

Definition sample_profile : UserProfile := mkProfile 28 5.

(** A [period_start] reminder that is enabled, with the given
    [days_before] field. *)
Definition period_start_reminder (daysBefore : option Z) : Reminders.Reminder :=
  Reminders.mkReminder
    "r1" "u1" "period_start"
    (Reminders.mkSchedule (Some "09:00"%string) daysBefore None None) true.

(** The dates of a list of dated entries, and the order the sort works
    with. *)
Definition dates_of (l : list DatedEntry) : list Date := map date l.

Definition date_le (a b : DatedEntry) : Prop := date a <= date b.

(** ** The confidence table in the words of the specification *)

(** Left-to-right sum of a list of numbers. *)
Definition sum_left (l : list float) : float :=
  fold_left PrimFloat.add l 0%float.

(** Arithmetic mean of the cycle-length samples. *)
Definition mean (samples : list Z) : float :=
  PrimFloat.div (sum_left (map JS.of_Z samples))
                (JS.of_Z (Z.of_nat (length samples))).

(** Sample standard deviation: the sum of squared deviations from the mean is
    divided by [n - 1]. *)
Definition sample_std_dev (samples : list Z) : float :=
  let m := mean samples in
  let squares :=
    map (fun x => PrimFloat.mul (PrimFloat.sub (JS.of_Z x) m)
                                (PrimFloat.sub (JS.of_Z x) m)) samples in
  PrimFloat.sqrt
    (PrimFloat.div (sum_left squares)
                   (JS.of_Z (Z.of_nat (length samples) - 1))).

(** [clamp(x, lo, hi)], written with [Math.max] and [Math.min]. *)
Definition clamp (x lo hi : float) : float :=
  JS.Math_max lo (JS.Math_min hi x).

(** Rounding to two decimal places. *)
Definition two_decimals (c : float) : float :=
  PrimFloat.div (JS.Math_round (PrimFloat.mul c 100%float)) 100%float.

(** The cycle-starts that [predictCycle] works with, and the samples, the
    anchor date and the deviation ratio derived from them. *)
Definition starts_of (cycleEntries : list CycleEntry) (maxEntriesToAnalyze : Z)
  : list Date :=
  Shared.identifyCycleStarts (slice0 cycleEntries maxEntriesToAnalyze).

Definition samples_of (cycleEntries : list CycleEntry) (maxEntriesToAnalyze : Z)
  : list Z :=
  Shared.calculateCycleLengths (starts_of cycleEntries maxEntriesToAnalyze).

Definition deviation_ratio (samples : list Z) : float :=
  let stats := Shared.calculateCycleStats samples in
  PrimFloat.div (stdDev stats) (average stats).

(** ** Binary64 arithmetic through scaled integers

    Every finite binary64 number is an integer multiple of [2^-1074].  The
    definitions below give the value of a number in that unit and describe
    rounding to nearest (ties to even) on such integers; they are used to
    follow the order of numbers through the confidence formula. *)

(** Round to nearest, ties to even, of [M / 2^n]. *)
Definition rne (M n : Z) : Z :=
  let q := M / 2 ^ n in
  match M mod 2 ^ n ?= 2 ^ (n - 1) with
  | Lt => q
  | Eq => if Z.even q then q else q + 1
  | Gt => q + 1
  end.

(** What [k] right shifts of the mantissa [M] leave in a shift record: the
    quotient, the round bit and the sticky bit. *)
Definition shr_inv (M k : Z) (mrs : shr_record) : Prop :=
  exists low,
    0 <= low < 2 ^ (k - 1)
    /\ shr_s mrs = negb (low =? 0)
    /\ 0 <= shr_m mrs
    /\ M = 2 ^ k * shr_m mrs + (if shr_r mrs then 2 ^ (k - 1) else 0) + low.

(** The scaled value given to the infinities. *)
Definition INF : Z := 2 ^ 2100.

(** The first scaled value that overflows, [2^1024] in units of [2^-1074]. *)
Definition TOP : Z := 2 ^ 2098.

(** The scaled value of 1. *)
Definition UNIT : Z := 2 ^ 1074.

(** A magnitude with its sign bit. *)
Definition sgn (s : bool) (v : Z) : Z := if s then - v else v.

(** The value of a number in units of [2^-1074], the infinities at [+-INF]. *)
Definition Zv (x : spec_float) : Z :=
  match x with
  | S754_zero _ => 0
  | S754_infinity s => sgn s INF
  | S754_nan => 0
  | S754_finite s m e => sgn s (Z.pos m * 2 ^ (e + 1074))
  end.

(** Rounding of [M * 2^K] (in units of [2^-1074]) to 53 significant bits. *)
Definition rnd (M K : Z) : Z :=
  let g := Z.max (Zdigits2 M + K - 53) 0 in
  if g <=? K then M * 2 ^ K else rne M (g - K) * 2 ^ g.

(** Overflow to infinity. *)
Definition cap (v : Z) : Z := if v <? TOP then v else INF.

(** Signed rounding with overflow. *)
Definition rnds (D K : Z) : Z :=
  match D with
  | Z0 => 0
  | Z.pos p => cap (rnd (Z.pos p) K)
  | Z.neg p => - cap (rnd (Z.pos p) K)
  end.

(** The numbers: everything but NaN. *)
Definition not_nan (x : spec_float) : Prop := x <> S754_nan.

(** The scaled value of [x * c] for the positive constant [mc * 2^ec], from
    the scaled value of [x]. *)
Definition mulZ (mc ec : Z) (v : Z) : Z :=
  if Z.abs v =? INF then v else rnds (v * mc) ec.

(** The scaled value of [1 - x] from the scaled value of [x]. *)
Definition subZ (v : Z) : Z :=
  if Z.abs v =? INF then - v else rnds (UNIT - v) 0.

(** The number 1. *)
Definition SF_one : spec_float := S754_finite false 4503599627370496 (-52).

(** The scaled value of a primitive float. *)
Definition fv (x : float) : Z := Zv (Prim2SF x).

(** The primitive floats that are numbers. *)
Definition fnn (x : float) : Prop := not_nan (Prim2SF x).

(** The confidence of the [historical] tier as a function of the ratio
    [stdDev / mean], before the final rounding. *)
Definition confidence_of_ratio (ratio : float) : float :=
  JS.Math_max 0.5%float
    (JS.Math_min 0.95%float
       (PrimFloat.sub 1%float (PrimFloat.mul ratio 0.5%float))).

(** The hundredths [Math.round(c * 100)] of a confidence, as an integer. *)
Definition hundredths (c : float) : Z :=
  (2 * fv (PrimFloat.mul c 100%float) + UNIT) / (2 * UNIT).

(** [k / 100] for the integers from 50 to 95. *)
Definition percent (k : Z) : float := PrimFloat.div (JS.of_Z k) 100%float.

(** The integers from 50 to 95. *)
Definition percent_range : list Z := map Z.of_nat (seq 50 46).

(** The check that the numbers [k / 100], for [k] from 50 to 95, ascend. *)
Definition percent_table_sorted : bool :=
  forallb (fun k1 =>
             forallb (fun k2 =>
                        implb (k1 <=? k2)
                              (PrimFloat.leb (percent k1) (percent k2)))
                     percent_range)
          percent_range.

(** ** The segmentation as a recursive scan *)

(** The cycle-starts found in a list that is already in scanning order, when
    the scan begins with the given [inPeriod] flag. *)
Fixpoint segment (inPeriod : bool) (l : list DatedEntry) : list Date :=
  match l with
  | [] => []
  | entry :: rest =>
      if hasFlow entry then
        if inPeriod then segment true rest
        else date entry :: segment true rest
      else segment false rest
  end.

(** Whether a log entry counts as a day with flow. *)
Definition entryHasFlow (e : CycleEntry) : bool := hasFlow (with_date e).

(** The number of entries of a log with flow, and without. *)
Definition flow_count (entries : list CycleEntry) : nat :=
  length (filter entryHasFlow entries).

Definition no_flow_count (entries : list CycleEntry) : nat :=
  length (filter (fun e => negb (entryHasFlow e)) entries).

(** ** Reminder types and trigger dates *)

(** The reminder types that fire every day, and those tied to a date of the
    prediction. *)
Definition is_daily_type (ty : string) : bool :=
  String.eqb ty "medication" || String.eqb ty "hydration".

(** The date of the stored prediction that a cycle-based reminder counts
    back from, if the type and the prediction have one. *)
Definition trigger_date (ty : string) (p : Reminders.Prediction) : option Z :=
  if String.eqb ty "period_start" then Some (Reminders.cycle_start_date p)
  else if String.eqb ty "period_end" then Some (Reminders.cycle_end_date p)
  else if String.eqb ty "fertile_window" then
    Reminders.meta_fertility_window_start (Reminders.prediction_metadata p)
  else None.

(** ** The [send-reminders] edge function *)

Module SendReminders.
Import Reminders.

Record User := mkUser {
  account_id : string;
  email : string
}.

(** An element of the [results] array of the response. *)
Record Result := mkResult {
  result_reminder_id : string;
  result_user_id : string;
  result_reminder_type : string;
  sent : bool;
  message : string
}.

Record Response := mkResponse {
  processed : nat;
  sent_count : nat;
  results : list Result
}.

(** An optional string used as a condition: undefined and the empty string
    are falsy. *)
Definition truthy (s : option string) : bool :=
  match s with
  | Some v => negb (String.eqb v EmptyString)
  | None => false
  end.

Section Handler.

(** The instant of the run and the text of ISO dates. *)
Variable now : Date.
Variable iso : Z -> string.

(** [Deno.env.get('EMAIL_SERVICE_URL')] and [Deno.env.get('EMAIL_API_KEY')]. *)
Variable emailService : option string.
Variable emailApiKey : option string.

(** The [fetch] call to the email service.  The first argument counts the
    notifications attempted before this one in the run; the others are the
    fields [to], [subject] and [body] of the request.  [Some ok] is a
    response with that [ok] flag, [None] a thrown exception. *)
Variable post : nat -> string -> string -> string -> option bool.

(** The query on [user_accounts] by id with [.single()]: [None] when the
    query reports an error or no row. *)
Variable find_user : string -> option User.

(** The query for the latest row of [predictions] of a user with
    [.single()]: [None] when the query reports an error, and then the data
    is null. *)
Variable latest_prediction : string -> option Prediction.

Definition sendNotification (attempt : nat) (user : User)
           (message reminderType : string) : bool :=
  if truthy emailService && truthy emailApiKey then
    match post attempt (email user)
               ("Cycle Tracker Reminder: " ++ reminderType) message with
    | Some ok => ok
    | None => false
    end
  else true.

(** One iteration of the loop over the reminders, on the [results] array. *)
Definition process_reminder (results : list Result) (reminder : Reminder)
  : list Result :=
  match find_user (user_id reminder) with
  | None => results
  | Some user =>
      let prediction := latest_prediction (user_id reminder) in
      if match prediction with None => true | Some _ => false end
         && negb (String.eqb (reminder_type reminder) "medication")
         && negb (String.eqb (reminder_type reminder) "hydration")
      then results
      else if shouldSendReminder now reminder prediction then
        let message := generateReminderMessage iso reminder prediction in
        let sent :=
          sendNotification (length results) user message
                           (reminder_type reminder) in
        results ++ [mkResult (id reminder) (user_id reminder)
                             (reminder_type reminder) sent message]
      else results
  end.

(** The handler after the reminders have been fetched: [reminders] is the
    data of the query, null being [None]. *)
Definition send_reminders (reminders : option (list Reminder)) : Response :=
  let rows := match reminders with Some l => l | None => [] end in
  let results := fold_left process_reminder rows [] in
  mkResponse (length rows) (length results) results.

End Handler.

End SendReminders.

(** The reminders of a run that have an account and are due. *)
Definition due_with_account (now : Date)
           (find_user : string -> option SendReminders.User)
           (latest_prediction : string -> option Reminders.Prediction)
           (reminder : Reminders.Reminder) : bool :=
  match find_user (Reminders.user_id reminder) with
  | Some _ =>
      Reminders.shouldSendReminder
        now reminder (latest_prediction (Reminders.user_id reminder))
  | None => false
  end.

(** What a result says besides the delivery flag. *)
Definition announced (r : SendReminders.Result)
  : string * string * string * string :=
  (SendReminders.result_reminder_id r, SendReminders.result_user_id r,
   SendReminders.result_reminder_type r, SendReminders.message r).

(** ** Entries before a predicted start *)

(** The log is inside a period before day [D]: some flow entry is dated
    before [D], and no entry without flow lies between it and [D]. *)
Definition period_open_before (D : Z) (entries : list CycleEntry) : Prop :=
  exists e,
    In e entries /\ entryHasFlow e = true /\ entry_date e < D
    /\ forall e', In e' entries -> entryHasFlow e' = false ->
                  entry_date e' < D -> entry_date e' < entry_date e.

(** ** Finite numbers, zeros and exact integer arithmetic *)

(** The zeros. *)
Definition is_zero (x : float) : Prop := exists s, Prim2SF x = S754_zero s.

(** The finite numbers, the zeros included. *)
Definition ffin (x : float) : Prop := fnn x /\ Z.abs (fv x) < INF.

(** The scaled value of one half. *)
Definition HALF : Z := 2 ^ 1073.

(** The sum of a list of integers. *)
Definition total (l : list Z) : Z := fold_right Z.add 0 l.

(** The differences between consecutive day numbers. *)
Fixpoint day_differences (days : list Z) : list Z :=
  match days with
  | a :: (b :: _) as rest => (b - a) :: day_differences rest
  | _ => []
  end.

(** Day numbers in the range of JavaScript dates, 100,000,000 days either
    side of the epoch. *)
Definition valid_day (d : Z) : Prop := -100000000 <= d <= 100000000.

Definition valid_dates (entries : list CycleEntry) : Prop :=
  Forall (fun e => valid_day (entry_date e)) entries.

(** The day from which a prediction is projected: the last cycle start, or
    today without one. *)
Definition anchor_day (now : Date) (cycleEntries : list CycleEntry)
           (maxEntriesToAnalyze : Z) : Z :=
  toISODate
    (last (Shared.identifyCycleStarts (slice0 cycleEntries maxEntriesToAnalyze))
          now).

(** The part of a [predict-cycle] row that [send-reminders] reads back:
    [cycle_start_date], [cycle_end_date] and the fertility window in the
    metadata. *)
Definition stored_row (prediction : PredictionResult) : Reminders.Prediction :=
  Reminders.mkStoredPrediction
    (next_period_start prediction) (next_period_end prediction)
    (Reminders.mkPredictionMeta (Some (fertility_window_start prediction))
                                (Some (fertility_window_end prediction))).

(** * Properties *)

(** ** Date arithmetic *)

Lemma MS_PER_DAY_pos : 0 < MS_PER_DAY.
Proof. reflexivity. Qed.

Lemma toISODate_add_days (d : Date) (n : Z) :
  toISODate (d + n * MS_PER_DAY) = toISODate d + n.
Proof.
  unfold toISODate.
  apply Z.div_add. pose proof MS_PER_DAY_pos. lia.
Qed.

Lemma utc_zone_fixed : fixed_offset utc_zone.
Proof. exists 0. split; reflexivity. Qed.

(** Where the offset from UTC never changes, [addDays] moves the UTC date
    by whole days, whatever the time of day. *)
Lemma addDays_fixed_offset (tz : TimeZone) (d : Date) (n : Z) :
  fixed_offset tz -> addDays tz d n = toISODate d + n.
Proof.
  intros (c & Hat & Hlocal). unfold addDays, UTC, LocalTime.
  rewrite Hat, Hlocal.
  replace (d + c + n * MS_PER_DAY - c) with (d + n * MS_PER_DAY) by ring.
  apply toISODate_add_days.
Qed.

Lemma toISODate_new_Date (day : Z) : toISODate (new_Date day) = day.
Proof.
  unfold toISODate, new_Date.
  apply Z.div_mul. pose proof MS_PER_DAY_pos. lia.
Qed.

(** ** The projected windows *)

(** On a host whose offset from UTC never changes, the projected period
    spans exactly [period_length_days] days, both ends included, and the
    fertility window ends six days after it starts. *)
Lemma predictCycle_windows_fixed_offset
      (tz : TimeZone) (now : Date) (cycleEntries : list CycleEntry)
      (profile : UserProfile) (maxEntriesToAnalyze : Z) :
  fixed_offset tz ->
  let r := Shared.predictCycle tz now cycleEntries profile maxEntriesToAnalyze in
  next_period_end r - next_period_start r + 1 = period_length_days profile
  /\ fertility_window_end r - fertility_window_start r = 6.
Proof.
  intros Hfix. unfold Shared.predictCycle.
  set (starts := Shared.identifyCycleStarts _).
  destruct (if (2 <=? length starts)%nat then _ else _) as [[[len c] s] m].
  cbn [next_period_end next_period_start
       fertility_window_end fertility_window_start].
  rewrite !(addDays_fixed_offset tz _ _ Hfix). split; lia.
Qed.

(** C2. The windows are not exact for every input: [addDays] moves the
    date in local time and prints it in UTC, so a projection that crosses a
    daylight-saving switch loses a day.  In America/New_York, a single
    period logged on 2024-02-09 with the profile [{28, 5}] gives the period
    2024-03-08 to 2024-03-11, four days instead of five; a single period
    logged on 2024-03-01 gives the fertility window 2024-03-10 to
    2024-03-15, five days apart instead of six. *)
Theorem predictCycle_windows_short_across_dst (now : Date) :
  let profile := mkProfile 28 5 in
  let a :=
    Shared.predictCycle new_york_2024 now [entry 19762 "medium"] profile 90 in
  let b :=
    Shared.predictCycle new_york_2024 now [entry 19783 "medium"] profile 90 in
  next_period_start a = 19790
  /\ next_period_end a = 19793
  /\ next_period_end a - next_period_start a + 1 <> period_length_days profile
  /\ fertility_window_start b = 19792
  /\ fertility_window_end b = 19797
  /\ fertility_window_end b - fertility_window_start b <> 6.
Proof.
  cbv zeta. repeat split; try discriminate; vm_compute; reflexivity.
Qed.

(** ** The two copies of the algorithm *)

Lemma identifyCycleStarts_copies (entries : list CycleEntry) :
  Shared.identifyCycleStarts entries = Edge.identifyCycleStarts entries.
Proof. reflexivity. Qed.

Lemma calculateCycleLengths_copies (cycleStarts : list Date) :
  Shared.calculateCycleLengths cycleStarts = Edge.calculateCycleLengths cycleStarts.
Proof.
  induction cycleStarts as [|a rest IH]; [reflexivity|].
  destruct rest as [|b rest]; [reflexivity|].
  change (Shared.days_between a b :: Shared.calculateCycleLengths (b :: rest)
          = Shared.days_between a b :: Edge.calculateCycleLengths (b :: rest)).
  now rewrite IH.
Qed.

Lemma calculateCycleStats_copies (cycleLengths : list Z) :
  Shared.calculateCycleStats cycleLengths = Edge.calculateCycleStats cycleLengths.
Proof. reflexivity. Qed.

(** C8. The prediction function of the shared library and its copy in the
    edge function return the same result on every list of entries, every
    profile and every [maxEntriesToAnalyze] (evaluated at the same instant). *)
Theorem predictCycle_copies_agree (tz : TimeZone)
        (now : Date) (cycleEntries : list CycleEntry)
        (profile : UserProfile) (maxEntriesToAnalyze : Z) :
  Shared.predictCycle tz now cycleEntries profile maxEntriesToAnalyze
  = Edge.predictCycle tz now cycleEntries profile maxEntriesToAnalyze.
Proof.
  unfold Shared.predictCycle, Edge.predictCycle.
  change (Edge.identifyCycleStarts (slice0 cycleEntries maxEntriesToAnalyze))
    with (Shared.identifyCycleStarts (slice0 cycleEntries maxEntriesToAnalyze)).
  set (starts := Shared.identifyCycleStarts _).
  pose proof (calculateCycleLengths_copies starts) as Hlen.
  pose proof (calculateCycleStats_copies (Shared.calculateCycleLengths starts))
    as Hstats.
  destruct Hlen, Hstats.
  reflexivity.
Qed.

(** ** Several predictions in a row *)

Lemma multi_loop (tz : TimeZone) (now : Date) (profile : UserProfile)
      (n : nat) :
  forall (k : nat) (acc : list PredictionResult) (cur : list CycleEntry),
    fold_left (Shared.multi_step tz now profile) (seq k n) (acc, cur)
    = (acc ++ map (fun i => Shared.predictCycle tz now (entries_at tz now profile cur i)
                                                profile 90)
                  (seq 0 n),
       entries_at tz now profile cur n).
Proof.
  induction n as [|n IH]; intros k acc cur.
  - cbn. now rewrite app_nil_r.
  - rewrite seq_S, fold_left_app, IH. cbn [fold_left Shared.multi_step].
    rewrite (seq_S n 0), map_app, app_assoc. reflexivity.
Qed.

(** C10. [predictMultipleCycles] returns exactly [numberOfCycles]
    predictions; prediction number [i] is [predictCycle] on the entry list
    [entries_at i]: the given list for the first one, and for each later one
    the previous list with a synthetic medium-flow entry, dated at the
    previous prediction's [next_period_start], put in front. *)
Theorem predictMultipleCycles_spec (tz : TimeZone)
        (now : Date) (cycleEntries : list CycleEntry)
        (profile : UserProfile) (numberOfCycles : nat) :
  length (Shared.predictMultipleCycles tz now cycleEntries profile numberOfCycles)
  = numberOfCycles
  /\ Shared.predictMultipleCycles tz now cycleEntries profile numberOfCycles
     = map (fun i => Shared.predictCycle tz
                       now (entries_at tz now profile cycleEntries i) profile 90)
           (seq 0 numberOfCycles).
Proof.
  unfold Shared.predictMultipleCycles. rewrite multi_loop. cbn [fst app].
  split; [|reflexivity].
  now rewrite length_map, length_seq.
Qed.

(** ** Reminders *)

Module RemindersFacts.
Import Reminders.

Lemma reminder_day_spec (day daysBefore : Z) :
  reminder_day day daysBefore = day - daysBefore.
Proof.
  unfold reminder_day.
  replace (new_Date day - daysBefore * MS_PER_DAY)
    with (new_Date day + (- daysBefore) * MS_PER_DAY) by ring.
  rewrite toISODate_add_days, toISODate_new_Date. ring.
Qed.

(** What the evaluator does for an enabled [period_start] reminder and a
    stored prediction: the reminder is due exactly on the day
    [cycle_start_date - (days_before || 3)]. *)
Lemma shouldSendReminder_period_start
      (now : Date) (r : Reminder) (p : Prediction) :
  enabled r = true ->
  reminder_type r = "period_start"%string ->
  shouldSendReminder now r (Some p)
  = (cycle_start_date p - number_or (days_before (schedule_config r)) 3
     =? toISODate now).
Proof.
  intros Hen Hty. unfold shouldSendReminder.
  rewrite Hen, Hty. cbn. now rewrite reminder_day_spec.
Qed.

(** C4. With [days_before = 0] the evaluator does not use the day of the
    predicted start: the field is read with [||], so 0 is replaced by the
    default 3.  For every prediction and every instant the reminder is due
    exactly three days before the start; on the start day itself it is not
    due. *)
Theorem shouldSendReminder_days_before_zero (now : Date) (p : Prediction) :
  shouldSendReminder now (period_start_reminder (Some 0)) (Some p)
  = (cycle_start_date p - 3 =? toISODate now)
  /\ shouldSendReminder (new_Date (cycle_start_date p))
                        (period_start_reminder (Some 0)) (Some p)
     = false.
Proof.
  rewrite !shouldSendReminder_period_start by reflexivity.
  split; [reflexivity|].
  rewrite toISODate_new_Date. cbn. apply Z.eqb_neq. lia.
Qed.

(** C9 as stated fails: a [custom_message] that is set to the empty string
    is not returned; the template of the reminder type is. *)
Lemma custom_message_empty_not_returned :
  let r := mkReminder "r1" "u1" "hydration"
                      (mkSchedule None None None (Some EmptyString)) true in
  custom_message (schedule_config r) = Some EmptyString
  /\ generateReminderMessage (fun _ => "2024-01-01"%string) r None
     = "Remember to stay hydrated!"%string
  /\ generateReminderMessage (fun _ => "2024-01-01"%string) r None
     <> EmptyString.
Proof. repeat split. discriminate. Qed.

(** C9, amended. A [custom_message] that is set to a non-empty string is
    returned verbatim, for every reminder type and every prediction,
    a missing prediction included. *)
Theorem generateReminderMessage_custom
        (iso : Z -> string) (r : Reminder) (p : option Prediction)
        (msg : string) :
  custom_message (schedule_config r) = Some msg ->
  msg <> EmptyString ->
  generateReminderMessage iso r p = msg.
Proof.
  intros Hmsg Hne. unfold generateReminderMessage. rewrite Hmsg.
  destruct (String.eqb_spec msg EmptyString); [contradiction | reflexivity].
Qed.

Lemma generateReminderMessage_custom_witness :
  generateReminderMessage
    (fun _ => "2024-01-01"%string)
    (mkReminder "r1" "u1" "custom"
                (mkSchedule None None None (Some "Drink water"%string)) true)
    None
  = "Drink water"%string.
Proof.
  apply generateReminderMessage_custom; [reflexivity | discriminate].
Defined.

End RemindersFacts.

(** ** Segmentation and the order of the entries *)

Lemma insert_by_date_perm (x : DatedEntry) (l : list DatedEntry) :
  Permutation (x :: l) (insert_by_date x l).
Proof.
  induction l as [|y l IH]; cbn; [reflexivity|].
  destruct (date x <=? date y); [reflexivity|].
  rewrite perm_swap. now apply perm_skip.
Qed.

Lemma sort_by_date_perm (l : list DatedEntry) :
  Permutation l (sort_by_date l).
Proof.
  induction l as [|x l IH]; cbn; [reflexivity|].
  rewrite <- insert_by_date_perm. now apply perm_skip.
Qed.

Lemma insert_by_date_sorted (x : DatedEntry) (l : list DatedEntry) :
  StronglySorted date_le l -> StronglySorted date_le (insert_by_date x l).
Proof.
  induction 1 as [|y l Hs IH Hy]; cbn.
  - repeat constructor.
  - destruct (Z.leb_spec (date x) (date y)) as [Hle|Hgt].
    + constructor; [now constructor|].
      constructor; [exact Hle|].
      eapply Forall_impl; [|exact Hy].
      unfold date_le. intros a Ha. lia.
    + constructor; [exact IH|].
      rewrite <- insert_by_date_perm.
      constructor; [unfold date_le; lia | exact Hy].
Qed.

(** The sort leaves the entries in ascending order of date. *)
Lemma sort_by_date_sorted (l : list DatedEntry) :
  StronglySorted date_le (sort_by_date l).
Proof.
  induction l as [|x l IH]; cbn; [constructor|].
  now apply insert_by_date_sorted.
Qed.

(** Two insertions of entries with different dates commute, whatever the
    list. *)
Lemma insert_by_date_comm (x y : DatedEntry) (l : list DatedEntry) :
  date x <> date y ->
  insert_by_date x (insert_by_date y l) = insert_by_date y (insert_by_date x l).
Proof.
  intros Hxy. induction l as [|z l IH]; cbn.
  - destruct (Z.leb_spec (date x) (date y)), (Z.leb_spec (date y) (date x));
      try reflexivity; lia.
  - destruct (Z.leb_spec (date y) (date z)) as [Hyz|Hyz],
             (Z.leb_spec (date x) (date z)) as [Hxz|Hxz]; cbn;
      destruct (Z.leb_spec (date x) (date y)) as [Hxy'|Hxy'],
               (Z.leb_spec (date y) (date x)) as [Hyx|Hyx];
      try lia;
      repeat match goal with
             | |- context [?a <=? ?b] =>
                 destruct (Z.leb_spec a b); try lia
             end;
      try reflexivity; now rewrite IH.
Qed.

Lemma sort_by_date_permutation_invariant (l l' : list DatedEntry) :
  Permutation l l' ->
  NoDup (dates_of l) ->
  sort_by_date l = sort_by_date l'.
Proof.
  unfold dates_of, sort_by_date.
  induction 1 as [|x l l' Hp IH|x y l|l l' l'' Hp1 IH1 Hp2 IH2]; intros Hnd.
  - reflexivity.
  - cbn [fold_right]. rewrite IH; [reflexivity|]. now inversion Hnd.
  - cbn [fold_right]. apply insert_by_date_comm.
    cbn in Hnd. inversion Hnd as [|? ? Hin _]; subst.
    intros Heq. apply Hin. left. now symmetry.
  - rewrite IH1 by exact Hnd. apply IH2.
    eapply Permutation_NoDup; [|exact Hnd]. now apply Permutation_map.
Qed.

Lemma dates_of_with_date (l : list CycleEntry) :
  NoDup (map entry_date l) -> NoDup (dates_of (map with_date l)).
Proof.
  unfold dates_of. rewrite map_map. cbn.
  induction l as [|a l IH]; cbn; intros Hnd; [constructor|].
  inversion Hnd as [|? ? Hin Hnd']; subst.
  constructor; [|now apply IH].
  rewrite in_map_iff. intros [b [Hb Hin']]. apply Hin.
  rewrite in_map_iff. exists b. split; [|exact Hin'].
  unfold new_Date in Hb. pose proof MS_PER_DAY_pos. nia.
Qed.

Lemma identifyCycleStarts_unfold (entries : list CycleEntry) :
  Shared.identifyCycleStarts entries
  = fst (fold_left Shared.segment_step
                   (sort_by_date (map with_date entries)) ([], false)).
Proof. destruct entries; reflexivity. Qed.

(** The segmenter scans the entries in ascending order of date: the list it
    folds over is a sorted rearrangement of the dated input. *)
Lemma identifyCycleStarts_sorts_first (entries : list CycleEntry) :
  exists sortedEntries,
    Permutation (map with_date entries) sortedEntries
    /\ StronglySorted date_le sortedEntries
    /\ Shared.identifyCycleStarts entries
       = fst (fold_left Shared.segment_step sortedEntries ([], false)).
Proof.
  exists (sort_by_date (map with_date entries)). repeat split.
  - apply sort_by_date_perm.
  - apply sort_by_date_sorted.
  - apply identifyCycleStarts_unfold.
Qed.

(** C7 as stated fails: with several entries on one day the stable sort keeps
    them in the caller's order, and the detected cycle-starts depend on it. *)
Lemma identifyCycleStarts_order_dependent :
  Permutation same_day_entries same_day_entries_permuted
  /\ Shared.identifyCycleStarts same_day_entries = [new_Date 0; new_Date 0]
  /\ Shared.identifyCycleStarts same_day_entries_permuted = [new_Date 0]
  /\ Shared.identifyCycleStarts same_day_entries
     <> Shared.identifyCycleStarts same_day_entries_permuted.
Proof.
  repeat split.
  - apply perm_swap.
  - discriminate.
Qed.

(** C7, amended. For every list of log entries with pairwise distinct dates
    and every permutation of it, the segmenter returns the same list of
    cycle-start dates: it sorts ascending by date first, and it is a total
    function. *)
Theorem identifyCycleStarts_permutation_invariant
        (entries entries' : list CycleEntry) :
  Permutation entries entries' ->
  NoDup (map entry_date entries) ->
  Shared.identifyCycleStarts entries = Shared.identifyCycleStarts entries'.
Proof.
  intros Hp Hnd. rewrite !identifyCycleStarts_unfold.
  rewrite (sort_by_date_permutation_invariant
             (map with_date entries) (map with_date entries')).
  - reflexivity.
  - now apply Permutation_map.
  - now apply dates_of_with_date.
Qed.

Lemma identifyCycleStarts_permutation_invariant_witness :
  Shared.identifyCycleStarts shuffled_entries
  = Shared.identifyCycleStarts shuffled_entries_ascending.
Proof.
  apply identifyCycleStarts_permutation_invariant.
  - unfold shuffled_entries, shuffled_entries_ascending.
    apply Permutation_sym.
    apply (Permutation_cons_app [entry 29 "medium"]
             [entry 6 "none"; entry 2 "heavy"] (entry 1 "medium")).
    apply (Permutation_cons_app [entry 29 "medium"; entry 6 "none"]
             [] (entry 2 "heavy")).
    apply (Permutation_cons_app [entry 29 "medium"] [] (entry 6 "none")).
    reflexivity.
  - cbn. repeat constructor; cbn; intuition discriminate.
Defined.

(** ** The confidence tiers *)

Lemma calculateCycleLengths_length (cycleStarts : list Date) :
  length (Shared.calculateCycleLengths cycleStarts)
  = (length cycleStarts - 1)%nat.
Proof.
  induction cycleStarts as [|a rest IH]; [reflexivity|].
  destruct rest as [|b rest]; [reflexivity|].
  change (S (length (Shared.calculateCycleLengths (b :: rest)))
          = (length (a :: b :: rest) - 1)%nat).
  rewrite IH. cbn. lia.
Qed.

Lemma fold_left_map_add {A} (f : A -> float) (l : list A) (acc : float) :
  fold_left (fun sum val => PrimFloat.add sum (f val)) l acc
  = fold_left PrimFloat.add (map f l) acc.
Proof.
  revert acc. induction l as [|x l IH]; intros acc; [reflexivity|].
  cbn. apply IH.
Qed.

Lemma sum_lengths_spec (samples : list Z) :
  Shared.sum_lengths samples = sum_left (map JS.of_Z samples).
Proof. apply fold_left_map_add. Qed.

Lemma sum_sq_dev_spec (samples : list Z) (avg : float) :
  Shared.sum_sq_dev samples avg
  = sum_left (map (fun x => PrimFloat.mul (PrimFloat.sub (JS.of_Z x) avg)
                                          (PrimFloat.sub (JS.of_Z x) avg))
                  samples).
Proof.
  unfold Shared.sum_sq_dev, JS.Math_pow2.
  apply (fold_left_map_add
           (fun x => PrimFloat.mul (PrimFloat.sub (JS.of_Z x) avg)
                                   (PrimFloat.sub (JS.of_Z x) avg))).
Qed.

(** The statistics of the code are the mean and the sample standard
    deviation (one sample: deviation 0). *)
Lemma calculateCycleStats_average (samples : list Z) :
  samples <> [] ->
  average (Shared.calculateCycleStats samples) = mean samples.
Proof.
  intros Hne. unfold Shared.calculateCycleStats, mean.
  destruct samples as [|x [|y rest]]; [contradiction| |];
    cbn [average]; now rewrite sum_lengths_spec.
Qed.

Lemma calculateCycleStats_stdDev (samples : list Z) :
  (2 <= length samples)%nat ->
  stdDev (Shared.calculateCycleStats samples) = sample_std_dev samples.
Proof.
  intros Hlen. unfold Shared.calculateCycleStats, sample_std_dev.
  destruct samples as [|x [|y rest]]; [cbn in Hlen; lia | cbn in Hlen; lia |].
  cbn [stdDev]. unfold JS.Math_sqrt, mean.
  now rewrite sum_sq_dev_spec, sum_lengths_spec.
Qed.

(** C1. The source, the confidence and the predicted cycle length returned
    by [predictCycle] are fixed by the number of cycle-length samples, which
    is the number of detected cycle-starts minus one, floored at zero:
    no sample gives [profile_default], 0.5 and the profile's cycle length;
    one or two samples give [hybrid], [0.6 + 0.1 * count] and the rounded
    mean; three or more give [historical], the rounded mean and
    [clamp(1 - (stdDev/mean)*0.5, 0.5, 0.95)] with the sample standard
    deviation; the confidence is rounded to two decimals.  The predicted
    length is read off [next_period_start], which is the anchor date plus
    that many days. *)
Theorem predictCycle_confidence_table (tz : TimeZone)
        (now : Date) (cycleEntries : list CycleEntry)
        (profile : UserProfile) (maxEntriesToAnalyze : Z) :
  let starts := starts_of cycleEntries maxEntriesToAnalyze in
  let samples := samples_of cycleEntries maxEntriesToAnalyze in
  let anchor := last starts now in
  let r := Shared.predictCycle tz now cycleEntries profile maxEntriesToAnalyze in
  length samples = (length starts - 1)%nat
  /\ match length samples with
     | 0%nat =>
         source r = profile_default
         /\ confidence r = 0.5%float
         /\ next_period_start r = addDays tz anchor (cycle_length_days profile)
     | 1%nat | 2%nat =>
         source r = hybrid
         /\ confidence r
            = two_decimals
                (PrimFloat.add 0.6%float
                   (PrimFloat.mul 0.1%float
                      (JS.of_Z (Z.of_nat (length samples)))))
         /\ next_period_start r
            = addDays tz anchor (JS.Math_round_Z (mean samples))
     | _ =>
         source r = historical
         /\ confidence r
            = two_decimals
                (clamp (PrimFloat.sub 1%float
                          (PrimFloat.mul
                             (PrimFloat.div (sample_std_dev samples)
                                            (mean samples))
                             0.5%float))
                       0.5%float 0.95%float)
         /\ next_period_start r
            = addDays tz anchor (JS.Math_round_Z (mean samples))
     end.
Proof.
  cbv zeta. unfold samples_of, starts_of, Shared.predictCycle.
  set (starts := Shared.identifyCycleStarts _).
  set (samples := Shared.calculateCycleLengths starts).
  assert (Hlen : length samples = (length starts - 1)%nat)
    by apply calculateCycleLengths_length.
  split; [exact Hlen|].
  assert (Hne : (1 <= length samples)%nat -> samples <> [])
    by (intros H E; rewrite E in H; cbn in H; lia).
  destruct (length samples) as [|[|[|n]]] eqn:Hn;
    [ replace (2 <=? length starts)%nat with false
        by (symmetry; apply Nat.leb_gt; lia)
    | replace (2 <=? length starts)%nat with true
        by (symmetry; apply Nat.leb_le; lia) ..];
    cbn [Nat.leb]; cbv beta iota zeta;
    cbn [source confidence next_period_start].
  - repeat split.
  - rewrite calculateCycleStats_average by (apply Hne; lia).
    repeat split.
  - rewrite calculateCycleStats_average by (apply Hne; lia).
    repeat split.
  - unfold Shared.historical_confidence, Shared.round2, two_decimals, clamp.
    rewrite calculateCycleStats_average by (apply Hne; lia).
    rewrite calculateCycleStats_stdDev by lia.
    repeat split.
Qed.

(** ** Three regular cycle-starts *)

(** C3. When the segmentation yields exactly three cycle-starts, each 28 days
    after the previous one, there are two cycle-length samples, and the result
    is [hybrid] with confidence 0.8 for every profile: [historical] and 0.95
    are not reached. *)
Theorem three_regular_starts_hybrid (tz : TimeZone)
        (now : Date) (cycleEntries : list CycleEntry)
        (profile : UserProfile) (maxEntriesToAnalyze : Z) (day : Z) :
  starts_of cycleEntries maxEntriesToAnalyze
  = [new_Date day; new_Date (day + 28); new_Date (day + 56)] ->
  let r := Shared.predictCycle tz now cycleEntries profile maxEntriesToAnalyze in
  source r = hybrid
  /\ confidence r = 0.8%float
  /\ cycles_analyzed (metadata r) = 2%nat
  /\ source r <> historical
  /\ confidence r <> 0.95%float.
Proof.
  unfold starts_of. intros Hstarts. cbv zeta.
  unfold Shared.predictCycle. rewrite Hstarts.
  cbn [length Nat.leb Shared.calculateCycleLengths].
  unfold Shared.days_between.
  replace (new_Date (day + 28) - new_Date day) with (28 * MS_PER_DAY)
    by (unfold new_Date; ring).
  replace (new_Date (day + 56) - new_Date (day + 28)) with (28 * MS_PER_DAY)
    by (unfold new_Date; ring).
  cbn [length Nat.leb]. cbv beta iota zeta.
  cbn [source confidence metadata cycles_analyzed].
  assert (Hc : Shared.round2
                 (PrimFloat.add 0.6%float
                    (PrimFloat.mul (JS.of_Z (Z.of_nat 2)) 0.1%float))
               = 0.8%float) by (vm_compute; reflexivity).
  rewrite Hc.
  repeat split; discriminate.
Qed.

Lemma three_regular_starts_hybrid_witness :
  let r := Shared.predictCycle utc_zone 0 three_regular_starts sample_profile 90 in
  source r = hybrid
  /\ confidence r = 0.8%float
  /\ cycles_analyzed (metadata r) = 2%nat
  /\ source r <> historical
  /\ confidence r <> 0.95%float.
Proof.
  apply (three_regular_starts_hybrid utc_zone 0 three_regular_starts
                                     sample_profile 90 0).
  vm_compute. reflexivity.
Defined.

(** ** Degenerate statistics *)

(** C5. With four cycle-starts on one date the three samples are 0, the mean
    is 0 and the ratio [stdDev / mean] is [0 / 0]: the confidence that
    [predictCycle] returns is NaN, which is neither at least 0.5 nor at most
    0.95. *)
Theorem predictCycle_zero_mean_confidence_nan (tz : TimeZone)
        (now : Date) (profile : UserProfile) :
  let r := Shared.predictCycle tz now four_starts_same_day profile 90 in
  samples_of four_starts_same_day 90 = [0; 0; 0]
  /\ source r = historical
  /\ confidence r = PrimFloat.nan
  /\ PrimFloat.leb 0.5%float (confidence r) = false
  /\ PrimFloat.leb (confidence r) 0.95%float = false.
Proof.
  cbv zeta.
  assert (Hs : samples_of four_starts_same_day 90 = [0; 0; 0])
    by (vm_compute; reflexivity).
  assert (Hsrc : source (Shared.predictCycle tz now four_starts_same_day profile 90)
                 = historical)
    by (vm_compute; reflexivity).
  assert (Hc : confidence (Shared.predictCycle tz now four_starts_same_day profile 90)
               = PrimFloat.nan)
    by (vm_compute; reflexivity).
  rewrite Hc. repeat split; assumption.
Qed.

(** ** Confidence against the deviation ratio *)

(** C6 as stated fails: both inputs have three samples; the samples 27, 28, 29
    have a strictly greater ratio [stdDev / mean] than the samples 28, 28, 28,
    yet both confidences are 0.95, so the first is not strictly smaller. *)
Lemma confidence_not_strictly_decreasing :
  let a := Shared.predictCycle utc_zone 0 four_near_regular_starts sample_profile 90 in
  let b := Shared.predictCycle utc_zone 0 four_regular_starts sample_profile 90 in
  samples_of four_near_regular_starts 90 = [27; 28; 29]
  /\ samples_of four_regular_starts 90 = [28; 28; 28]
  /\ PrimFloat.ltb (deviation_ratio (samples_of four_regular_starts 90))
                   (deviation_ratio (samples_of four_near_regular_starts 90))
     = true
  /\ confidence a = 0.95%float
  /\ confidence b = 0.95%float
  /\ PrimFloat.ltb (confidence a) (confidence b) = false.
Proof. vm_compute. repeat split. Qed.

(** ** Rounding of binary64 numbers *)

(** The number of binary digits of a mantissa. *)
Lemma digits2_pos_bounds (p : positive) :
  2 ^ (Z.pos (digits2_pos p) - 1) <= Z.pos p < 2 ^ Z.pos (digits2_pos p).
Proof.
  induction p as [p IH|p IH|]; cbn [digits2_pos].
  - rewrite Pos2Z.inj_succ.
    replace (Z.succ (Z.pos (digits2_pos p)) - 1) with (Z.succ (Z.pos (digits2_pos p) - 1)) by lia.
    rewrite !Z.pow_succ_r by lia. lia.
  - rewrite Pos2Z.inj_succ.
    replace (Z.succ (Z.pos (digits2_pos p)) - 1) with (Z.succ (Z.pos (digits2_pos p) - 1)) by lia.
    rewrite !Z.pow_succ_r by lia. lia.
  - cbn. lia.
Qed.

Lemma digits2_pos_unique (p : positive) (d : Z) :
  2 ^ (d - 1) <= Z.pos p < 2 ^ d -> Z.pos (digits2_pos p) = d.
Proof.
  intros [Hlo Hhi]. pose proof (digits2_pos_bounds p) as [Hlo' Hhi'].
  set (d' := Z.pos (digits2_pos p)) in *.
  assert (0 < d) by (destruct d; try lia; cbn in Hhi; lia).
  destruct (Z.lt_trichotomy d d') as [Hlt|[Heq|Hgt]]; [|exact (eq_sym Heq)|].
  - assert (2 ^ d <= 2 ^ (d' - 1)) by (apply Z.pow_le_mono_r; lia). lia.
  - assert (2 ^ d' <= 2 ^ (d - 1)) by (apply Z.pow_le_mono_r; lia). lia.
Qed.

(** Iterated right shifts. *)
Lemma iter_pos_nat {A} (f : A -> A) (p : positive) (x : A) :
  iter_pos f p x = Nat.iter (Pos.to_nat p) f x.
Proof.
  revert x. induction p as [p IH|p IH|]; intros x; cbn [iter_pos].
  - rewrite !IH, Pos2Nat.inj_xI. cbn [Nat.iter].
    rewrite <- Nat.iter_succ_r. rewrite <- Nat.iter_add. f_equal. lia.
  - rewrite !IH, Pos2Nat.inj_xO. rewrite <- Nat.iter_add. f_equal. lia.
  - reflexivity.
Qed.

Lemma shr_inv_first (M : Z) :
  0 <= M -> shr_inv M 1 (shr_1 (Build_shr_record M false false)).
Proof.
  intros HM. exists 0. cbn [shr_1 orb].
  destruct M as [|[p|p|]|p]; cbn [shr_m shr_r shr_s]; try lia;
    repeat split; try reflexivity; try lia.
Qed.

Lemma shr_inv_step (M k : Z) (mrs : shr_record) :
  1 <= k -> shr_inv M k mrs -> shr_inv M (k + 1) (shr_1 mrs).
Proof.
  intros Hk [low (Hlow & Hs & Hm & HM)].
  destruct mrs as [m r s]. cbn [shr_m shr_r shr_s] in *.
  exists ((if r then 2 ^ (k - 1) else 0) + low).
  replace (k + 1 - 1) with k by lia.
  assert (Hp : 2 ^ k = 2 * 2 ^ (k - 1)).
  { replace k with (Z.succ (k - 1)) at 1 by lia. apply Z.pow_succ_r. lia. }
  assert (Hp' : 2 ^ (k + 1) = 2 * 2 ^ k) by (apply Z.pow_succ_r; lia).
  assert (Hpos : 0 < 2 ^ (k - 1)) by (apply Z.pow_pos_nonneg; lia).
  assert (Hs' : (r || s)%bool
                = negb ((if r then 2 ^ (k - 1) else 0) + low =? 0)).
  { subst s. destruct r; cbn [orb].
    - symmetry. apply negb_true_iff. apply Z.eqb_neq. lia.
    - reflexivity. }
  unfold shr_1.
  destruct m as [|[p|p|]|p]; cbn [shr_m shr_r shr_s]; try lia;
    (split; [destruct r; lia|]); (split; [exact Hs'|]); (split; [lia|]);
    rewrite HM, Hp'; destruct r; lia.
Qed.

Lemma shr_inv_iter (M : Z) (n : nat) :
  0 <= M ->
  shr_inv M (Z.of_nat (S n)) (Nat.iter (S n) shr_1 (Build_shr_record M false false)).
Proof.
  intros HM. induction n as [|n IH].
  - apply shr_inv_first; exact HM.
  - replace (Z.of_nat (S (S n))) with (Z.of_nat (S n) + 1) by lia.
    change (Nat.iter (S (S n)) shr_1 ?x) with (shr_1 (Nat.iter (S n) shr_1 x)).
    apply shr_inv_step; [lia | exact IH].
Qed.

Lemma shr_inv_rne (M k : Z) (mrs : shr_record) :
  1 <= k -> shr_inv M k mrs ->
  round_nearest_even (shr_m mrs) (loc_of_shr_record mrs) = rne M k.
Proof.
  intros Hk [low (Hlow & Hs & Hm & HM)].
  destruct mrs as [m r s]. cbn [shr_m shr_r shr_s] in *.
  assert (Hp : 2 ^ k = 2 * 2 ^ (k - 1)).
  { replace k with (Z.succ (k - 1)) at 1 by lia. apply Z.pow_succ_r. lia. }
  assert (Hpos : 0 < 2 ^ (k - 1)) by (apply Z.pow_pos_nonneg; lia).
  set (rem := (if r then 2 ^ (k - 1) else 0) + low) in *.
  assert (Hrem : 0 <= rem < 2 ^ k) by (subst rem; destruct r; lia).
  assert (Hq : M / 2 ^ k = m).
  { symmetry. apply (Z.div_unique_pos M (2 ^ k) m rem); lia. }
  assert (Hr : M mod 2 ^ k = rem).
  { symmetry. apply (Z.mod_unique_pos M (2 ^ k) m rem); lia. }
  unfold rne. rewrite Hq, Hr. subst rem s.
  destruct r, (Z.eqb_spec low 0); cbn [negb loc_of_shr_record round_nearest_even].
  - subst low. rewrite Z.add_0_r, Z.compare_refl. reflexivity.
  - replace (2 ^ (k - 1) + low ?= 2 ^ (k - 1)) with Gt
      by (symmetry; apply Z.compare_gt_iff; lia).
    reflexivity.
  - subst low. replace (0 + 0 ?= 2 ^ (k - 1)) with Lt
      by (symmetry; apply Z.compare_lt_iff; lia).
    reflexivity.
  - replace (0 + low ?= 2 ^ (k - 1)) with Lt
      by (symmetry; apply Z.compare_lt_iff; lia).
    reflexivity.
Qed.

(** The first shift and rounding of [binary_round_aux]. *)
Lemma shr_round (M : Z) (p : positive) :
  0 <= M ->
  let mrs := iter_pos shr_1 p (Build_shr_record M false false) in
  round_nearest_even (shr_m mrs) (loc_of_shr_record mrs) = rne M (Z.pos p).
Proof.
  intros HM mrs. subst mrs. rewrite iter_pos_nat.
  destruct (Pos2Nat.is_succ p) as [n Hn]. rewrite Hn.
  apply shr_inv_rne; [lia|].
  replace (Z.pos p) with (Z.of_nat (S n)) by lia.
  apply shr_inv_iter; exact HM.
Qed.

(** Properties of [rne]. *)
Lemma rne_bounds (M n : Z) :
  M / 2 ^ n <= rne M n <= M / 2 ^ n + 1.
Proof.
  unfold rne. destruct (_ ?= _); [destruct (Z.even _)| |]; lia.
Qed.

Lemma rne_mono (M1 M2 n : Z) :
  0 <= n -> M1 <= M2 -> rne M1 n <= rne M2 n.
Proof.
  intros Hn HM.
  assert (Hpos : 0 < 2 ^ n) by (apply Z.pow_pos_nonneg; lia).
  pose proof (Z.div_le_mono M1 M2 (2 ^ n) Hpos HM) as Hq.
  destruct (Z.eq_dec (M1 / 2 ^ n) (M2 / 2 ^ n)) as [Heq|Hne].
  - assert (Hr : M1 mod 2 ^ n <= M2 mod 2 ^ n).
    { rewrite (Z.mod_eq M1), (Z.mod_eq M2) by lia. rewrite Heq. lia. }
    unfold rne. rewrite Heq.
    destruct (Z.compare_spec (M1 mod 2 ^ n) (2 ^ (n - 1))),
             (Z.compare_spec (M2 mod 2 ^ n) (2 ^ (n - 1)));
      try lia; destruct (Z.even (M2 / 2 ^ n)); lia.
  - pose proof (rne_bounds M1 n). pose proof (rne_bounds M2 n). lia.
Qed.

Lemma rne_exact (M n j : Z) :
  0 < n -> n <= j -> rne (M * 2 ^ j) n = M * 2 ^ (j - n).
Proof.
  intros Hn Hj.
  assert (Hpos : 0 < 2 ^ n) by (apply Z.pow_pos_nonneg; lia).
  assert (Hpos' : 0 < 2 ^ (n - 1)) by (apply Z.pow_pos_nonneg; lia).
  assert (Hsplit : 2 ^ j = 2 ^ (j - n) * 2 ^ n)
    by (rewrite <- Z.pow_add_r by lia; f_equal; lia).
  unfold rne. rewrite Hsplit, Z.mul_assoc, Z.div_mul, Z.mod_mul by lia.
  replace (0 ?= 2 ^ (n - 1)) with Lt
    by (symmetry; apply Z.compare_lt_iff; lia).
  reflexivity.
Qed.

Lemma rne_scale (M n j : Z) :
  0 < n -> 0 <= j -> rne (M * 2 ^ j) (n + j) = rne M n.
Proof.
  intros Hn Hj.
  assert (Hpj : 0 < 2 ^ j) by (apply Z.pow_pos_nonneg; lia).
  assert (Hpn : 0 < 2 ^ n) by (apply Z.pow_pos_nonneg; lia).
  assert (H1 : 2 ^ (n + j) = 2 ^ n * 2 ^ j) by (apply Z.pow_add_r; lia).
  assert (H2 : 2 ^ (n + j - 1) = 2 ^ (n - 1) * 2 ^ j)
    by (rewrite <- Z.pow_add_r by lia; f_equal; lia).
  unfold rne. rewrite H1, H2.
  rewrite Z.div_mul_cancel_r by lia.
  rewrite Z.mul_mod_distr_r by lia.
  rewrite <- Zmult_compare_compat_r by lia.
  reflexivity.
Qed.

(** ** The scaled value of binary64 numbers *)

Lemma fexp_eq (x : Z) : fexp prec emax x = Z.max (x - 53) (-1074).
Proof. reflexivity. Qed.

Lemma Zdigits2_bounds (q : Z) :
  0 < q -> 2 ^ (Zdigits2 q - 1) <= q < 2 ^ Zdigits2 q.
Proof.
  destruct q as [|p|p]; try lia. intros _. apply digits2_pos_bounds.
Qed.

Lemma Zdigits2_pos (q : Z) : 0 < q -> 0 < Zdigits2 q.
Proof. destruct q; cbn; lia. Qed.

Lemma Zdigits2_le (q d : Z) : 0 < q -> 0 <= d -> q < 2 ^ d -> Zdigits2 q <= d.
Proof.
  intros Hq Hd Hlt. pose proof (Zdigits2_bounds q Hq) as [Hlo _].
  destruct (Z.le_gt_cases (Zdigits2 q) d) as [H|H]; [exact H|].
  assert (2 ^ d <= 2 ^ (Zdigits2 q - 1)) by (apply Z.pow_le_mono_r; lia).
  lia.
Qed.

Lemma shr_fexp_noshift (m e : Z) :
  fexp prec emax (Zdigits2 m + e) <= e ->
  shr_fexp prec emax m e loc_Exact = (Build_shr_record m false false, e).
Proof.
  intros H. unfold shr_fexp, shr. cbn [shr_record_of_loc].
  destruct (fexp prec emax (Zdigits2 m + e) - e) eqn:E; try reflexivity. lia.
Qed.

Lemma shr_fexp_shift (m e : Z) (p : positive) :
  fexp prec emax (Zdigits2 m + e) - e = Z.pos p ->
  shr_fexp prec emax m e loc_Exact
  = (iter_pos shr_1 p (Build_shr_record m false false), e + Z.pos p).
Proof.
  intros H. unfold shr_fexp, shr. cbn [shr_record_of_loc]. now rewrite H.
Qed.

Lemma pow2_split (a b : Z) : 0 <= a -> 0 <= b -> 2 ^ (a + b) = 2 ^ a * 2 ^ b.
Proof. intros. apply Z.pow_add_r; lia. Qed.

Lemma pow2_pos (a : Z) : 0 <= a -> 0 < 2 ^ a.
Proof. intros. apply Z.pow_pos_nonneg; lia. Qed.

Lemma TOP_lt_INF : TOP < INF.
Proof. reflexivity. Qed.

Lemma INF_pos : 0 < INF.
Proof. reflexivity. Qed.

Lemma UNIT_pos : 0 < UNIT.
Proof. reflexivity. Qed.

Lemma mul_pow2_lt (q g a b : Z) :
  0 <= q < 2 ^ a -> 0 <= g <= b -> 0 <= a -> q * 2 ^ g < 2 ^ (a + b).
Proof.
  intros Hq Hg Ha. rewrite pow2_split by lia.
  assert (0 < 2 ^ g) by (apply pow2_pos; lia).
  assert (2 ^ g <= 2 ^ b) by (apply Z.pow_le_mono_r; lia).
  nia.
Qed.

Lemma mul_pow2_ge (q g a b : Z) :
  2 ^ a <= q -> 0 <= b <= g -> 0 <= a -> 2 ^ (a + b) <= q * 2 ^ g.
Proof.
  intros Hq Hg Ha. rewrite pow2_split by lia.
  assert (0 < 2 ^ b) by (apply pow2_pos; lia).
  assert (0 < 2 ^ a) by (apply pow2_pos; lia).
  assert (2 ^ b <= 2 ^ g) by (apply Z.pow_le_mono_r; lia).
  nia.
Qed.

Lemma below_TOP (q g : Z) :
  0 <= q < 2 ^ 53 -> 0 <= g <= 2045 -> q * 2 ^ g < TOP.
Proof. intros Hq Hg. apply (mul_pow2_lt q g 53 2045); lia. Qed.

Lemma above_TOP (q g : Z) :
  2 ^ 52 <= q -> 2046 <= g -> TOP <= q * 2 ^ g.
Proof. intros Hq Hg. apply (mul_pow2_ge q g 52 2046); lia. Qed.

Lemma cap_below (q g : Z) :
  0 <= q < 2 ^ 53 -> 0 <= g <= 2045 -> cap (q * 2 ^ g) = q * 2 ^ g.
Proof.
  intros Hq Hg. unfold cap. pose proof (below_TOP q g Hq Hg).
  destruct (Z.ltb_spec (q * 2 ^ g) TOP); [reflexivity | lia].
Qed.

Lemma cap_above (q g : Z) :
  2 ^ 52 <= q -> 2046 <= g -> cap (q * 2 ^ g) = INF.
Proof.
  intros Hq Hg. unfold cap. pose proof (above_TOP q g Hq Hg).
  destruct (Z.ltb_spec (q * 2 ^ g) TOP); [lia | reflexivity].
Qed.

(** The last step of [binary_round_aux]: a mantissa [q <= 2^53] at the
    exponent [f]. *)
Lemma finish_round (s : bool) (q f : Z) :
  0 <= q <= 2 ^ 53 -> -1074 <= f ->
  (971 < f -> 2 ^ 52 <= q) ->
  Zv (let '(mrs, e) := shr_fexp prec emax q f loc_Exact in
      match shr_m mrs with
      | Z0 => S754_zero s
      | Z.pos m => if e <=? emax - prec then S754_finite s m e
                   else S754_infinity s
      | Z.neg _ => S754_nan
      end)
  = sgn s (cap (q * 2 ^ (f + 1074))).
Proof.
  intros [Hq0 Hq] Hf Hbig.
  destruct (Z.eq_dec q 0) as [->|Hq0'].
  - rewrite shr_fexp_noshift by (rewrite fexp_eq; cbn [Zdigits2]; lia).
    cbn. destruct s; reflexivity.
  - destruct (Z.eq_dec q (2 ^ 53)) as [->|Hq53].
    + rewrite (shr_fexp_shift _ _ 1)
        by (rewrite fexp_eq; change (Zdigits2 (2 ^ 53)) with 54; lia).
      change (shr_m (iter_pos shr_1 1 (Build_shr_record (2 ^ 53) false false)))
        with (Z.pos 4503599627370496).
      change (emax - prec) with 971.
      assert (Hv : 2 ^ 53 * 2 ^ (f + 1074)
                   = 4503599627370496 * 2 ^ (f + 1 + 1074)).
      { replace (f + 1 + 1074) with (1 + (f + 1074)) by lia.
        rewrite (pow2_split 1 (f + 1074)) by lia.
        change (2 ^ 1) with 2. change (2 ^ 53) with (2 * 4503599627370496).
        ring. }
      rewrite Hv.
      destruct (Z.leb_spec (f + 1) 971) as [Hle|Hgt]; cbn [Zv]; f_equal.
      * symmetry. apply cap_below; [cbn|]; lia.
      * symmetry. apply cap_above; [cbn|]; lia.
    + assert (Hq' : 0 < q < 2 ^ 53) by lia.
      assert (Hd : Zdigits2 q <= 53) by (apply Zdigits2_le; lia).
      rewrite shr_fexp_noshift by (rewrite fexp_eq; lia).
      cbn [shr_m]. destruct q as [|m|m]; try lia.
      change (emax - prec) with 971.
      destruct (Z.leb_spec f 971) as [Hle|Hgt]; cbn [Zv]; f_equal.
      * symmetry. apply cap_below; lia.
      * symmetry. apply cap_above; [apply Hbig|]; lia.
Qed.

Lemma rne_nonneg (M n : Z) : 0 <= M -> 0 <= n -> 0 <= rne M n.
Proof.
  intros HM Hn. pose proof (rne_bounds M n) as [H _].
  assert (0 <= M / 2 ^ n) by (apply Z.div_pos; [lia | apply pow2_pos; lia]).
  lia.
Qed.

(** An upper bound on the rounded mantissa. *)
Lemma rne_upper (M n d : Z) :
  0 < M -> 0 < n -> 0 <= d -> M < 2 ^ (n + d) -> rne M n <= 2 ^ d.
Proof.
  intros HM Hn Hd Hlt.
  pose proof (rne_bounds M n) as [_ Hhi].
  assert (Hpn : 0 < 2 ^ n) by (apply pow2_pos; lia).
  rewrite pow2_split in Hlt by lia.
  assert (M / 2 ^ n < 2 ^ d).
  { apply Z.div_lt_upper_bound; lia. }
  lia.
Qed.

(** A lower bound on the rounded mantissa. *)
Lemma rne_lower (M n d : Z) :
  0 < n -> 0 <= d -> 2 ^ (n + d) <= M -> 2 ^ d <= rne M n.
Proof.
  intros Hn Hd Hle.
  pose proof (rne_bounds M n) as [Hlo _].
  assert (Hpn : 0 < 2 ^ n) by (apply pow2_pos; lia).
  rewrite pow2_split in Hle by lia.
  assert (2 ^ d <= M / 2 ^ n).
  { apply Z.div_le_lower_bound; lia. }
  lia.
Qed.

(** [binary_round_aux] on an exact positive mantissa that needs no left
    shift: its value is the rounding [rnd], with overflow to infinity. *)
Lemma binary_round_aux_Zv (s : bool) (p : positive) (E : Z) :
  E <= fexp prec emax (Z.pos (digits2_pos p) + E) ->
  Zv (binary_round_aux prec emax s (Z.pos p) E loc_Exact)
  = sgn s (cap (rnd (Z.pos p) (E + 1074))).
Proof.
  intros Hn. rewrite fexp_eq in Hn.
  pose proof (digits2_pos_bounds p) as [Hlo Hhi].
  set (d := Z.pos (digits2_pos p)) in *.
  assert (Hd : 0 < d) by (subst d; lia).
  set (f := Z.max (d + E - 53) (-1074)) in *.
  unfold binary_round_aux.
  assert (Hg : Z.max (Zdigits2 (Z.pos p) + (E + 1074) - 53) 0 = f + 1074)
    by (cbn [Zdigits2]; fold d; subst f; lia).
  unfold rnd. rewrite Hg.
  destruct (Z.eq_dec f E) as [Heq|Hne].
  - (* no shift *)
    rewrite shr_fexp_noshift
      by (rewrite fexp_eq; cbn [Zdigits2]; fold d; fold f; lia).
    cbn [shr_m loc_of_shr_record round_nearest_even].
    replace (f + 1074 <=? E + 1074) with true
      by (symmetry; apply Z.leb_le; lia).
    rewrite <- Heq.
    apply finish_round.
    + assert (d <= 53) by (subst f; lia).
      assert (2 ^ d <= 2 ^ 53) by (apply Z.pow_le_mono_r; lia). lia.
    + subst f; lia.
    + intros Hbig. assert (d = 53) by (subst f; lia).
      replace (d - 1) with 52 in Hlo by lia. exact Hlo.
  - (* a shift by n = f - E > 0 *)
    assert (Hpos : 0 < f - E) by lia.
    destruct (f - E) as [|n|n] eqn:Hfe; try lia.
    rewrite (shr_fexp_shift _ _ n)
      by (rewrite fexp_eq; cbn [Zdigits2]; fold d; fold f; exact Hfe).
    rewrite shr_round by lia.
    replace (E + Z.pos n) with f by lia.
    replace (f + 1074 <=? E + 1074) with false
      by (symmetry; apply Z.leb_gt; lia).
    replace (f + 1074 - (E + 1074)) with (Z.pos n) by lia.
    apply finish_round.
    + split; [apply rne_nonneg; lia|].
      destruct (Z.le_gt_cases (Z.pos n) d) as [Hnd|Hnd].
      * assert (rne (Z.pos p) (Z.pos n) <= 2 ^ (d - Z.pos n)).
        { apply rne_upper; try lia. now replace (Z.pos n + (d - Z.pos n)) with d by lia. }
        assert (2 ^ (d - Z.pos n) <= 2 ^ 53)
          by (apply Z.pow_le_mono_r; subst f; lia).
        lia.
      * assert (rne (Z.pos p) (Z.pos n) <= 2 ^ 0).
        { apply rne_upper; try lia. rewrite Z.add_0_r.
          assert (2 ^ d <= 2 ^ Z.pos n) by (apply Z.pow_le_mono_r; lia). lia. }
        change (2 ^ 0) with 1 in *.
        assert (1 <= 2 ^ 53) by (cbn; lia). lia.
    + subst f; lia.
    + intros Hbig. apply rne_lower; try lia.
      replace (Z.pos n + 52) with (d - 1) by (subst f; lia). exact Hlo.
Qed.

(** ** Scaling and monotonicity of the rounding *)

Lemma Zdigits2_mul_pow2 (M j : Z) :
  0 < M -> 0 <= j -> Zdigits2 (M * 2 ^ j) = Zdigits2 M + j.
Proof.
  intros HM Hj. pose proof (Zdigits2_bounds M HM) as [Hlo Hhi].
  pose proof (Zdigits2_pos M HM) as Hd.
  assert (Hpj : 0 < 2 ^ j) by (apply pow2_pos; lia).
  destruct (M * 2 ^ j) as [|p|p] eqn:Hp; try lia.
  cbn [Zdigits2]. apply digits2_pos_unique. rewrite <- Hp.
  replace (Zdigits2 M + j - 1) with ((Zdigits2 M - 1) + j) by lia.
  rewrite !pow2_split by lia. nia.
Qed.

Lemma Zdigits2_mono (M1 M2 : Z) :
  0 < M1 -> M1 <= M2 -> Zdigits2 M1 <= Zdigits2 M2.
Proof.
  intros H1 H12.
  pose proof (Zdigits2_bounds M1 H1) as [Hlo _].
  pose proof (Zdigits2_bounds M2 ltac:(lia)) as [_ Hhi].
  pose proof (Zdigits2_pos M1 H1) as Hd1.
  pose proof (Zdigits2_pos M2 ltac:(lia)) as Hd2.
  destruct (Z.le_gt_cases (Zdigits2 M1) (Zdigits2 M2)) as [H|H]; [exact H|].
  assert (2 ^ Zdigits2 M2 <= 2 ^ (Zdigits2 M1 - 1))
    by (apply Z.pow_le_mono_r; lia).
  lia.
Qed.

Lemma rnd_scale (M K j : Z) :
  0 < M -> 0 <= j -> rnd (M * 2 ^ j) (K - j) = rnd M K.
Proof.
  intros HM Hj. unfold rnd.
  rewrite Zdigits2_mul_pow2 by lia.
  replace (Zdigits2 M + j + (K - j) - 53) with (Zdigits2 M + K - 53) by lia.
  set (g := Z.max (Zdigits2 M + K - 53) 0).
  assert (Hg : 0 <= g) by (subst g; lia).
  destruct (Z.leb_spec g (K - j)) as [H1|H1].
  - replace (g <=? K) with true by (symmetry; apply Z.leb_le; lia).
    rewrite <- Z.mul_assoc, <- pow2_split by lia. do 2 f_equal. lia.
  - destruct (Z.leb_spec g K) as [H2|H2].
    + rewrite rne_exact by lia.
      rewrite <- Z.mul_assoc, <- pow2_split by lia. do 2 f_equal. lia.
    + replace (g - (K - j)) with ((g - K) + j) by lia.
      now rewrite rne_scale by lia.
Qed.

Lemma rnd_upper (M K : Z) :
  0 < M -> rnd M K <= 2 ^ (53 + Z.max (Zdigits2 M + K - 53) 0).
Proof.
  intros HM. unfold rnd.
  pose proof (Zdigits2_bounds M HM) as [Hlo Hhi].
  pose proof (Zdigits2_pos M HM) as Hd.
  set (d := Zdigits2 M) in *.
  set (g := Z.max (d + K - 53) 0).
  assert (Hg : 0 <= g) by (subst g; lia).
  destruct (Z.leb_spec g K) as [H1|H1].
  - assert (M * 2 ^ K <= 2 ^ d * 2 ^ K).
    { apply Z.mul_le_mono_nonneg_r; [apply Z.lt_le_incl, pow2_pos|]; lia. }
    rewrite <- pow2_split in H by lia.
    assert (2 ^ (d + K) <= 2 ^ (53 + g))
      by (apply Z.pow_le_mono_r; subst g; lia).
    lia.
  - assert (Hq : rne M (g - K) <= 2 ^ 53).
    { destruct (Z.le_gt_cases (g - K) d) as [Hnd|Hnd].
      - assert (rne M (g - K) <= 2 ^ (d - (g - K))).
        { apply rne_upper; try lia.
          now replace (g - K + (d - (g - K))) with d by lia. }
        assert (2 ^ (d - (g - K)) <= 2 ^ 53)
          by (apply Z.pow_le_mono_r; subst g; lia).
        lia.
      - assert (rne M (g - K) <= 2 ^ 0).
        { apply rne_upper; try lia. rewrite Z.add_0_r.
          assert (2 ^ d <= 2 ^ (g - K)) by (apply Z.pow_le_mono_r; lia). lia. }
        change (2 ^ 0) with 1 in *.
        assert (1 <= 2 ^ 53) by (cbn; lia). lia. }
    rewrite pow2_split by lia.
    apply Z.mul_le_mono_nonneg_r; [apply Z.lt_le_incl, pow2_pos; lia | exact Hq].
Qed.

Lemma rnd_lower (M K : Z) :
  0 < M -> 0 < Zdigits2 M + K - 53 ->
  2 ^ (52 + (Zdigits2 M + K - 53)) <= rnd M K.
Proof.
  intros HM Hg. unfold rnd.
  pose proof (Zdigits2_bounds M HM) as [Hlo Hhi].
  pose proof (Zdigits2_pos M HM) as Hd.
  set (d := Zdigits2 M) in *.
  replace (Z.max (d + K - 53) 0) with (d + K - 53) by lia.
  set (g := d + K - 53) in *.
  destruct (Z.leb_spec g K) as [H1|H1].
  - assert (2 ^ (d - 1) * 2 ^ K <= M * 2 ^ K).
    { apply Z.mul_le_mono_nonneg_r; [apply Z.lt_le_incl, pow2_pos|]; lia. }
    rewrite <- pow2_split in H by lia.
    replace (52 + g) with (d - 1 + K) by (subst g; lia). lia.
  - assert (Hq : 2 ^ 52 <= rne M (g - K)).
    { apply rne_lower; try lia.
      now replace (g - K + 52) with (d - 1) by (subst g; lia). }
    rewrite pow2_split by lia.
    apply Z.mul_le_mono_nonneg_r; [apply Z.lt_le_incl, pow2_pos; lia | exact Hq].
Qed.

Lemma rnd_mono (M1 M2 K : Z) :
  0 < M1 -> M1 <= M2 -> rnd M1 K <= rnd M2 K.
Proof.
  intros H1 H12.
  pose proof (Zdigits2_mono M1 M2 H1 H12) as Hd.
  destruct (Z.eq_dec (Z.max (Zdigits2 M1 + K - 53) 0)
                     (Z.max (Zdigits2 M2 + K - 53) 0)) as [Heq|Hne].
  - unfold rnd. rewrite <- Heq.
    set (g := Z.max (Zdigits2 M1 + K - 53) 0).
    assert (Hg : 0 <= g) by (subst g; lia).
    destruct (Z.leb_spec g K) as [Hk|Hk].
    + apply Z.mul_le_mono_nonneg_r; [apply Z.lt_le_incl, pow2_pos|]; lia.
    + apply Z.mul_le_mono_nonneg_r; [apply Z.lt_le_incl, pow2_pos; lia|].
      apply rne_mono; lia.
  - pose proof (rnd_upper M1 K H1) as Hup.
    assert (Hg2 : 0 < Zdigits2 M2 + K - 53) by lia.
    pose proof (rnd_lower M2 K ltac:(lia) Hg2) as Hlo.
    assert (2 ^ (53 + Z.max (Zdigits2 M1 + K - 53) 0)
            <= 2 ^ (52 + (Zdigits2 M2 + K - 53)))
      by (apply Z.pow_le_mono_r; lia).
    lia.
Qed.

Lemma rnd_nonneg (M K : Z) : 0 < M -> 0 <= rnd M K.
Proof.
  intros HM. unfold rnd.
  set (g := Z.max (Zdigits2 M + K - 53) 0).
  assert (Hg : 0 <= g) by (subst g; lia).
  destruct (Z.leb_spec g K).
  - apply Z.mul_nonneg_nonneg; [lia | apply Z.lt_le_incl, pow2_pos; lia].
  - apply Z.mul_nonneg_nonneg;
      [apply rne_nonneg; lia | apply Z.lt_le_incl, pow2_pos; lia].
Qed.

Lemma cap_mono (a b : Z) : a <= b -> cap a <= cap b.
Proof.
  intros Hab. unfold cap. pose proof TOP_lt_INF.
  destruct (Z.ltb_spec a TOP), (Z.ltb_spec b TOP); lia.
Qed.

Lemma cap_bounds (a : Z) : 0 <= a -> 0 <= cap a <= INF.
Proof.
  intros Ha. unfold cap. pose proof TOP_lt_INF. pose proof INF_pos.
  destruct (Z.ltb_spec a TOP); lia.
Qed.

Lemma rnds_mono (D1 D2 K : Z) : D1 <= D2 -> rnds D1 K <= rnds D2 K.
Proof.
  intros HD. unfold rnds.
  assert (Hc : forall p, 0 <= cap (rnd (Z.pos p) K)).
  { intros p. apply cap_bounds, rnd_nonneg. lia. }
  destruct D1 as [|p1|p1], D2 as [|p2|p2]; try lia;
    try (pose proof (Hc p1)); try (pose proof (Hc p2)); try lia.
  - apply cap_mono, rnd_mono; lia.
  - apply Z.opp_le_mono. rewrite !Z.opp_involutive.
    apply cap_mono, rnd_mono; lia.
Qed.

Lemma rnds_scale (D K j : Z) :
  0 <= j -> rnds (D * 2 ^ j) (K - j) = rnds D K.
Proof.
  intros Hj. assert (Hp : 0 < 2 ^ j) by (apply pow2_pos; lia).
  destruct D as [|p|p].
  - reflexivity.
  - destruct (Z.pos p * 2 ^ j) as [|q|q] eqn:Hq; try lia.
    cbn [rnds]. rewrite <- Hq. now rewrite rnd_scale by lia.
  - destruct (Z.neg p * 2 ^ j) as [|q|q] eqn:Hq; try lia.
    cbn [rnds]. replace (Z.pos q) with (Z.pos p * 2 ^ j) by lia.
    now rewrite rnd_scale by lia.
Qed.

Lemma rnds_bounds (D K : Z) : - INF <= rnds D K <= INF.
Proof.
  pose proof INF_pos as HINFpos.
  destruct D as [|p|p]; cbn [rnds]; try lia;
    pose proof (cap_bounds (rnd (Z.pos p) K)
                           (rnd_nonneg (Z.pos p) K ltac:(lia))); lia.
Qed.

(** ** Comparison of valid numbers through the scaled value *)

Lemma valid_finite_bounds (s : bool) (m : positive) (e : Z) :
  valid_binary (S754_finite s m e) = true ->
  -1074 <= e <= 971 /\ Z.pos m < 2 ^ 53 /\ (-1074 < e -> 2 ^ 52 <= Z.pos m).
Proof.
  cbn [SpecFloat.valid_binary]. unfold bounded, canonical_mantissa.
  rewrite andb_true_iff, Z.eqb_eq, Z.leb_le, fexp_eq.
  change (emax - prec) with 971. intros [Hc He].
  pose proof (digits2_pos_bounds m) as [Hlo Hhi].
  set (d := Z.pos (digits2_pos m)) in *.
  assert (Hd : 0 < d) by (subst d; lia).
  assert (Hd53 : d <= 53) by lia.
  assert (2 ^ d <= 2 ^ 53) by (apply Z.pow_le_mono_r; lia).
  repeat split; try lia.
  intros Hemin. assert (d = 53) by lia.
  replace (d - 1) with 52 in Hlo by lia. exact Hlo.
Qed.

Lemma finite_Zv_bounds (s : bool) (m : positive) (e : Z) :
  valid_binary (S754_finite s m e) = true ->
  0 < Z.pos m * 2 ^ (e + 1074) < TOP.
Proof.
  intros Hv. destruct (valid_finite_bounds s m e Hv) as (He & Hm & _).
  assert (0 < 2 ^ (e + 1074)) by (apply pow2_pos; lia).
  split; [nia | apply below_TOP; lia].
Qed.

Lemma finite_lt_by_exponent (s1 s2 : bool) (m1 m2 : positive) (e1 e2 : Z) :
  valid_binary (S754_finite s1 m1 e1) = true ->
  valid_binary (S754_finite s2 m2 e2) = true ->
  e1 < e2 ->
  Z.pos m1 * 2 ^ (e1 + 1074) < Z.pos m2 * 2 ^ (e2 + 1074).
Proof.
  intros Hv1 Hv2 Hlt.
  destruct (valid_finite_bounds _ _ _ Hv1) as (He1 & Hm1 & _).
  destruct (valid_finite_bounds _ _ _ Hv2) as (He2 & _ & Hm2).
  specialize (Hm2 ltac:(lia)).
  replace (e2 + 1074) with ((e1 + 1074) + (e2 - e1)) by lia.
  rewrite (pow2_split (e1 + 1074) (e2 - e1)) by lia.
  assert (HP : 0 < 2 ^ (e1 + 1074)) by (apply pow2_pos; lia).
  assert (HQ : 2 ^ 1 <= 2 ^ (e2 - e1)) by (apply Z.pow_le_mono_r; lia).
  change (2 ^ 1) with 2 in HQ.
  change (2 ^ 53) with (2 * 2 ^ 52) in Hm1.
  assert (0 < 2 ^ 52) by reflexivity.
  set (P := 2 ^ (e1 + 1074)) in *. set (Q := 2 ^ (e2 - e1)) in *.
  assert (Z.pos m1 * P < 2 * 2 ^ 52 * P) by nia.
  assert (2 * 2 ^ 52 * P <= 2 ^ 52 * (P * Q)) by nia.
  assert (2 ^ 52 * (P * Q) <= Z.pos m2 * (P * Q)) by nia.
  lia.
Qed.

Ltac solve_compare :=
  f_equal; symmetry;
  first [ apply Z.compare_lt_iff; lia
        | apply Z.compare_gt_iff; lia
        | apply Z.compare_eq_iff; lia ].

Lemma SFcompare_Zv (a b : spec_float) :
  valid_binary a = true ->
  valid_binary b = true ->
  not_nan a -> not_nan b ->
  SFcompare a b = Some (Zv a ?= Zv b).
Proof.
  intros Ha Hb Hna Hnb. unfold not_nan in *.
  pose proof TOP_lt_INF as HINF.
  destruct a as [sa|sa| |sa ma ea], b as [sb|sb| |sb mb eb];
    try congruence; cbn [SFcompare Zv];
    try (pose proof (finite_Zv_bounds _ _ _ Ha) as Hba);
    try (pose proof (finite_Zv_bounds _ _ _ Hb) as Hbb).
  - reflexivity.
  - destruct sb; cbn [sgn]; solve_compare.
  - destruct sb; cbn [sgn]; solve_compare.
  - destruct sa; cbn [sgn]; solve_compare.
  - destruct sa, sb; cbn [sgn]; solve_compare.
  - destruct sa, sb; cbn [sgn]; solve_compare.
  - destruct sa; cbn [sgn]; solve_compare.
  - destruct sa, sb; cbn [sgn]; solve_compare.
  - destruct sa, sb; cbn [sgn]; try solve_compare.
    + destruct (Z.compare_spec ea eb) as [Heq|Hlt|Hgt].
      * subst eb. change (Pos.compare_cont Eq ma mb) with (Pos.compare ma mb).
        rewrite Z.compare_opp, <- Zmult_compare_compat_r
          by (destruct (valid_finite_bounds _ _ _ Ha);
              apply Z.lt_gt, pow2_pos; lia).
        f_equal. rewrite <- Pos.compare_antisym. reflexivity.
      * pose proof (finite_lt_by_exponent _ _ _ _ _ _ Ha Hb Hlt).
        solve_compare.
      * pose proof (finite_lt_by_exponent _ _ _ _ _ _ Hb Ha ltac:(lia)).
        solve_compare.
    + destruct (Z.compare_spec ea eb) as [Heq|Hlt|Hgt].
      * subst eb. change (Pos.compare_cont Eq ma mb) with (Pos.compare ma mb).
        rewrite <- Zmult_compare_compat_r
          by (destruct (valid_finite_bounds _ _ _ Ha);
              apply Z.lt_gt, pow2_pos; lia).
        reflexivity.
      * pose proof (finite_lt_by_exponent _ _ _ _ _ _ Ha Hb Hlt).
        solve_compare.
      * pose proof (finite_lt_by_exponent _ _ _ _ _ _ Hb Ha ltac:(lia)).
        solve_compare.
Qed.

(** ** [binary_round] and [binary_normalize] *)

Lemma Pos_iter_xO (p d : positive) :
  Z.pos (Pos.iter xO p d) = Z.pos p * 2 ^ Z.pos d.
Proof.
  induction d as [|d IH] using Pos.peano_ind.
  - cbn. lia.
  - rewrite Pos.iter_succ, Pos2Z.inj_xO, IH, Pos2Z.inj_succ.
    rewrite Z.pow_succ_r by lia. lia.
Qed.

Lemma shl_align_value (mx : positive) (ex ez : Z) :
  ez <= ex ->
  Z.pos (fst (shl_align mx ex ez)) = Z.pos mx * 2 ^ (ex - ez)
  /\ snd (shl_align mx ex ez) = ez.
Proof.
  intros Hle. unfold shl_align.
  destruct (ez - ex) as [|d|d] eqn:Hd; cbn [fst snd]; try lia.
  - replace (ex - ez) with 0 by lia. cbn. lia.
  - rewrite Pos_iter_xO. replace (ex - ez) with (Z.pos d) by lia. lia.
Qed.

Lemma binary_round_Zv (s : bool) (p : positive) (E : Z) :
  Zv (binary_round prec emax s p E) = sgn s (cap (rnd (Z.pos p) (E + 1074))).
Proof.
  unfold binary_round.
  set (f := fexp prec emax (Z.pos (digits2_pos p) + E)).
  destruct (Z.le_gt_cases E f) as [Hle|Hgt].
  - assert (Hs : shl_align p E f = (p, E)).
    { unfold shl_align. destruct (f - E) eqn:Hd; try reflexivity. lia. }
    rewrite Hs. apply binary_round_aux_Zv. exact Hle.
  - destruct (shl_align_value p E f ltac:(lia)) as [Hm He].
    destruct (shl_align p E f) as [mz ez]. cbn [fst snd] in Hm, He. subst ez.
    assert (Hdig : Z.pos (digits2_pos mz) = Z.pos (digits2_pos p) + (E - f)).
    { change (Zdigits2 (Z.pos mz) = Zdigits2 (Z.pos p) + (E - f)).
      rewrite Hm. apply Zdigits2_mul_pow2; lia. }
    rewrite binary_round_aux_Zv.
    + rewrite Hm. f_equal. f_equal.
      replace (f + 1074) with ((E + 1074) - (E - f)) by lia.
      apply rnd_scale; lia.
    + rewrite Hdig.
      replace (Z.pos (digits2_pos p) + (E - f) + f)
        with (Z.pos (digits2_pos p) + E) by lia.
      fold f. lia.
Qed.

Lemma binary_normalize_Zv (D E : Z) :
  Zv (binary_normalize prec emax D E false) = rnds D (E + 1074).
Proof.
  destruct D as [|p|p]; cbn [binary_normalize rnds].
  - reflexivity.
  - now rewrite binary_round_Zv.
  - now rewrite binary_round_Zv.
Qed.

(** The result of a rounding is never NaN. *)
Lemma binary_round_aux_not_nan (s : bool) (p : positive) (E : Z) :
  not_nan (binary_round_aux prec emax s (Z.pos p) E loc_Exact).
Proof.
  unfold not_nan, binary_round_aux.
  destruct (shr_fexp prec emax (Z.pos p) E loc_Exact) as [mrs e'] eqn:H1.
  assert (Hq : 0 <= round_nearest_even (shr_m mrs) (loc_of_shr_record mrs)).
  { unfold shr_fexp, shr in H1. cbn [shr_record_of_loc] in H1.
    destruct (fexp prec emax (Zdigits2 (Z.pos p) + E) - E) as [|n|n];
      inversion H1; subst; cbn; try lia.
    rewrite shr_round by lia. apply rne_nonneg; lia. }
  set (q := round_nearest_even (shr_m mrs) (loc_of_shr_record mrs)) in *.
  destruct (shr_fexp prec emax q e' loc_Exact) as [mrs2 e2] eqn:H2.
  assert (Hm2 : 0 <= shr_m mrs2).
  { unfold shr_fexp, shr in H2. cbn [shr_record_of_loc] in H2.
    destruct (fexp prec emax (Zdigits2 q + e') - e') as [|n|n];
      inversion H2; subst; cbn [shr_m]; try lia.
    rewrite iter_pos_nat.
    destruct (Pos2Nat.is_succ n) as [k Hk]. rewrite Hk.
    destruct (shr_inv_iter q k Hq) as [low (_ & _ & Hm & _)]. exact Hm. }
  destruct (shr_m mrs2); try lia; try discriminate.
  destruct (e2 <=? emax - prec); discriminate.
Qed.

Lemma binary_normalize_not_nan (D E : Z) :
  not_nan (binary_normalize prec emax D E false).
Proof.
  destruct D as [|p|p]; cbn [binary_normalize]; try discriminate;
    unfold binary_round;
    destruct (shl_align p E _) as [mz ez];
    apply binary_round_aux_not_nan.
Qed.

(** ** Multiplication by a positive constant and subtraction from 1 *)

Lemma mulZ_mono (mc ec v1 v2 : Z) :
  0 < mc -> - INF <= v1 -> v2 <= INF -> v1 <= v2 ->
  mulZ mc ec v1 <= mulZ mc ec v2.
Proof.
  intros Hmc H1 H2 H12. unfold mulZ.
  pose proof INF_pos as HINFpos.
  pose proof (rnds_bounds (v1 * mc) ec). pose proof (rnds_bounds (v2 * mc) ec).
  destruct (Z.eqb_spec (Z.abs v1) INF), (Z.eqb_spec (Z.abs v2) INF); try lia.
  apply rnds_mono. nia.
Qed.

Lemma subZ_antitone (v1 v2 : Z) :
  - INF <= v1 -> v2 <= INF -> v1 <= v2 -> subZ v2 <= subZ v1.
Proof.
  intros H1 H2 H12. unfold subZ.
  pose proof INF_pos as HINFpos.
  pose proof (rnds_bounds (UNIT - v1) 0).
  pose proof (rnds_bounds (UNIT - v2) 0).
  destruct (Z.eqb_spec (Z.abs v1) INF), (Z.eqb_spec (Z.abs v2) INF); try lia.
  apply rnds_mono. lia.
Qed.

Lemma Zv_bounds (x : spec_float) :
  valid_binary x = true -> - INF <= Zv x <= INF.
Proof.
  intros Hv. pose proof TOP_lt_INF as HTOP.
  pose proof INF_pos as HINFpos.
  destruct x as [s|s| |s m e]; cbn [Zv]; try lia.
  - destruct s; cbn [sgn]; lia.
  - pose proof (finite_Zv_bounds _ _ _ Hv). destruct s; cbn [sgn]; lia.
Qed.

Lemma SFmul_const_Zv (x : spec_float) (mc : positive) (ec : Z) :
  valid_binary x = true -> not_nan x ->
  2 ^ 52 <= Z.pos mc ->
  Zv (SF64mul x (S754_finite false mc ec)) = mulZ (Z.pos mc) ec (Zv x)
  /\ not_nan (SF64mul x (S754_finite false mc ec)).
Proof.
  intros Hv Hnn Hmc. unfold SF64mul, mulZ.
  pose proof TOP_lt_INF as HINF.
  destruct x as [s|s| |s m e]; [| |now elim Hnn|]; cbn [SFmul Zv].
  - split; [reflexivity | discriminate].
  - rewrite xorb_false_r. split; [|discriminate].
    destruct s; cbn [sgn]; reflexivity.
  - pose proof (finite_Zv_bounds _ _ _ Hv) as Hb.
    destruct (valid_finite_bounds _ _ _ Hv) as (He & Hm & _).
    rewrite xorb_false_r. split; [|apply binary_round_aux_not_nan].
    replace (Z.abs (sgn s (Z.pos m * 2 ^ (e + 1074))) =? INF) with false
      by (symmetry; apply Z.eqb_neq; destruct s; cbn [sgn]; lia).
    rewrite binary_round_aux_Zv.
    + assert (Hsc : rnd (Z.pos (m * mc)) (e + ec + 1074)
                    = rnd (Z.pos m * 2 ^ (e + 1074) * Z.pos mc) ec).
      { replace (Z.pos m * 2 ^ (e + 1074) * Z.pos mc)
          with (Z.pos (m * mc) * 2 ^ (e + 1074)) by lia.
        replace ec with ((e + ec + 1074) - (e + 1074)) at 2 by lia.
        symmetry. apply rnd_scale; lia. }
      rewrite Hsc.
      destruct (Z.pos m * 2 ^ (e + 1074) * Z.pos mc) as [|q|q] eqn:Hq; try lia.
      destruct s; cbn [sgn].
      * replace (- (Z.pos m * 2 ^ (e + 1074)) * Z.pos mc) with (Z.neg q) by lia.
        reflexivity.
      * rewrite Hq. reflexivity.
    + rewrite fexp_eq.
      pose proof (digits2_pos_bounds (m * mc)) as [_ Hhi].
      pose proof (digits2_pos_bounds m) as [Hlo _].
      set (d := Z.pos (digits2_pos (m * mc))) in *.
      set (dm := Z.pos (digits2_pos m)) in *.
      assert (0 < dm) by (subst dm; lia).
      assert (dm + 52 <= d).
      { destruct (Z.le_gt_cases (dm + 52) d) as [Hok|Hbad]; [exact Hok|].
        assert (2 ^ d <= 2 ^ (dm - 1 + 52))
          by (apply Z.pow_le_mono_r; subst d; lia).
        rewrite pow2_split in H0 by lia.
        rewrite Pos2Z.inj_mul in Hhi.
        assert (0 < 2 ^ (dm - 1)) by (apply pow2_pos; lia).
        nia. }
      lia.
Qed.

Lemma rnds_one : rnds UNIT 0 = UNIT.
Proof. vm_compute. reflexivity. Qed.

Lemma SFsub_one_Zv (t : spec_float) :
  valid_binary t = true -> not_nan t ->
  Zv (SF64sub SF_one t) = subZ (Zv t) /\ not_nan (SF64sub SF_one t).
Proof.
  intros Hv Hnn. unfold SF64sub, subZ, SF_one.
  pose proof TOP_lt_INF as HINF.
  pose proof INF_pos as HINF0.
  destruct t as [s|s| |s m e]; [| |now elim Hnn|]; cbn [SFsub Zv].
  - split; [|discriminate]. cbn [Z.abs Z.eqb]. rewrite Z.sub_0_r.
    rewrite rnds_one. reflexivity.
  - split; [|discriminate].
    replace (Z.abs (sgn s INF) =? INF) with true
      by (symmetry; apply Z.eqb_eq; destruct s; cbn [sgn]; lia).
    destruct s; cbn [sgn negb]; lia.
  - pose proof (finite_Zv_bounds _ _ _ Hv) as Hb.
    destruct (valid_finite_bounds _ _ _ Hv) as (He & Hm & _).
    cbv zeta. split; [|apply binary_normalize_not_nan].
    replace (Z.abs (sgn s (Z.pos m * 2 ^ (e + 1074))) =? INF) with false
      by (symmetry; apply Z.eqb_neq; destruct s; cbn [sgn]; lia).
    rewrite binary_normalize_Zv.
    set (ez := Z.min (-52) e).
    destruct (shl_align_value 4503599627370496 (-52) ez ltac:(lia)) as [HA _].
    destruct (shl_align_value m e ez ltac:(lia)) as [HB _].
    rewrite HA, HB. cbn [cond_Zopp].
    set (D := Z.pos 4503599627370496 * 2 ^ (-52 - ez)
              - cond_Zopp s (Z.pos m * 2 ^ (e - ez))).
    transitivity (rnds (D * 2 ^ (ez + 1074)) ((ez + 1074) - (ez + 1074))).
    { symmetry. apply rnds_scale. lia. }
    rewrite Z.sub_diag. f_equal.
    assert (Hgoal : D * 2 ^ (ez + 1074)
                    = UNIT - sgn s (Z.pos m * 2 ^ (e + 1074))); [|exact Hgoal].
    subst D. rewrite Z.mul_sub_distr_r.
    rewrite <- Z.mul_assoc, <- pow2_split by lia.
    replace (-52 - ez + (ez + 1074)) with 1022 by lia.
    f_equal.
    destruct s; cbn [cond_Zopp sgn].
    + rewrite Z.mul_opp_l. f_equal.
      rewrite <- Z.mul_assoc, <- pow2_split by lia.
      do 2 f_equal. lia.
    + rewrite <- Z.mul_assoc, <- pow2_split by lia.
      do 2 f_equal. lia.
Qed.

(** ** Primitive floats through their scaled value *)

Lemma fv_bounds (x : float) : - INF <= fv x <= INF.
Proof. apply Zv_bounds, Prim2SF_valid. Qed.

Lemma ltb_fv (x y : float) :
  fnn x -> fnn y -> PrimFloat.ltb x y = (fv x <? fv y).
Proof.
  intros Hx Hy. rewrite ltb_spec. unfold SFltb.
  rewrite SFcompare_Zv by (try apply Prim2SF_valid; assumption).
  unfold fv, Z.ltb. reflexivity.
Qed.

Lemma leb_fv (x y : float) :
  fnn x -> fnn y -> PrimFloat.leb x y = (fv x <=? fv y).
Proof.
  intros Hx Hy. rewrite leb_spec. unfold SFleb.
  rewrite SFcompare_Zv by (try apply Prim2SF_valid; assumption).
  unfold fv, Z.leb. destruct (_ ?= _); reflexivity.
Qed.

Lemma ltb_true_fnn (x y : float) :
  PrimFloat.ltb x y = true -> fnn x /\ fnn y.
Proof.
  rewrite ltb_spec. unfold SFltb, fnn, not_nan.
  destruct (Prim2SF x), (Prim2SF y); cbn; intros H;
    split; congruence.
Qed.

Lemma is_nan_fnn (x : float) : fnn x -> PrimFloat.is_nan x = false.
Proof.
  intros Hx. unfold PrimFloat.is_nan. rewrite eqb_spec. unfold SFeqb.
  rewrite SFcompare_Zv by (try apply Prim2SF_valid; assumption).
  now rewrite Z.compare_refl.
Qed.

Lemma mul_const_fv (x c : float) (mc : positive) (ec : Z) :
  Prim2SF c = S754_finite false mc ec -> 2 ^ 52 <= Z.pos mc ->
  fnn x ->
  fv (PrimFloat.mul x c) = mulZ (Z.pos mc) ec (fv x) /\ fnn (PrimFloat.mul x c).
Proof.
  intros Hc Hmc Hx. unfold fv, fnn. rewrite mul_spec, Hc.
  apply SFmul_const_Zv; [apply Prim2SF_valid | exact Hx | exact Hmc].
Qed.

Lemma sub_one_fv (t : float) :
  fnn t ->
  fv (PrimFloat.sub 1%float t) = subZ (fv t) /\ fnn (PrimFloat.sub 1%float t).
Proof.
  intros Ht. unfold fv, fnn. rewrite sub_spec.
  change (Prim2SF 1%float) with SF_one.
  apply SFsub_one_Zv; [apply Prim2SF_valid | exact Ht].
Qed.

Lemma Math_min_fv (a b : float) :
  fnn a -> fnn b ->
  fv (JS.Math_min a b) = Z.min (fv a) (fv b) /\ fnn (JS.Math_min a b).
Proof.
  intros Ha Hb. unfold JS.Math_min.
  rewrite (is_nan_fnn a Ha), (is_nan_fnn b Hb). cbn [orb].
  rewrite (ltb_fv a b Ha Hb), (ltb_fv b a Hb Ha).
  destruct (Z.ltb_spec (fv a) (fv b)); [split; [lia | exact Ha]|].
  destruct (Z.ltb_spec (fv b) (fv a)); [split; [lia | exact Hb]|].
  destruct (PrimFloat.get_sign a); split; try assumption; lia.
Qed.

Lemma Math_max_fv (a b : float) :
  fnn a -> fnn b ->
  fv (JS.Math_max a b) = Z.max (fv a) (fv b) /\ fnn (JS.Math_max a b).
Proof.
  intros Ha Hb. unfold JS.Math_max.
  rewrite (is_nan_fnn a Ha), (is_nan_fnn b Hb). cbn [orb].
  rewrite (ltb_fv a b Ha Hb), (ltb_fv b a Hb Ha).
  destruct (Z.ltb_spec (fv a) (fv b)); [split; [lia | exact Hb]|].
  destruct (Z.ltb_spec (fv b) (fv a)); [split; [lia | exact Ha]|].
  destruct (PrimFloat.get_sign a); split; try assumption; lia.
Qed.

(** ** The confidence as a function of the deviation ratio *)

Lemma fnn_half : fnn 0.5%float.
Proof. unfold fnn, not_nan. vm_compute. discriminate. Qed.

Lemma fnn_cap : fnn 0.95%float.
Proof. unfold fnn, not_nan. vm_compute. discriminate. Qed.

Lemma confidence_of_ratio_fv (ratio : float) :
  fnn ratio ->
  fv (confidence_of_ratio ratio)
  = Z.max (fv 0.5%float)
          (Z.min (fv 0.95%float)
                 (subZ (mulZ 4503599627370496 (-53) (fv ratio))))
  /\ fnn (confidence_of_ratio ratio).
Proof.
  intros Hr. unfold confidence_of_ratio.
  destruct (mul_const_fv ratio 0.5%float 4503599627370496 (-53))
    as [Hm Hmn]; [reflexivity | cbn; lia | exact Hr |].
  destruct (sub_one_fv _ Hmn) as [Hs Hsn].
  destruct (Math_min_fv 0.95%float _ fnn_cap Hsn) as [Hmin Hminn].
  destruct (Math_max_fv 0.5%float _ fnn_half Hminn) as [Hmax Hmaxn].
  split; [|exact Hmaxn].
  now rewrite Hmax, Hmin, Hs, Hm.
Qed.

Lemma confidence_of_ratio_antitone (r1 r2 : float) :
  fnn r1 -> fnn r2 -> fv r1 <= fv r2 ->
  fv (confidence_of_ratio r2) <= fv (confidence_of_ratio r1).
Proof.
  intros H1 H2 H12.
  destruct (confidence_of_ratio_fv r1 H1) as [E1 _].
  destruct (confidence_of_ratio_fv r2 H2) as [E2 _].
  rewrite E1, E2.
  pose proof (fv_bounds r1). pose proof (fv_bounds r2).
  assert (Hm : mulZ 4503599627370496 (-53) (fv r1)
               <= mulZ 4503599627370496 (-53) (fv r2))
    by (apply mulZ_mono; lia).
  assert (Hb1 : - INF <= mulZ 4503599627370496 (-53) (fv r1)).
  { unfold mulZ. destruct (_ =? _); [lia | apply rnds_bounds]. }
  assert (Hb2 : mulZ 4503599627370496 (-53) (fv r2) <= INF).
  { unfold mulZ. destruct (_ =? _); [lia | apply rnds_bounds]. }
  pose proof (subZ_antitone _ _ Hb1 Hb2 Hm). lia.
Qed.

Lemma confidence_of_ratio_range (ratio : float) :
  fnn ratio ->
  fv 0.5%float <= fv (confidence_of_ratio ratio) <= fv 0.95%float.
Proof.
  intros Hr. destruct (confidence_of_ratio_fv ratio Hr) as [E _]. rewrite E.
  assert (fv 0.5%float <= fv 0.95%float) by (vm_compute; discriminate).
  lia.
Qed.

(** ** Rounding to two decimals *)

Lemma positive_finite (x : float) :
  fnn x -> 0 < fv x < INF ->
  exists m e, Prim2SF x = S754_finite false m e.
Proof.
  unfold fnn, not_nan, fv. intros Hn [Hlo Hhi].
  pose proof (Prim2SF_valid x) as Hv.
  pose proof INF_pos as HINFpos.
  destruct (Prim2SF x) as [s|s| |s m e]; cbn [Zv] in *; try lia; try congruence.
  - destruct s; cbn [sgn] in *; lia.
  - pose proof (finite_Zv_bounds _ _ _ Hv).
    destruct s; cbn [sgn] in *; [lia|]. now exists m, e.
Qed.

(** On numbers between 50 and 95, [Math.round] is [hundredths]. *)
Lemma Math_round_hundreds (c : float) :
  fnn c -> fv 0.5%float <= fv c <= fv 0.95%float ->
  50 <= hundredths c <= 95
  /\ JS.Math_round (PrimFloat.mul c 100%float) = JS.of_Z (hundredths c).
Proof.
  intros Hc [Hlo Hhi]. unfold hundredths.
  destruct (mul_const_fv c 100%float 7036874417766400 (-46))
    as [Hm Hmn]; [reflexivity | cbn; lia | exact Hc |].
  set (X := PrimFloat.mul c 100%float) in *.
  pose proof (fv_bounds c) as Hbc.
  pose proof (fv_bounds 0.5%float) as Hbl.
  pose proof (fv_bounds 0.95%float) as Hbh.
  assert (HXlo : 50 * UNIT <= fv X).
  { rewrite Hm.
    destruct (mul_const_fv 0.5%float 100%float 7036874417766400 (-46))
      as [Hm0 _]; [reflexivity | cbn; lia | exact fnn_half |].
    transitivity (mulZ 7036874417766400 (-46) (fv 0.5%float)).
    - rewrite <- Hm0. vm_compute. discriminate.
    - apply mulZ_mono; lia. }
  assert (HXhi : fv X <= 95 * UNIT).
  { rewrite Hm.
    destruct (mul_const_fv 0.95%float 100%float 7036874417766400 (-46))
      as [Hm0 _]; [reflexivity | cbn; lia | exact fnn_cap |].
    transitivity (mulZ 7036874417766400 (-46) (fv 0.95%float)).
    - apply mulZ_mono; lia.
    - rewrite <- Hm0. vm_compute. discriminate. }
  pose proof UNIT_pos as HP.
  assert (Hr : 50 <= (2 * fv X + UNIT) / (2 * UNIT) <= 95).
  { split.
    - apply Z.div_le_lower_bound; lia.
    - apply Z.lt_succ_r. apply Z.div_lt_upper_bound; lia. }
  split; [exact Hr|].
  assert (HINF : 95 * UNIT < INF) by reflexivity.
  destruct (positive_finite X Hmn ltac:(lia)) as (m & e & HX).
  pose proof (Prim2SF_valid X) as Hv. rewrite HX in Hv.
  destruct (valid_finite_bounds _ _ _ Hv) as (He & Hmb & Hnorm).
  assert (HfX : fv X = Z.pos m * 2 ^ (e + 1074))
    by (unfold fv; rewrite HX; reflexivity).
  assert (Hneg : e < 0).
  { destruct (Z.lt_ge_cases e 0) as [Hok|Hbad]; [exact Hok|].
    specialize (Hnorm ltac:(lia)).
    assert (Hu : UNIT <= 2 ^ (e + 1074))
      by (apply (Z.pow_le_mono_r 2 1074 (e + 1074)); lia).
    nia. }
  assert (Hrh : JS.round_half_up false m e
                = (2 * fv X + UNIT) / (2 * UNIT)).
  { unfold JS.round_half_up.
    replace (0 <=? e) with false by (symmetry; apply Z.leb_gt; lia).
    rewrite Z.shiftr_div_pow2 by lia. rewrite HfX.
    assert (Hnum : 2 * (Z.pos m * 2 ^ (e + 1074)) + UNIT
                   = (Z.pos m + 2 ^ (- e - 1)) * 2 ^ (e + 1075)).
    { rewrite Z.mul_add_distr_r.
      rewrite <- (pow2_split (- e - 1) (e + 1075)) by lia.
      replace (- e - 1 + (e + 1075)) with 1074 by lia.
      change (2 ^ 1074) with UNIT.
      replace (e + 1075) with (1 + (e + 1074)) by lia.
      rewrite (pow2_split 1 (e + 1074)) by lia.
      change (2 ^ 1) with 2. ring. }
    assert (Hden : 2 * UNIT = 2 ^ (- e) * 2 ^ (e + 1075)).
    { rewrite <- pow2_split by lia.
      replace (- e + (e + 1075)) with 1075 by lia. reflexivity. }
    rewrite Hnum, Hden.
    rewrite Z.div_mul_cancel_r;
      [reflexivity | | ];
      apply Z.neq_sym, Z.lt_neq, pow2_pos; lia. }
  unfold JS.Math_round. fold X. rewrite HX.
  replace (0 <=? e) with false by (symmetry; apply Z.leb_gt; lia).
  cbv zeta. rewrite andb_false_r, Hrh. reflexivity.
Qed.

Lemma percent_table_ok : percent_table_sorted = true.
Proof. vm_compute. reflexivity. Qed.

Lemma in_percent_range (k : Z) : 50 <= k <= 95 -> In k percent_range.
Proof.
  intros Hk. unfold percent_range. apply in_map_iff.
  exists (Z.to_nat k). split; [lia|]. apply in_seq. lia.
Qed.

Lemma percent_mono (k1 k2 : Z) :
  50 <= k1 <= 95 -> 50 <= k2 <= 95 -> k1 <= k2 ->
  PrimFloat.leb (percent k1) (percent k2) = true.
Proof.
  intros H1 H2 H12.
  pose proof percent_table_ok as Ht. unfold percent_table_sorted in Ht.
  rewrite forallb_forall in Ht.
  specialize (Ht k1 (in_percent_range k1 H1)).
  rewrite forallb_forall in Ht.
  specialize (Ht k2 (in_percent_range k2 H2)).
  replace (k1 <=? k2) with true in Ht by (symmetry; apply Z.leb_le; lia).
  exact Ht.
Qed.

Lemma hundredths_mono (c1 c2 : float) :
  fnn c1 -> fnn c2 -> fv c1 <= fv c2 -> hundredths c1 <= hundredths c2.
Proof.
  intros H1 H2 H12. unfold hundredths.
  destruct (mul_const_fv c1 100%float 7036874417766400 (-46))
    as [E1 _]; [reflexivity | cbn; lia | exact H1 |].
  destruct (mul_const_fv c2 100%float 7036874417766400 (-46))
    as [E2 _]; [reflexivity | cbn; lia | exact H2 |].
  rewrite E1, E2.
  pose proof (fv_bounds c1). pose proof (fv_bounds c2).
  assert (mulZ 7036874417766400 (-46) (fv c1)
          <= mulZ 7036874417766400 (-46) (fv c2)) by (apply mulZ_mono; lia).
  apply Z.div_le_mono; [pose proof UNIT_pos; lia | lia].
Qed.

(** The returned confidence never increases with the deviation ratio. *)
Lemma rounded_confidence_antitone (r1 r2 : float) :
  PrimFloat.ltb r2 r1 = true ->
  PrimFloat.leb (Shared.round2 (confidence_of_ratio r1))
                (Shared.round2 (confidence_of_ratio r2)) = true.
Proof.
  intros Hlt. destruct (ltb_true_fnn _ _ Hlt) as [Hn2 Hn1].
  rewrite (ltb_fv _ _ Hn2 Hn1) in Hlt. apply Z.ltb_lt in Hlt.
  destruct (confidence_of_ratio_fv r1 Hn1) as [_ Hc1].
  destruct (confidence_of_ratio_fv r2 Hn2) as [_ Hc2].
  pose proof (confidence_of_ratio_range r1 Hn1) as Hr1.
  pose proof (confidence_of_ratio_range r2 Hn2) as Hr2.
  destruct (Math_round_hundreds _ Hc1 Hr1) as [Hk1 E1].
  destruct (Math_round_hundreds _ Hc2 Hr2) as [Hk2 E2].
  unfold Shared.round2. rewrite E1, E2.
  apply percent_mono; try assumption.
  apply hundredths_mono; try assumption.
  apply confidence_of_ratio_antitone; try assumption. lia.
Qed.

(** ** The returned confidence against the ratio *)

Lemma historical_confidence_ratio (samples : list Z) :
  Shared.historical_confidence (Shared.calculateCycleStats samples)
  = confidence_of_ratio (deviation_ratio samples).
Proof. reflexivity. Qed.

Lemma predictCycle_historical_confidence (tz : TimeZone)
      (now : Date) (cycleEntries : list CycleEntry)
      (profile : UserProfile) (maxEntriesToAnalyze : Z) :
  (3 <= length (samples_of cycleEntries maxEntriesToAnalyze))%nat ->
  confidence (Shared.predictCycle tz now cycleEntries profile maxEntriesToAnalyze)
  = Shared.round2
      (confidence_of_ratio
         (deviation_ratio (samples_of cycleEntries maxEntriesToAnalyze))).
Proof.
  unfold samples_of, starts_of, Shared.predictCycle.
  set (starts := Shared.identifyCycleStarts _).
  set (samples := Shared.calculateCycleLengths starts).
  intros H3.
  pose proof (calculateCycleLengths_length starts) as Hlen. fold samples in Hlen.
  replace (2 <=? length starts)%nat with true
    by (symmetry; apply Nat.leb_le; lia).
  replace (3 <=? length samples)%nat with true
    by (symmetry; apply Nat.leb_le; lia).
  cbv beta iota zeta. cbn [confidence].
  now rewrite historical_confidence_ratio.
Qed.

(** C6, amended. For any two inputs with the same sample count of at least
    three, if the first input's ratio [stdDev / mean] is strictly greater
    than the second's, the first input's returned confidence is less than or
    equal to the second's: the confidence never increases with the ratio (it
    stays constant where the clamp or the two-decimal rounding applies). *)
Theorem confidence_nonincreasing_in_ratio
        (tz1 tz2 : TimeZone) (now1 now2 : Date) (entries1 entries2 : list CycleEntry)
        (profile1 profile2 : UserProfile) (max1 max2 : Z) :
  length (samples_of entries1 max1) = length (samples_of entries2 max2) ->
  (3 <= length (samples_of entries1 max1))%nat ->
  PrimFloat.ltb (deviation_ratio (samples_of entries2 max2))
                (deviation_ratio (samples_of entries1 max1)) = true ->
  PrimFloat.leb
    (confidence (Shared.predictCycle tz1 now1 entries1 profile1 max1))
    (confidence (Shared.predictCycle tz2 now2 entries2 profile2 max2))
  = true.
Proof.
  intros Hsame H3 Hratio.
  rewrite !predictCycle_historical_confidence by lia.
  now apply rounded_confidence_antitone.
Qed.

Lemma confidence_nonincreasing_in_ratio_witness :
  PrimFloat.leb
    (confidence (Shared.predictCycle utc_zone 0 four_irregular_starts sample_profile 90))
    (confidence (Shared.predictCycle utc_zone 0 four_regular_starts sample_profile 90))
  = true.
Proof.
  apply confidence_nonincreasing_in_ratio.
  - vm_compute. reflexivity.
  - vm_compute. lia.
  - vm_compute. reflexivity.
Defined.

(** ** Bounds of the confidence *)

Lemma percent_50 : percent 50 = 0.5%float.
Proof. vm_compute. reflexivity. Qed.

Lemma percent_95 : percent 95 = 0.95%float.
Proof. vm_compute. reflexivity. Qed.

(** The confidence that [predictCycle] returns, by number of samples. *)
Lemma predictCycle_confidence_cases (tz : TimeZone)
      (now : Date) (cycleEntries : list CycleEntry)
      (profile : UserProfile) (maxEntriesToAnalyze : Z) :
  let samples := samples_of cycleEntries maxEntriesToAnalyze in
  confidence (Shared.predictCycle tz now cycleEntries profile maxEntriesToAnalyze)
  = Shared.round2
      (match length samples with
       | 0%nat => 0.5%float
       | 1%nat | 2%nat =>
           PrimFloat.add 0.6%float
             (PrimFloat.mul (JS.of_Z (Z.of_nat (length samples))) 0.1%float)
       | _ =>
           Shared.historical_confidence (Shared.calculateCycleStats samples)
       end).
Proof.
  cbv zeta. unfold samples_of, starts_of, Shared.predictCycle.
  set (starts := Shared.identifyCycleStarts _).
  set (samples := Shared.calculateCycleLengths starts).
  pose proof (calculateCycleLengths_length starts) as Hlen. fold samples in Hlen.
  destruct (length samples) as [|[|[|n]]] eqn:Hn;
    [ replace (2 <=? length starts)%nat with false
        by (symmetry; apply Nat.leb_gt; lia)
    | replace (2 <=? length starts)%nat with true
        by (symmetry; apply Nat.leb_le; lia) ..];
    cbn [Nat.leb]; cbv beta iota zeta; cbn [confidence]; reflexivity.
Qed.

Lemma round2_percent (c : float) :
  fnn c -> fv 0.5%float <= fv c <= fv 0.95%float ->
  50 <= hundredths c <= 95
  /\ Shared.round2 c = percent (hundredths c).
Proof.
  intros Hc Hr. destruct (Math_round_hundreds c Hc Hr) as [Hk E].
  split; [exact Hk|]. unfold Shared.round2, percent. now rewrite E.
Qed.

(** Away from the degenerate case the bounds hold: with fewer than three
    samples, or with a ratio [stdDev / mean] that is a number, the returned
    confidence lies between 0.5 and 0.95. *)
Lemma predictCycle_confidence_bounds (tz : TimeZone)
      (now : Date) (cycleEntries : list CycleEntry)
      (profile : UserProfile) (maxEntriesToAnalyze : Z) :
  let samples := samples_of cycleEntries maxEntriesToAnalyze in
  let r := Shared.predictCycle tz now cycleEntries profile maxEntriesToAnalyze in
  (length samples < 3)%nat \/ fnn (deviation_ratio samples) ->
  PrimFloat.leb 0.5%float (confidence r) = true
  /\ PrimFloat.leb (confidence r) 0.95%float = true.
Proof.
  cbv zeta. intros Hcase.
  destruct (Nat.lt_ge_cases
              (length (samples_of cycleEntries maxEntriesToAnalyze)) 3)
    as [Hfew|Hmany].
  - clear Hcase.
    rewrite predictCycle_confidence_cases.
    destruct (length (samples_of cycleEntries maxEntriesToAnalyze))
      as [|[|[|n]]]; [| | |lia]; split; vm_compute; reflexivity.
  - destruct Hcase as [Hfew|Hnum]; [lia|].
    rewrite predictCycle_historical_confidence by exact Hmany.
    destruct (confidence_of_ratio_fv _ Hnum) as [_ Hc].
    pose proof (confidence_of_ratio_range _ Hnum) as Hr.
    destruct (round2_percent _ Hc Hr) as [Hk E]. rewrite E.
    set (k := hundredths _) in *.
    pose proof (percent_mono 50 k ltac:(lia) Hk ltac:(lia)) as Hlo.
    pose proof (percent_mono k 95 Hk ltac:(lia) ltac:(lia)) as Hhi.
    rewrite percent_50 in Hlo. rewrite percent_95 in Hhi.
    split; assumption.
Qed.

(** * Further properties of the code *)

(** ** The segmenter *)

Lemma segment_loop (l : list DatedEntry) :
  forall (acc : list Date) (inPeriod : bool),
    fst (fold_left Shared.segment_step l (acc, inPeriod))
    = acc ++ segment inPeriod l.
Proof.
  induction l as [|entry rest IH]; intros acc inPeriod; cbn [fold_left segment].
  - cbn. now rewrite app_nil_r.
  - unfold Shared.segment_step at 2.
    destruct (hasFlow entry), inPeriod; cbn [andb negb]; rewrite IH;
      try reflexivity.
    now rewrite <- app_assoc.
Qed.

Lemma identifyCycleStarts_segment (entries : list CycleEntry) :
  Shared.identifyCycleStarts entries
  = segment false (sort_by_date (map with_date entries)).
Proof. now rewrite identifyCycleStarts_unfold, segment_loop. Qed.

Lemma segment_In (l : list DatedEntry) :
  forall (inPeriod : bool) (d : Date),
    In d (segment inPeriod l) ->
    exists entry, In entry l /\ hasFlow entry = true /\ date entry = d.
Proof.
  induction l as [|entry rest IH]; intros inPeriod d; cbn [segment];
    [intros []|].
  destruct (hasFlow entry) eqn:Hf; [destruct inPeriod|]; intros Hin;
    try (destruct (IH _ _ Hin) as (x & Hx & Hxf & Hxd);
         exists x; split; [now right | now split]).
  destruct Hin as [<-|Hin].
  - exists entry. split; [now left | now split].
  - destruct (IH _ _ Hin) as (x & Hx & Hxf & Hxd).
    exists x. split; [now right | now split].
Qed.

Lemma segment_sorted (R : Z -> Z -> Prop) (l : list DatedEntry) :
  StronglySorted (fun a b => R (date a) (date b)) l ->
  forall inPeriod, StronglySorted R (segment inPeriod l).
Proof.
  induction 1 as [|entry rest Hs IH Hall]; intros inPeriod; cbn [segment];
    [constructor|].
  destruct (hasFlow entry); [destruct inPeriod|]; try apply IH.
  constructor; [apply IH|].
  apply Forall_forall. intros d Hd.
  destruct (segment_In _ _ _ Hd) as (x & Hx & _ & <-).
  rewrite Forall_forall in Hall. now apply Hall.
Qed.

(** X1. The cycle-starts come out in ascending order of date, whatever the
    order of the entries. *)
Theorem identifyCycleStarts_ascending (entries : list CycleEntry) :
  StronglySorted Z.le (Shared.identifyCycleStarts entries).
Proof.
  rewrite identifyCycleStarts_segment.
  apply segment_sorted. apply sort_by_date_sorted.
Qed.

(** X2. Every cycle-start is the date of a log entry that has flow: the
    segmenter invents no date and never starts a cycle on a day logged
    without flow. *)
Theorem identifyCycleStarts_from_flow_entries
        (entries : list CycleEntry) (d : Date) :
  In d (Shared.identifyCycleStarts entries) ->
  exists e, In e entries /\ entryHasFlow e = true
            /\ new_Date (entry_date e) = d.
Proof.
  rewrite identifyCycleStarts_segment. intros Hin.
  destruct (segment_In _ _ _ Hin) as (x & Hx & Hf & Hd).
  apply (Permutation_in _ (Permutation_sym (sort_by_date_perm _))) in Hx.
  apply in_map_iff in Hx. destruct Hx as (e & <- & He).
  exists e. repeat split; assumption.
Qed.

Lemma identifyCycleStarts_from_flow_entries_witness :
  exists e, In e shuffled_entries /\ entryHasFlow e = true
            /\ new_Date (entry_date e) = new_Date 29.
Proof.
  apply identifyCycleStarts_from_flow_entries.
  vm_compute. right. left. reflexivity.
Defined.

Lemma segment_no_flow (l : list DatedEntry) :
  Forall (fun entry => hasFlow entry = false) l ->
  forall inPeriod, segment inPeriod l = [].
Proof.
  induction 1 as [|entry rest Hf _ IH]; intros inPeriod; cbn [segment];
    [reflexivity|].
  rewrite Hf. apply IH.
Qed.

Lemma segment_nil_no_flow (l : list DatedEntry) :
  segment false l = [] -> Forall (fun entry => hasFlow entry = false) l.
Proof.
  induction l as [|entry rest IH]; cbn [segment]; [constructor|].
  destruct (hasFlow entry) eqn:Hf; [discriminate|].
  intros H. constructor; [exact Hf | now apply IH].
Qed.

Lemma identifyCycleStarts_segment_nil (entries : list CycleEntry) :
  Shared.identifyCycleStarts entries = [] ->
  Forall (fun e => entryHasFlow e = false) entries.
Proof.
  rewrite identifyCycleStarts_segment. intros H.
  apply segment_nil_no_flow in H.
  apply (Permutation_Forall (Permutation_sym (sort_by_date_perm _))) in H.
  rewrite Forall_map in H. exact H.
Qed.

Lemma identifyCycleStarts_segment_nil_of (entries : list CycleEntry) :
  Forall (fun e => entryHasFlow e = false) entries ->
  Shared.identifyCycleStarts entries = [].
Proof.
  rewrite identifyCycleStarts_segment. intros H.
  apply segment_no_flow.
  apply (Permutation_Forall (sort_by_date_perm _)).
  rewrite Forall_map. exact H.
Qed.

(** X3. The segmenter finds no cycle-start exactly when no entry of the log
    has flow; a single entry with flow is enough for one. *)
Theorem identifyCycleStarts_nil_iff (entries : list CycleEntry) :
  Shared.identifyCycleStarts entries = []
  <-> Forall (fun e => entryHasFlow e = false) entries.
Proof.
  split.
  - apply identifyCycleStarts_segment_nil.
  - apply identifyCycleStarts_segment_nil_of.
Qed.

Lemma segment_length (l : list DatedEntry) :
  forall inPeriod,
    (length (segment inPeriod l)
     <= length (filter (fun entry => negb (hasFlow entry)) l)
        + (if inPeriod then 0 else 1))%nat
    /\ (length (segment inPeriod l) <= length (filter hasFlow l))%nat.
Proof.
  induction l as [|entry rest IH]; intros inPeriod; cbn [segment filter].
  - cbn. lia.
  - destruct (hasFlow entry); cbn [negb length].
    + destruct inPeriod; cbn [length];
        destruct (IH true) as [H1 H2]; lia.
    + destruct (IH false) as [H1 H2]. destruct inPeriod; lia.
Qed.

Lemma filter_length_perm {A} (f : A -> bool) (l l' : list A) :
  Permutation l l' -> length (filter f l) = length (filter f l').
Proof.
  induction 1 as [|x l l' _ IH|x y l|l l' l'' _ IH1 _ IH2]; cbn [filter].
  - reflexivity.
  - destruct (f x); cbn [length]; now rewrite IH.
  - destruct (f x), (f y); reflexivity.
  - now rewrite IH1.
Qed.

Lemma filter_length_map {A B} (g : A -> B) (f : B -> bool) (l : list A) :
  length (filter f (map g l)) = length (filter (fun a => f (g a)) l).
Proof.
  induction l as [|x l IH]; cbn [map filter]; [reflexivity|].
  destruct (f (g x)); cbn [length]; now rewrite IH.
Qed.

Lemma identifyCycleStarts_length (entries : list CycleEntry) :
  (length (Shared.identifyCycleStarts entries) <= no_flow_count entries + 1)%nat
  /\ (length (Shared.identifyCycleStarts entries) <= flow_count entries)%nat.
Proof.
  rewrite identifyCycleStarts_segment. unfold no_flow_count, flow_count.
  destruct (segment_length (sort_by_date (map with_date entries)) false)
    as [H1 H2].
  rewrite <- (filter_length_perm _ _ _ (sort_by_date_perm _)) in H1.
  rewrite <- (filter_length_perm _ _ _ (sort_by_date_perm _)) in H2.
  rewrite filter_length_map in H1. rewrite filter_length_map in H2.
  split; assumption.
Qed.

(** X4. The number of cycle-starts is at most the number of entries with
    flow, and at most one more than the number of entries logged without
    flow: every further cycle-start needs a logged day without flow before
    it. *)
Theorem identifyCycleStarts_count (entries : list CycleEntry) :
  (length (Shared.identifyCycleStarts entries) <= flow_count entries)%nat
  /\ (length (Shared.identifyCycleStarts entries)
      <= no_flow_count entries + 1)%nat.
Proof.
  destruct (identifyCycleStarts_length entries) as [H1 H2].
  split; assumption.
Qed.

Lemma no_flow_count_firstn (entries : list CycleEntry) (n : nat) :
  (no_flow_count (firstn n entries) <= no_flow_count entries)%nat.
Proof.
  unfold no_flow_count. revert n.
  induction entries as [|e l IH]; intros [|n]; cbn [firstn filter length];
    try lia.
  specialize (IH n).
  destruct (negb (entryHasFlow e)); cbn [length]; lia.
Qed.

Lemma no_flow_count_slice0 (entries : list CycleEntry) (n : Z) :
  (no_flow_count (slice0 entries n) <= no_flow_count entries)%nat.
Proof. unfold slice0. destruct (n <? 0); apply no_flow_count_firstn. Qed.

(** X5. Days without a log entry do not separate periods: when no entry of
    the log is logged without flow, the prediction is [profile_default] with
    confidence 0.5, however many separate bleeding runs the log contains. *)
Theorem predictCycle_without_logged_gap (tz : TimeZone)
        (now : Date) (cycleEntries : list CycleEntry)
        (profile : UserProfile) (maxEntriesToAnalyze : Z) :
  no_flow_count cycleEntries = 0%nat ->
  let r := Shared.predictCycle tz now cycleEntries profile maxEntriesToAnalyze in
  source r = profile_default
  /\ confidence r = 0.5%float
  /\ cycles_analyzed (metadata r) = 0%nat.
Proof.
  intros H0. cbv zeta. unfold Shared.predictCycle.
  set (starts := Shared.identifyCycleStarts _).
  assert (Hlen : (length starts <= 1)%nat).
  { subst starts.
    destruct (identifyCycleStarts_length
                (slice0 cycleEntries maxEntriesToAnalyze)) as [H1 _].
    pose proof (no_flow_count_slice0 cycleEntries maxEntriesToAnalyze). lia. }
  replace (2 <=? length starts)%nat with false
    by (symmetry; apply Nat.leb_gt; lia).
  cbv beta iota zeta. cbn [source confidence metadata cycles_analyzed].
  repeat split.
Qed.

Lemma predictCycle_without_logged_gap_witness :
  let r := Shared.predictCycle utc_zone
             0 [entry 0 "medium"; entry 1 "heavy"; entry 28 "medium";
                entry 29 "light"; entry 56 "medium"] sample_profile 90 in
  source r = profile_default
  /\ confidence r = 0.5%float
  /\ cycles_analyzed (metadata r) = 0%nat.
Proof.
  apply predictCycle_without_logged_gap. reflexivity.
Defined.

Lemma sorted_nodup_strict (l : list DatedEntry) :
  StronglySorted date_le l -> NoDup (dates_of l) ->
  StronglySorted (fun a b => date a < date b) l.
Proof.
  unfold dates_of.
  induction 1 as [|entry rest Hs IH Hall]; cbn [map]; intros Hnd;
    [constructor|].
  inversion Hnd as [|? ? Hnin Hnd']; subst.
  constructor; [now apply IH|].
  rewrite Forall_forall in *. intros x Hx.
  specialize (Hall x Hx). unfold date_le in Hall.
  assert (date entry <> date x).
  { intros Heq. apply Hnin. rewrite Heq. now apply in_map. }
  lia.
Qed.

(** X6. When the dates of the log are pairwise distinct, the cycle-starts
    are strictly ascending: no date is reported twice and every time between
    two consecutive cycle-starts is positive. *)
Theorem identifyCycleStarts_strictly_ascending (entries : list CycleEntry) :
  NoDup (map entry_date entries) ->
  StronglySorted Z.lt (Shared.identifyCycleStarts entries).
Proof.
  intros Hnd. rewrite identifyCycleStarts_segment.
  apply segment_sorted. apply sorted_nodup_strict.
  - apply sort_by_date_sorted.
  - unfold dates_of.
    eapply Permutation_NoDup;
      [apply Permutation_map, sort_by_date_perm|].
    now apply dates_of_with_date.
Qed.

Lemma identifyCycleStarts_strictly_ascending_witness :
  StronglySorted Z.lt (Shared.identifyCycleStarts shuffled_entries).
Proof.
  apply identifyCycleStarts_strictly_ascending.
  cbn. repeat constructor; cbn; intuition discriminate.
Defined.

(** ** The prediction and its inputs *)

Lemma last_default_irrelevant {A} (l : list A) (d d' : A) :
  l <> [] -> last l d = last l d'.
Proof.
  induction l as [|x l IH]; [contradiction|]. intros _.
  destruct l as [|y l]; [reflexivity|].
  change (last (y :: l) d = last (y :: l) d'). apply IH. discriminate.
Qed.

(** X7. The current instant matters only without history: as soon as one of
    the analysed entries has flow, [predictCycle] returns the same result at
    every instant. *)
Theorem predictCycle_independent_of_now (tz : TimeZone)
        (now now' : Date) (cycleEntries : list CycleEntry)
        (profile : UserProfile) (maxEntriesToAnalyze : Z) :
  Exists (fun e => entryHasFlow e = true)
         (slice0 cycleEntries maxEntriesToAnalyze) ->
  Shared.predictCycle tz now cycleEntries profile maxEntriesToAnalyze
  = Shared.predictCycle tz now' cycleEntries profile maxEntriesToAnalyze.
Proof.
  intros Hflow. unfold Shared.predictCycle.
  set (starts := Shared.identifyCycleStarts _).
  assert (Hne : starts <> []).
  { subst starts. intros Hnil.
    apply identifyCycleStarts_segment_nil in Hnil.
    apply Exists_exists in Hflow. destruct Hflow as (e & He & Hf).
    rewrite Forall_forall in Hnil. specialize (Hnil e He). congruence. }
  now rewrite (last_default_irrelevant starts now now' Hne).
Qed.

Lemma predictCycle_independent_of_now_witness :
  Shared.predictCycle utc_zone 0 three_regular_starts sample_profile 90
  = Shared.predictCycle utc_zone 1700000000000 three_regular_starts sample_profile 90.
Proof.
  apply predictCycle_independent_of_now.
  apply Exists_cons_hd. reflexivity.
Defined.

(** X8. Without any analysed entry with flow (the empty log included) the
    prediction uses the profile alone and is projected from the current
    instant with [addDays]; on a host whose offset from UTC never changes
    the next period starts [cycle_length_days] days after today's UTC date
    and lasts [period_length_days] days. *)
Theorem predictCycle_without_flow (tz : TimeZone)
        (now : Date) (cycleEntries : list CycleEntry)
        (profile : UserProfile) (maxEntriesToAnalyze : Z) :
  Forall (fun e => entryHasFlow e = false)
         (slice0 cycleEntries maxEntriesToAnalyze) ->
  let r := Shared.predictCycle tz now cycleEntries profile maxEntriesToAnalyze in
  source r = profile_default
  /\ metadata r = mkMetadata 0 None None
  /\ next_period_start r = addDays tz now (cycle_length_days profile)
  /\ next_period_end r
     = addDays tz now (cycle_length_days profile
                       + period_length_days profile - 1)
  /\ (fixed_offset tz ->
      next_period_start r = toISODate now + cycle_length_days profile
      /\ next_period_end r
         = toISODate now + cycle_length_days profile
           + period_length_days profile - 1).
Proof.
  intros Hno. cbv zeta. unfold Shared.predictCycle.
  replace (Shared.identifyCycleStarts (slice0 cycleEntries maxEntriesToAnalyze))
    with (@nil Date)
    by (symmetry; apply identifyCycleStarts_segment_nil_of; exact Hno).
  cbn [length Nat.leb last]. cbv beta iota zeta.
  cbn [source next_period_start next_period_end metadata].
  repeat split; try reflexivity;
    rewrite (addDays_fixed_offset tz) by assumption; lia.
Qed.

Lemma predictCycle_without_flow_witness :
  let r := Shared.predictCycle utc_zone 0 [] sample_profile 90 in
  source r = profile_default
  /\ next_period_start r = toISODate 0 + cycle_length_days sample_profile
  /\ next_period_end r
     = toISODate 0 + cycle_length_days sample_profile
       + period_length_days sample_profile - 1
  /\ metadata r = mkMetadata 0 None None.
Proof.
  destruct (predictCycle_without_flow utc_zone 0 [] sample_profile 90)
    as (Hsource & Hmeta & _ & _ & Hdates); [constructor|].
  destruct (Hdates utc_zone_fixed) as [Hstart Hend].
  cbv zeta. split; [exact Hsource|]. split; [exact Hstart|].
  split; [exact Hend | exact Hmeta].
Defined.

Lemma slice0_all {A} (l : list A) (n : Z) :
  Z.of_nat (length l) <= n -> slice0 l n = l.
Proof.
  intros H. unfold slice0.
  replace (n <? 0) with false by (symmetry; apply Z.ltb_ge; lia).
  apply firstn_all2. lia.
Qed.

Lemma slice0_app {A} (l extra : list A) (n : Z) :
  Z.of_nat (length l) = n -> slice0 (l ++ extra) n = l.
Proof.
  intros H. unfold slice0.
  replace (n <? 0) with false by (symmetry; apply Z.ltb_ge; lia).
  replace (Z.to_nat n) with (length l + 0)%nat by lia.
  rewrite firstn_app_2. cbn. apply app_nil_r.
Qed.

(** X9. Only the first [maxEntriesToAnalyze] entries of the list are
    analysed, in the caller's order and before any sorting: whatever follows
    them does not change the prediction. *)
Theorem predictCycle_ignores_entries_beyond_limit (tz : TimeZone)
        (now : Date) (cycleEntries extra : list CycleEntry)
        (profile : UserProfile) :
  Shared.predictCycle tz now (cycleEntries ++ extra) profile
                      (Z.of_nat (length cycleEntries))
  = Shared.predictCycle tz now cycleEntries profile
                        (Z.of_nat (length cycleEntries)).
Proof.
  unfold Shared.predictCycle.
  rewrite slice0_app by reflexivity.
  rewrite slice0_all by lia. reflexivity.
Qed.

(** X10. When all entries are analysed and their dates are pairwise
    distinct, the whole prediction, and not only the list of cycle-starts,
    is the same for every ordering of the log. *)
Theorem predictCycle_permutation_invariant (tz : TimeZone)
        (now : Date) (entries entries' : list CycleEntry)
        (profile : UserProfile) (maxEntriesToAnalyze : Z) :
  Permutation entries entries' ->
  NoDup (map entry_date entries) ->
  Z.of_nat (length entries) <= maxEntriesToAnalyze ->
  Shared.predictCycle tz now entries profile maxEntriesToAnalyze
  = Shared.predictCycle tz now entries' profile maxEntriesToAnalyze.
Proof.
  intros Hp Hnd Hlen. unfold Shared.predictCycle.
  rewrite (slice0_all entries) by exact Hlen.
  rewrite (slice0_all entries')
    by (rewrite <- (Permutation_length Hp); exact Hlen).
  rewrite !identifyCycleStarts_unfold.
  rewrite (sort_by_date_permutation_invariant
             (map with_date entries) (map with_date entries'));
    [reflexivity | now apply Permutation_map | now apply dates_of_with_date].
Qed.

Lemma predictCycle_permutation_invariant_witness :
  Shared.predictCycle utc_zone 0 [entry 29 "medium"; entry 1 "medium"] sample_profile 90
  = Shared.predictCycle utc_zone 0 [entry 1 "medium"; entry 29 "medium"]
                        sample_profile 90.
Proof.
  apply predictCycle_permutation_invariant.
  - apply perm_swap.
  - cbn. repeat constructor; cbn; intuition discriminate.
  - cbn. lia.
Defined.

(** X11. The metadata agree with the tier: [cycles_analyzed] is the number
    of cycle-length samples, and the average and the deviation are present
    exactly when there is at least one sample, that is when the source is not
    [profile_default]. *)
Theorem predictCycle_metadata (tz : TimeZone)
        (now : Date) (cycleEntries : list CycleEntry)
        (profile : UserProfile) (maxEntriesToAnalyze : Z) :
  let samples := samples_of cycleEntries maxEntriesToAnalyze in
  let r := Shared.predictCycle tz now cycleEntries profile maxEntriesToAnalyze in
  cycles_analyzed (metadata r) = length samples
  /\ (source r = profile_default <-> cycles_analyzed (metadata r) = 0%nat)
  /\ (average_cycle_length (metadata r) = None
      <-> source r = profile_default)
  /\ (std_deviation (metadata r) = None <-> source r = profile_default).
Proof.
  cbv zeta. unfold samples_of, starts_of, Shared.predictCycle.
  set (starts := Shared.identifyCycleStarts _).
  set (samples := Shared.calculateCycleLengths starts).
  pose proof (calculateCycleLengths_length starts) as Hlen. fold samples in Hlen.
  destruct (Nat.leb_spec 2 (length starts)) as [H2|H2].
  - destruct (Nat.leb_spec 3 (length samples)) as [H3|H3];
      cbv beta iota zeta;
      cbn [source metadata cycles_analyzed average_cycle_length std_deviation];
      repeat split; try discriminate; try lia; intros H; lia.
  - cbv beta iota zeta.
    cbn [source metadata cycles_analyzed average_cycle_length std_deviation].
    repeat split; lia.
Qed.

(** ** The due check of reminders *)

Module ReminderProperties.
Import Reminders.

(** X12. For an enabled medication or hydration reminder the due check is
    decided by the frequency alone: it is due when the frequency is absent,
    empty or [daily], and never due otherwise, whatever the prediction and
    the instant. *)
Theorem shouldSendReminder_daily_types
        (now : Date) (r : Reminder) (prediction : option Prediction) :
  enabled r = true ->
  is_daily_type (reminder_type r) = true ->
  shouldSendReminder now r prediction
  = String.eqb (string_or (frequency (schedule_config r)) "daily") "daily".
Proof.
  intros Hen Hty. unfold shouldSendReminder, is_daily_type in *.
  rewrite Hen, Hty. cbn [negb andb].
  destruct (String.eqb (string_or _ _) "daily"); [reflexivity|].
  destruct prediction as [p|]; [|reflexivity].
  apply orb_true_iff in Hty.
  destruct Hty as [Hty|Hty]; apply String.eqb_eq in Hty; rewrite Hty;
    reflexivity.
Qed.

Lemma shouldSendReminder_daily_types_witness :
  shouldSendReminder
    0 (mkReminder "r2" "u1" "medication"
                  (mkSchedule None None (Some "once"%string) None) true)
    (Some (mkStoredPrediction 0 4 (mkPredictionMeta None None)))
  = String.eqb (string_or (Some "once"%string) "daily") "daily".
Proof.
  apply shouldSendReminder_daily_types; reflexivity.
Defined.

(** X13. What the due check never does: a reminder is due only if it is
    enabled and either is a daily medication or hydration reminder, or has
    one of the types [period_start], [period_end], [fertile_window] together
    with a stored prediction.  A disabled reminder, a [custom] reminder and a
    cycle-based reminder of a user without prediction are never due. *)
Theorem shouldSendReminder_true_only_if
        (now : Date) (r : Reminder) (prediction : option Prediction) :
  shouldSendReminder now r prediction = true ->
  enabled r = true
  /\ ((is_daily_type (reminder_type r) = true
       /\ string_or (frequency (schedule_config r)) "daily" = "daily"%string)
      \/ (exists p, prediction = Some p
                    /\ trigger_date (reminder_type r) p <> None)).
Proof.
  unfold shouldSendReminder, is_daily_type, trigger_date.
  destruct (enabled r); cbn [negb]; [|discriminate].
  intros H. split; [reflexivity|].
  destruct ((String.eqb (reminder_type r) "medication"
             || String.eqb (reminder_type r) "hydration")
            && String.eqb (string_or (frequency (schedule_config r)) "daily")
                          "daily") eqn:Hd.
  - left. apply andb_true_iff in Hd. destruct Hd as [Hd1 Hd2].
    split; [exact Hd1 | now apply String.eqb_eq].
  - right. destruct prediction as [p|]; [|discriminate].
    exists p. split; [reflexivity|].
    destruct (String.eqb (reminder_type r) "period_start"); [discriminate|].
    destruct (String.eqb (reminder_type r) "period_end"); [discriminate|].
    destruct (String.eqb (reminder_type r) "fertile_window"); [|discriminate].
    destruct (meta_fertility_window_start (prediction_metadata p));
      discriminate.
Qed.

Lemma shouldSendReminder_true_only_if_witness :
  let r := period_start_reminder None in
  let p := mkStoredPrediction 3 7 (mkPredictionMeta None None) in
  enabled r = true
  /\ ((is_daily_type (reminder_type r) = true
       /\ string_or (frequency (schedule_config r)) "daily" = "daily"%string)
      \/ (exists p', Some p = Some p'
                     /\ trigger_date (reminder_type r) p' <> None)).
Proof.
  apply (shouldSendReminder_true_only_if 0). reflexivity.
Defined.

(** X14. For an enabled reminder of a cycle-based type and a stored
    prediction, the reminder is due exactly on the UTC day that lies
    [days_before || 3] days before the trigger date of its type (the
    predicted start, the predicted end, or the start of the fertile window);
    without that date in the prediction it is never due. *)
Theorem shouldSendReminder_cycle_based
        (now : Date) (r : Reminder) (p : Prediction) :
  enabled r = true ->
  is_daily_type (reminder_type r) = false ->
  shouldSendReminder now r (Some p)
  = match trigger_date (reminder_type r) p with
    | Some d =>
        d - number_or (days_before (schedule_config r)) 3 =? toISODate now
    | None => false
    end.
Proof.
  intros Hen Hty. unfold shouldSendReminder, is_daily_type, trigger_date in *.
  rewrite Hen, Hty. cbn [negb andb].
  destruct (String.eqb (reminder_type r) "period_start");
    [now rewrite RemindersFacts.reminder_day_spec|].
  destruct (String.eqb (reminder_type r) "period_end");
    [now rewrite RemindersFacts.reminder_day_spec|].
  destruct (String.eqb (reminder_type r) "fertile_window"); [|reflexivity].
  destruct (meta_fertility_window_start (prediction_metadata p));
    [now rewrite RemindersFacts.reminder_day_spec | reflexivity].
Qed.

Lemma shouldSendReminder_cycle_based_witness :
  shouldSendReminder
    (new_Date 10)
    (mkReminder "r3" "u1" "fertile_window"
                (mkSchedule None (Some 2) None None) true)
    (Some (mkStoredPrediction 30 34 (mkPredictionMeta (Some 12) (Some 18))))
  = (12 - 2 =? toISODate (new_Date 10)).
Proof.
  apply (shouldSendReminder_cycle_based
           (new_Date 10)
           (mkReminder "r3" "u1" "fertile_window"
                       (mkSchedule None (Some 2) None None) true)
           (mkStoredPrediction 30 34 (mkPredictionMeta (Some 12) (Some 18))));
    reflexivity.
Defined.

(** X15. A cycle-based reminder has at most one due day per prediction: if
    it is due at two instants, they lie on the same UTC day. *)
Theorem shouldSendReminder_one_due_day
        (now now' : Date) (r : Reminder) (p : Prediction) :
  is_daily_type (reminder_type r) = false ->
  shouldSendReminder now r (Some p) = true ->
  shouldSendReminder now' r (Some p) = true ->
  toISODate now = toISODate now'.
Proof.
  intros Hty H1 H2. unfold shouldSendReminder, is_daily_type in *.
  destruct (enabled r); cbn [negb] in *; [|discriminate].
  rewrite Hty in H1, H2. cbn [andb] in *.
  assert (Hday : forall d t t',
             (reminder_day d (number_or (days_before (schedule_config r)) 3)
              =? toISODate t) = true ->
             (reminder_day d (number_or (days_before (schedule_config r)) 3)
              =? toISODate t') = true ->
             toISODate t = toISODate t').
  { intros d t t' E1 E2. apply Z.eqb_eq in E1, E2. lia. }
  destruct (String.eqb (reminder_type r) "period_start"); [now eauto|].
  destruct (String.eqb (reminder_type r) "period_end"); [now eauto|].
  destruct (String.eqb (reminder_type r) "fertile_window"); [|discriminate].
  destruct (meta_fertility_window_start (prediction_metadata p));
    [now eauto | discriminate].
Qed.

Lemma shouldSendReminder_one_due_day_witness :
  toISODate (new_Date 5) = toISODate (new_Date 5 + 1000).
Proof.
  apply (shouldSendReminder_one_due_day
           (new_Date 5) (new_Date 5 + 1000) (period_start_reminder None)
           (mkStoredPrediction 8 12 (mkPredictionMeta None None)));
    reflexivity.
Defined.

End ReminderProperties.

(** ** The messages *)

Module MessageProperties.
Import Reminders.

Lemma default_message_not_empty
      (iso : Z -> string) (r : Reminder) (prediction : option Prediction) :
  default_message iso r prediction <> EmptyString.
Proof.
  unfold default_message.
  repeat match goal with
         | |- context [if ?b then _ else _] => destruct b
         end;
    try discriminate;
    destruct prediction as [p|]; try discriminate;
    destruct (meta_fertility_window_start (prediction_metadata p));
    discriminate.
Qed.

(** X16. The message of a reminder is never empty, whatever the reminder,
    the prediction and the text of the dates. *)
Theorem generateReminderMessage_not_empty
        (iso : Z -> string) (r : Reminder) (prediction : option Prediction) :
  generateReminderMessage iso r prediction <> EmptyString.
Proof.
  unfold generateReminderMessage.
  destruct (custom_message (schedule_config r)) as [msg|];
    [|apply default_message_not_empty].
  destruct (String.eqb msg EmptyString) eqn:He; cbn [negb];
    [apply default_message_not_empty|].
  intros ->. discriminate.
Qed.

End MessageProperties.

(** ** The run over the reminders *)

Module SendRemindersProperties.
Import Reminders SendReminders.

Section Run.

Variable now : Date.
Variable iso : Z -> string.
Variable find_user : string -> option User.
Variable latest_prediction : string -> option Prediction.

(** The guard on a missing prediction skips only reminders that are not
    due. *)
Lemma process_reminder_cases
      (emailService emailApiKey : option string)
      (post : nat -> string -> string -> string -> option bool)
      (acc : list Result) (r : Reminder) :
  process_reminder now iso emailService emailApiKey post find_user
                   latest_prediction acc r
  = if due_with_account now find_user latest_prediction r then
      let prediction := latest_prediction (user_id r) in
      let message := generateReminderMessage iso r prediction in
      match find_user (user_id r) with
      | Some user =>
          acc ++ [mkResult (id r) (user_id r) (reminder_type r)
                           (sendNotification emailService emailApiKey post
                                             (length acc) user message
                                             (reminder_type r))
                           message]
      | None => acc
      end
    else acc.
Proof.
  unfold process_reminder, due_with_account.
  destruct (find_user (user_id r)) as [user|]; [|reflexivity].
  destruct (latest_prediction (user_id r)) as [p|]; cbn [andb];
    [reflexivity|].
  unfold shouldSendReminder.
  destruct (enabled r); cbn [negb];
    [|now destruct (negb _ && negb _)].
  destruct (String.eqb (reminder_type r) "medication"); cbn [negb andb orb];
    [reflexivity|].
  destruct (String.eqb (reminder_type r) "hydration"); cbn [negb andb orb];
    reflexivity.
Qed.

Lemma run_announced
      (emailService emailApiKey : option string)
      (post : nat -> string -> string -> string -> option bool)
      (rows : list Reminder) :
  forall acc : list Result,
    map announced
        (fold_left (process_reminder now iso emailService emailApiKey post
                                     find_user latest_prediction) rows acc)
    = map announced acc
      ++ map (fun r =>
                (id r, user_id r, reminder_type r,
                 generateReminderMessage
                   iso r (latest_prediction (user_id r))))
             (filter (due_with_account now find_user latest_prediction) rows).
Proof.
  induction rows as [|r rows IH]; intros acc; cbn [fold_left filter].
  - now rewrite app_nil_r.
  - rewrite IH, process_reminder_cases.
    destruct (due_with_account now find_user latest_prediction r) eqn:Hdue;
      [|reflexivity].
    unfold due_with_account in Hdue.
    destruct (find_user (user_id r)) as [user|]; [|discriminate].
    cbn zeta. rewrite map_app, <- app_assoc. reflexivity.
Qed.

(** X17. The results of a run are, in the order of the reminders, exactly
    the reminders whose user account exists and that are due against the
    user's latest prediction, each with its id, user, type and generated
    message.  The email configuration and the outcome of the deliveries
    change nothing but the [sent] flags, and [sent] in the response counts
    the due reminders, delivered or not. *)
Theorem send_reminders_results
        (emailService emailApiKey : option string)
        (post : nat -> string -> string -> string -> option bool)
        (reminders : list Reminder) :
  let response :=
    send_reminders now iso emailService emailApiKey post find_user
                   latest_prediction (Some reminders) in
  let due :=
    filter (due_with_account now find_user latest_prediction) reminders in
  map announced (results response)
  = map (fun r =>
           (id r, user_id r, reminder_type r,
            generateReminderMessage iso r (latest_prediction (user_id r))))
        due
  /\ sent_count response = length due
  /\ processed response = length reminders.
Proof.
  cbv zeta. unfold send_reminders. cbn [results sent_count processed].
  pose proof (run_announced emailService emailApiKey post reminders [])
    as Hrun.
  cbn [map app] in Hrun. split; [exact Hrun|]. split; [|reflexivity].
  apply (f_equal (@length _)) in Hrun.
  now rewrite !length_map in Hrun.
Qed.

Lemma run_sent_without_service
      (emailService emailApiKey : option string)
      (post : nat -> string -> string -> string -> option bool)
      (rows : list Reminder) :
  truthy emailService && truthy emailApiKey = false ->
  forall acc : list Result,
    Forall (fun res => sent res = true) acc ->
    Forall (fun res => sent res = true)
           (fold_left (process_reminder now iso emailService emailApiKey post
                                        find_user latest_prediction)
                      rows acc).
Proof.
  intros Hcfg. induction rows as [|r rows IH]; intros acc Hacc;
    cbn [fold_left]; [exact Hacc|].
  apply IH. rewrite process_reminder_cases.
  destruct (due_with_account now find_user latest_prediction r);
    [|exact Hacc].
  cbn zeta. destruct (find_user (user_id r)) as [user|]; [|exact Hacc].
  apply Forall_app. split; [exact Hacc|].
  constructor; [|constructor]. cbn [sent]. unfold sendNotification.
  now rewrite Hcfg.
Qed.

(** X18. Without an email service (the URL or the API key is absent or
    empty) no delivery can fail: every result of the run is flagged as
    sent. *)
Theorem send_reminders_without_service
        (emailService emailApiKey : option string)
        (post : nat -> string -> string -> string -> option bool)
        (reminders : option (list Reminder)) :
  truthy emailService && truthy emailApiKey = false ->
  Forall (fun res => sent res = true)
         (results (send_reminders now iso emailService emailApiKey post
                                  find_user latest_prediction reminders)).
Proof.
  intros Hcfg. unfold send_reminders. cbn [results].
  apply run_sent_without_service; [exact Hcfg | constructor].
Qed.

End Run.

Lemma send_reminders_without_service_witness :
  Forall (fun res => sent res = true)
         (results
            (send_reminders
               (new_Date 5) (fun _ => "2024-01-09"%string)
               (Some "https://mail.example"%string) None
               (fun _ _ _ _ => Some false)
               (fun uid => Some (mkUser uid "u@example.org"))
               (fun _ => Some (mkStoredPrediction 8 12
                                                  (mkPredictionMeta None None)))
               (Some [period_start_reminder None]))).
Proof.
  apply send_reminders_without_service. reflexivity.
Defined.

End SendRemindersProperties.

(** ** Several predictions in a row, once the log is inside a period *)

(** A flow entry inserted into a sorted list where the scan is inside a
    period does not start a cycle. *)
Lemma segment_insert_in_period (x : DatedEntry) (l : list DatedEntry) :
  hasFlow x = true ->
  StronglySorted date_le l ->
  forall inPeriod : bool,
    (inPeriod = true
     /\ (forall e', In e' l -> hasFlow e' = false -> date x <= date e'))
    \/ (exists e, In e l /\ hasFlow e = true /\ date e < date x
                  /\ forall e', In e' l -> hasFlow e' = false ->
                                date e' < date x -> date e' < date e) ->
    segment inPeriod (insert_by_date x l) = segment inPeriod l.
Proof.
  intros Hx. induction l as [|y l IH]; intros Hsorted inPeriod Hcond.
  - destruct Hcond as [[-> _]|[e [[] _]]]. cbn. now rewrite Hx.
  - apply StronglySorted_inv in Hsorted. destruct Hsorted as [Hsorted Hy].
    cbn [insert_by_date]. destruct (date x <=? date y) eqn:Hle.
    + apply Z.leb_le in Hle.
      destruct Hcond as [[-> _]|[e (Hin & _ & Hlt & _)]].
      * cbn [segment]. now rewrite Hx.
      * exfalso. destruct Hin as [<-|Hin]; [lia|].
        rewrite Forall_forall in Hy. specialize (Hy e Hin).
        unfold date_le in Hy. lia.
    + apply Z.leb_gt in Hle.
      assert (Hstep : forall t,
                 segment inPeriod (y :: t)
                 = (if hasFlow y && negb inPeriod then [date y] else [])
                     ++ segment (hasFlow y) t).
      { intros t. cbn [segment].
        destruct (hasFlow y), inPeriod; reflexivity. }
      rewrite !Hstep. f_equal. apply IH; [exact Hsorted|].
      destruct Hcond as [[-> Hno]|[e (Hin & Hf & Hlt & Hno)]].
      * left. split.
        -- destruct (hasFlow y) eqn:Hfy; [reflexivity|].
           specialize (Hno y (or_introl eq_refl) Hfy). lia.
        -- intros e' Hin'. apply Hno. now right.
      * destruct Hin as [<-|Hin].
        -- left. split; [exact Hf|].
           intros e' Hin' Hf'.
           destruct (Z.le_gt_cases (date x) (date e')) as [?|Hbefore];
             [assumption|].
           specialize (Hno e' (or_intror Hin') Hf' Hbefore).
           rewrite Forall_forall in Hy. specialize (Hy e' Hin').
           unfold date_le in Hy. lia.
        -- right. exists e. repeat split; try assumption.
           intros e' Hin'. apply Hno. now right.
Qed.

Lemma new_Date_lt (a b : Z) : a < b <-> new_Date a < new_Date b.
Proof.
  unfold new_Date. pose proof MS_PER_DAY_pos. nia.
Qed.

(** The synthetic entry of a prediction dated inside an open period leaves
    the cycle starts as they are. *)
Lemma identifyCycleStarts_synthetic
      (prediction : PredictionResult) (entries : list CycleEntry) :
  period_open_before (next_period_start prediction) entries ->
  Shared.identifyCycleStarts (Shared.syntheticEntry prediction :: entries)
  = Shared.identifyCycleStarts entries.
Proof.
  intros (e & Hin & Hf & Hlt & Hno).
  rewrite !identifyCycleStarts_segment. cbn [map sort_by_date fold_right].
  fold (sort_by_date (map with_date entries)).
  apply segment_insert_in_period;
    [reflexivity | apply sort_by_date_sorted |].
  right. exists (with_date e). split.
  { apply (Permutation_in _ (sort_by_date_perm _)). now apply in_map. }
  split; [exact Hf|]. split.
  { cbn [with_date date Shared.syntheticEntry entry_date].
    now apply (proj1 (new_Date_lt _ _)). }
  intros d Hd Hfd Hbefore.
  apply (Permutation_in _ (Permutation_sym (sort_by_date_perm _))) in Hd.
  apply in_map_iff in Hd. destruct Hd as (e' & <- & Hin').
  cbn [with_date date Shared.syntheticEntry entry_date] in *.
  apply (proj1 (new_Date_lt _ _)). apply Hno; [assumption | exact Hfd |].
  now apply (proj2 (new_Date_lt _ _)).
Qed.

Lemma period_open_before_synthetic
      (prediction : PredictionResult) (D : Z) (entries : list CycleEntry) :
  period_open_before D entries ->
  period_open_before D (Shared.syntheticEntry prediction :: entries).
Proof.
  intros (e & Hin & Hf & Hlt & Hno).
  exists e. split; [now right|]. split; [exact Hf|]. split; [exact Hlt|].
  intros e' [<-|Hin'] Hf'; [discriminate | now apply Hno].
Qed.

Lemma predictCycle_synthetic (tz : TimeZone)
      (now : Date) (profile : UserProfile)
      (prediction : PredictionResult) (entries : list CycleEntry) :
  (length entries < 90)%nat ->
  period_open_before (next_period_start prediction) entries ->
  Shared.predictCycle tz now (Shared.syntheticEntry prediction :: entries)
                      profile 90
  = Shared.predictCycle tz now entries profile 90.
Proof.
  intros Hlen Hopen. unfold Shared.predictCycle.
  rewrite !slice0_all by (cbn [length]; lia).
  now rewrite (identifyCycleStarts_synthetic _ _ Hopen).
Qed.

Lemma multi_loop_repeats (tz : TimeZone) (now : Date)
      (profile : UserProfile) (n : nat) :
  forall (k : nat) (acc : list PredictionResult) (cur : list CycleEntry),
    (length cur + n <= 90)%nat ->
    period_open_before
      (next_period_start (Shared.predictCycle tz now cur profile 90)) cur ->
    fst (fold_left (Shared.multi_step tz now profile) (seq k n) (acc, cur))
    = acc ++ repeat (Shared.predictCycle tz now cur profile 90) n.
Proof.
  induction n as [|n IH]; intros k acc cur Hlen Hopen.
  - cbn. now rewrite app_nil_r.
  - cbn [seq fold_left Shared.multi_step repeat].
    set (p := Shared.predictCycle tz now cur profile 90) in *.
    assert (Hsame : Shared.predictCycle tz
                      now (Shared.syntheticEntry p :: cur) profile 90 = p).
    { apply predictCycle_synthetic; [lia | exact Hopen]. }
    rewrite IH.
    + rewrite Hsame, <- app_assoc. reflexivity.
    + cbn [length]. lia.
    + rewrite Hsame. now apply period_open_before_synthetic.
Qed.

(** X19. When the first predicted start falls while the log is inside a
    period (a flow entry before it, with no entry without flow in between),
    the synthetic entries never open a new cycle: [predictMultipleCycles]
    returns the first prediction [numberOfCycles] times, as long as the
    entries fit the 90-entry limit. *)
Theorem predictMultipleCycles_repeats (tz : TimeZone)
        (now : Date) (cycleEntries : list CycleEntry)
        (profile : UserProfile) (numberOfCycles : nat) :
  (length cycleEntries + numberOfCycles <= 90)%nat ->
  period_open_before
    (next_period_start (Shared.predictCycle tz now cycleEntries profile 90))
    cycleEntries ->
  Shared.predictMultipleCycles tz now cycleEntries profile numberOfCycles
  = repeat (Shared.predictCycle tz now cycleEntries profile 90) numberOfCycles.
Proof.
  intros Hlen Hopen. unfold Shared.predictMultipleCycles.
  now rewrite multi_loop_repeats.
Qed.

Lemma predictMultipleCycles_repeats_witness :
  Shared.predictMultipleCycles utc_zone (new_Date 100) four_regular_starts
                               sample_profile 3
  = repeat (Shared.predictCycle utc_zone (new_Date 100) four_regular_starts
                                sample_profile 90) 3.
Proof.
  apply predictMultipleCycles_repeats.
  - cbn. lia.
  - exists (entry 84 "medium"). split; [cbn; tauto|].
    split; [reflexivity|]. split; [vm_compute; reflexivity|].
    intros e' Hin Hf _.
    cbn in Hin.
    repeat (destruct Hin as [<-|Hin]; [try discriminate; cbn; lia|]).
    destruct Hin.
Defined.

(** ** Several predictions in a row, from a log that ended before them *)

(** X20. When every logged entry is dated before the first predicted start
    and the second predicted start is later than the first, the synthetic
    entries from the second on continue the period opened by the first one:
    [predictMultipleCycles] returns the first prediction followed by copies
    of the second, so the third and later predictions never advance. *)
Theorem predictMultipleCycles_at_most_two (tz : TimeZone)
        (now : Date) (cycleEntries : list CycleEntry)
        (profile : UserProfile) (n : nat) :
  let first := Shared.predictCycle tz now cycleEntries profile 90 in
  let second :=
    Shared.predictCycle tz now (Shared.syntheticEntry first :: cycleEntries)
                        profile 90 in
  (length cycleEntries + S n <= 90)%nat ->
  Forall (fun e => entry_date e < next_period_start first) cycleEntries ->
  next_period_start first < next_period_start second ->
  Shared.predictMultipleCycles tz now cycleEntries profile (S n)
  = first :: repeat second n.
Proof.
  cbv zeta. intros Hlen Hbefore Hlater.
  unfold Shared.predictMultipleCycles.
  cbn [seq fold_left Shared.multi_step app].
  rewrite multi_loop_repeats; [reflexivity | cbn [length]; lia |].
  exists (Shared.syntheticEntry
            (Shared.predictCycle tz now cycleEntries profile 90)).
  split; [now left|]. split; [reflexivity|]. split; [exact Hlater|].
  intros e' [<-|Hin] Hf _; [discriminate|].
  rewrite Forall_forall in Hbefore. now apply Hbefore.
Qed.

Lemma predictMultipleCycles_at_most_two_witness :
  let entries :=
    [entry 0 "medium"; entry 1 "light"; entry 5 "none"; entry 28 "heavy";
     entry 29 "none"] in
  let first := Shared.predictCycle utc_zone (new_Date 40) entries sample_profile 90 in
  let second :=
    Shared.predictCycle utc_zone (new_Date 40) (Shared.syntheticEntry first :: entries)
                        sample_profile 90 in
  Shared.predictMultipleCycles utc_zone (new_Date 40) entries sample_profile 4
  = first :: repeat second 3.
Proof.
  apply (predictMultipleCycles_at_most_two
           utc_zone (new_Date 40)
           [entry 0 "medium"; entry 1 "light"; entry 5 "none";
            entry 28 "heavy"; entry 29 "none"]
           sample_profile 3).
  - cbn [length]. lia.
  - assert (E : next_period_start
                  (Shared.predictCycle utc_zone
                     (new_Date 40)
                     [entry 0 "medium"; entry 1 "light"; entry 5 "none";
                      entry 28 "heavy"; entry 29 "none"]
                     sample_profile 90) = 56)
      by (vm_compute; reflexivity).
    rewrite E. repeat constructor; cbn; lia.
  - vm_compute. reflexivity.
Defined.

(** ** Exact quotients *)

Lemma pow2_lt_inv (a b : Z) : 2 ^ a < 2 ^ b -> a < b.
Proof.
  intros H. destruct (Z.lt_ge_cases a b) as [Hlt|Hge]; [exact Hlt|].
  assert (2 ^ b <= 2 ^ a) by (apply Z.pow_le_mono_r; lia). lia.
Qed.

Lemma rnd_exact (M K : Z) :
  0 < M < 2 ^ 53 -> 0 <= K -> rnd M K = M * 2 ^ K.
Proof.
  intros HM HK. unfold rnd.
  assert (Zdigits2 M <= 53) by (apply Zdigits2_le; lia).
  replace (Z.max (Zdigits2 M + K - 53) 0 <=? K) with true
    by (symmetry; apply Z.leb_le; lia).
  reflexivity.
Qed.

Lemma div_eucl_exact (q b : Z) : 0 < b -> Z.div_eucl (q * b) b = (q, 0).
Proof.
  intros Hb.
  rewrite (surjective_pairing (Z.div_eucl (q * b) b)).
  change (fst (Z.div_eucl (q * b) b)) with (q * b / b).
  change (snd (Z.div_eucl (q * b) b)) with ((q * b) mod b).
  rewrite Z.div_mul, Z.mod_mul by lia. reflexivity.
Qed.

Lemma new_location_zero (nb_steps : Z) (l : location) :
  new_location nb_steps 0 = loc_Exact.
Proof.
  unfold new_location, new_location_even, new_location_odd.
  now destruct (Z.even nb_steps).
Qed.

(** The division core on an exact quotient [M * 2^K] (scaled by [2^u], the
    unit being [2^-u]). *)
Lemma SFdiv_core_exact (mx my : positive) (ex ey M K u : Z) :
  u = 1074 ->
  - u <= ex -> - u <= ey ->
  0 < M < 2 ^ 53 -> 0 <= K ->
  Z.pos mx * 2 ^ (ex + u) * 2 ^ u = M * 2 ^ K * (Z.pos my * 2 ^ (ey + u)) ->
  exists j e',
    0 <= j /\ e' + u + j = K
    /\ e' <= fexp prec emax (Zdigits2 (M * 2 ^ j) + e')
    /\ SFdiv_core_binary prec emax (Z.pos mx) ex (Z.pos my) ey
       = (M * 2 ^ j, e', loc_Exact).
Proof.
  intros Hu Hex Hey HM HK Heq.
  pose proof (Zdigits2_bounds (Z.pos mx) eq_refl) as [Hx1 Hx2].
  pose proof (Zdigits2_bounds (Z.pos my) eq_refl) as [Hy1 Hy2].
  pose proof (Zdigits2_pos (Z.pos mx) eq_refl) as Hd1.
  pose proof (Zdigits2_pos (Z.pos my) eq_refl) as Hd2.
  unfold SFdiv_core_binary.
  set (d1 := Zdigits2 (Z.pos mx)) in *.
  set (d2 := Zdigits2 (Z.pos my)) in *.
  rewrite fexp_eq.
  set (E0 := d1 + ex - (d2 + ey)).
  set (e' := Z.min (Z.max (E0 - 53) (-1074)) (ex - ey)).
  set (s := ex - ey - e').
  assert (Hs : 0 <= s) by (subst s e'; lia).
  set (m' := match s with Z0 => Z.pos mx | Z.pos _ => Z.shiftl (Z.pos mx) s
                     | Z.neg _ => 0 end).
  assert (Hm' : m' = Z.pos mx * 2 ^ s).
  { subst m'. destruct s as [|p|p] eqn:Hsp.
    - now rewrite Z.mul_1_r.
    - now rewrite Z.shiftl_mul_pow2.
    - lia. }
  (* the size of the quotient *)
  assert (Hsize : d1 - 1 + ex + u + u < 53 + K + d2 + ey + u).
  { apply pow2_lt_inv.
    apply Z.le_lt_trans with (Z.pos mx * 2 ^ (ex + u) * 2 ^ u).
    - replace (d1 - 1 + ex + u + u) with ((d1 - 1) + (ex + u) + u) by lia.
      rewrite !pow2_split by lia.
      assert (0 < 2 ^ (ex + u)) by (apply pow2_pos; lia).
      assert (0 < 2 ^ u) by (apply pow2_pos; lia).
      apply Z.mul_le_mono_nonneg_r; [lia|].
      apply Z.mul_le_mono_nonneg_r; lia.
    - rewrite Heq.
      replace (53 + K + d2 + ey + u) with ((53 + K) + (d2 + (ey + u))) by lia.
      rewrite (pow2_split (53 + K)), (pow2_split 53 K),
        (pow2_split d2 (ey + u)) by lia.
      assert (0 < 2 ^ (ey + u)) by (apply pow2_pos; lia).
      assert (0 < 2 ^ K) by (apply pow2_pos; lia).
      apply Z.mul_lt_mono_nonneg.
      + nia.
      + apply Z.mul_lt_mono_pos_r; lia.
      + nia.
      + apply Z.mul_lt_mono_pos_r; lia. }
  set (j := K - e' - u).
  assert (Hj : 0 <= j) by (subst j e' E0; lia).
  assert (Hq : m' = M * 2 ^ j * Z.pos my).
  { rewrite Hm'.
    assert (Hc : 0 < 2 ^ (K + ey + u)) by (apply pow2_pos; lia).
    apply (Z.mul_reg_r _ _ (2 ^ (K + ey + u))); [lia|].
    transitivity (Z.pos mx * 2 ^ (ex + u) * 2 ^ u * 2 ^ j).
    - rewrite <- !Z.mul_assoc. f_equal.
      rewrite <- !pow2_split by lia. f_equal. subst s j. lia.
    - rewrite Heq.
      replace (K + ey + u) with (K + (ey + u)) by lia.
      rewrite (pow2_split K (ey + u)) by lia. ring. }
  exists j, e'. split; [exact Hj|]. split; [subst j; lia|]. split.
  - (* no left shift is needed after the division *)
    rewrite fexp_eq.
    assert (Hpos : 0 < M * 2 ^ j).
    { assert (0 < 2 ^ j) by (apply pow2_pos; lia). nia. }
    pose proof (Zdigits2_bounds _ Hpos) as [_ Hq2].
    set (dq := Zdigits2 (M * 2 ^ j)) in *.
    assert (Hdq : d1 - 1 + s < dq + d2).
    { apply pow2_lt_inv.
      apply Z.le_lt_trans with m'.
      - rewrite Hm'. rewrite pow2_split by lia.
        assert (0 < 2 ^ s) by (apply pow2_pos; lia).
        apply Z.mul_le_mono_nonneg_r; lia.
      - rewrite Hq.
        pose proof (Zdigits2_pos _ Hpos).
        rewrite pow2_split by (fold dq; lia).
        apply Z.mul_lt_mono_nonneg; lia. }
    subst e' s E0. lia.
  - cbv zeta. fold m'. rewrite Hq, div_eucl_exact by lia.
    rewrite new_location_zero; [reflexivity | exact loc_Exact].
Qed.

Lemma SFdiv_exact_Zv (sx sy : bool) (mx my : positive) (ex ey M K : Z) :
  -1074 <= ex -> -1074 <= ey ->
  0 < M < 2 ^ 53 -> 0 <= K <= 2045 ->
  Z.pos mx * 2 ^ (ex + 1074) * UNIT
  = M * 2 ^ K * (Z.pos my * 2 ^ (ey + 1074)) ->
  Zv (SFdiv prec emax (S754_finite sx mx ex) (S754_finite sy my ey))
  = sgn (xorb sx sy) (M * 2 ^ K)
  /\ not_nan (SFdiv prec emax (S754_finite sx mx ex) (S754_finite sy my ey)).
Proof.
  intros Hex Hey HM HK Heq.
  destruct (SFdiv_core_exact mx my ex ey M K 1074 eq_refl)
    as (j & e' & Hj & Hsum & Hf & Hcore); try lia; [exact Heq|].
  cbn [SFdiv]. rewrite Hcore.
  assert (Hpos : 0 < M * 2 ^ j).
  { assert (0 < 2 ^ j) by (apply pow2_pos; lia). nia. }
  destruct (M * 2 ^ j) as [|p|p] eqn:Hp; try lia.
  split; [|apply binary_round_aux_not_nan].
  rewrite binary_round_aux_Zv by exact Hf.
  f_equal. rewrite <- Hp.
  replace (e' + 1074) with (K - j) by lia.
  rewrite rnd_scale, rnd_exact by lia.
  apply cap_below; lia.
Qed.

Lemma Zv_opp (x : spec_float) : Zv (SFopp x) = - Zv x.
Proof.
  destruct x as [s|s| |s m e]; cbn [SFopp Zv]; try reflexivity;
    destruct s; cbn [negb sgn]; lia.
Qed.

Lemma rnds_exact (s : bool) (M K : Z) :
  0 < M < 2 ^ 53 -> 0 <= K <= 2045 ->
  rnds (sgn s (M * 2 ^ K)) 0 = sgn s (M * 2 ^ K).
Proof.
  intros HM HK.
  assert (Hpos : 0 < 2 ^ K) by (apply pow2_pos; lia).
  replace (sgn s (M * 2 ^ K)) with (sgn s M * 2 ^ K)
    by (destruct s; cbn [sgn]; ring).
  replace 0 with (K - K) at 1 by lia.
  rewrite rnds_scale by lia.
  destruct M as [|p|p]; try lia.
  destruct s; cbn [sgn rnds Z.opp]; rewrite rnd_exact, cap_below by lia;
    [change (Z.neg p) with (- Z.pos p); ring | reflexivity].
Qed.

(** The finite numbers other than zero. *)
Lemma finite_nonzero (x : float) :
  fnn x -> fv x <> 0 -> Z.abs (fv x) < INF ->
  exists s m e,
    Prim2SF x = S754_finite s m e
    /\ valid_binary (S754_finite s m e) = true
    /\ fv x = sgn s (Z.pos m * 2 ^ (e + 1074)).
Proof.
  unfold fnn, not_nan, fv. intros Hn Hnz Hfin.
  pose proof (Prim2SF_valid x) as Hv.
  pose proof INF_pos as HINFpos.
  destruct (Prim2SF x) as [s|s| |s m e]; cbn [Zv] in *; try lia;
    try congruence.
  - destruct s; cbn [sgn] in *; lia.
  - now exists s, m, e.
Qed.

(** An integer [M * 2^t] below [2^63] with [M] below [2^53] is converted
    exactly. *)
Lemma of_Z_fv (M t : Z) :
  Z.abs M < 2 ^ 53 -> 0 <= t -> Z.abs M * 2 ^ t < 2 ^ 63 ->
  fv (JS.of_Z (M * 2 ^ t)) = M * 2 ^ t * UNIT /\ fnn (JS.of_Z (M * 2 ^ t)).
Proof.
  intros HM Ht Hsmall.
  assert (Hpos : 0 < 2 ^ t) by (apply pow2_pos; lia).
  assert (Hconv : forall n : Z,
             0 <= n -> n = Z.abs M * 2 ^ t ->
             Zv (Prim2SF (PrimFloat.of_uint63 (Uint63.of_Z n))) = n * UNIT
             /\ not_nan (Prim2SF (PrimFloat.of_uint63 (Uint63.of_Z n)))).
  { intros n Hn Hdef. rewrite of_uint63_spec.
    split; [|apply binary_normalize_not_nan].
    rewrite binary_normalize_Zv, Uint63.of_Z_spec.
    rewrite Z.mod_small by (change Uint63.wB with (2 ^ 63); lia).
    destruct (Z.eq_dec M 0) as [->|HM0].
    { cbn in Hdef. subst n. reflexivity. }
    assert (Ht63 : t < 63).
    { apply pow2_lt_inv. nia. }
    change (0 + 1074) with 1074.
    pose proof (rnds_exact false (Z.abs M) (t + 1074) ltac:(lia) ltac:(lia))
      as Hr.
    cbn [sgn] in Hr.
    assert (Hn' : n * UNIT = Z.abs M * 2 ^ (t + 1074)).
    { rewrite Hdef, pow2_split by lia. unfold UNIT. ring. }
    rewrite Hn', <- Hr.
    transitivity (rnds (n * 2 ^ 1074) (1074 - 1074)).
    { symmetry. apply rnds_scale. lia. }
    fold UNIT. now rewrite Hn'. }
  unfold JS.of_Z, fv, fnn.
  destruct (Z.ltb_spec (M * 2 ^ t) 0) as [Hneg|Hnonneg].
  - destruct (Hconv (- (M * 2 ^ t))) as [Hval Hnn]; [lia | nia |].
    rewrite opp_spec, Zv_opp, Hval. split; [ring|].
    unfold not_nan in *.
    destruct (Prim2SF (PrimFloat.of_uint63 _)); cbn [SFopp]; congruence.
  - apply Hconv; [lia | nia].
Qed.

Lemma of_Z_small_fv (n : Z) :
  Z.abs n < 2 ^ 53 -> fv (JS.of_Z n) = n * UNIT /\ fnn (JS.of_Z n).
Proof.
  intros Hn. pose proof (of_Z_fv n 0 Hn ltac:(lia)) as H.
  change (2 ^ 0) with 1 in H. rewrite !Z.mul_1_r in H. apply H. lia.
Qed.

(** The quotient of two numbers whose exact quotient [M * 2^K] is a
    binary64 number. *)
Lemma div_exact_fv (x y : float) (M K : Z) :
  fnn x -> fnn y -> Z.abs (fv x) < INF -> 0 < fv y < INF ->
  0 < M < 2 ^ 53 -> 0 <= K <= 2045 ->
  Z.abs (fv x) * UNIT = M * 2 ^ K * fv y ->
  fv (PrimFloat.div x y) = Z.sgn (fv x) * (M * 2 ^ K)
  /\ fnn (PrimFloat.div x y).
Proof.
  intros Hx Hy Hxfin Hyfin HM HK Heq.
  assert (Hpos : 0 < 2 ^ K) by (apply pow2_pos; lia).
  pose proof UNIT_pos as HU.
  assert (Hxnz : fv x <> 0) by nia.
  destruct (finite_nonzero x Hx Hxnz Hxfin) as (sx & mx & ex & Hsx & Hvx & Hfx).
  destruct (finite_nonzero y Hy ltac:(lia) ltac:(lia))
    as (sy & my & ey & Hsy & Hvy & Hfy).
  destruct (valid_finite_bounds _ _ _ Hvx) as (Hex & _ & _).
  destruct (valid_finite_bounds _ _ _ Hvy) as (Hey & _ & _).
  pose proof (finite_Zv_bounds _ _ _ Hvx) as Hbx.
  pose proof (finite_Zv_bounds _ _ _ Hvy) as Hby.
  assert (Hsyf : sy = false).
  { destruct sy; [cbn [sgn] in Hfy; lia | reflexivity]. }
  subst sy. cbn [sgn] in Hfy.
  destruct (SFdiv_exact_Zv sx false mx my ex ey M K) as [Hval Hnn];
    try lia.
  { rewrite <- Hfy, <- Heq, Hfx. destruct sx; cbn [sgn]; lia. }
  rewrite Hfx. unfold fv, fnn. rewrite div_spec, Hsx, Hsy.
  split; [|exact Hnn].
  unfold SF64div. rewrite Hval, xorb_false_r.
  destruct sx; cbn [sgn].
  - rewrite Z.sgn_neg by lia. ring.
  - rewrite Z.sgn_pos by lia. ring.
Qed.

(** [Math.round] of a finite number, as an integer. *)
Lemma Math_round_Z_fv (x : float) :
  Z.abs (fv x) < INF ->
  JS.Math_round_Z x = (2 * fv x + UNIT) / (2 * UNIT).
Proof.
  unfold JS.Math_round_Z, fv. intros Hfin.
  pose proof (Prim2SF_valid x) as Hv.
  pose proof UNIT_pos as HU.
  pose proof INF_pos as HI.
  destruct (Prim2SF x) as [s|s| |s m e]; cbn [Zv] in *.
  - symmetry. apply Z.div_small. lia.
  - destruct s; cbn [sgn] in Hfin; lia.
  - symmetry. apply Z.div_small. lia.
  - destruct (valid_finite_bounds _ _ _ Hv) as (He & _ & _).
    unfold JS.round_half_up.
    set (sm := if s then Z.neg m else Z.pos m).
    assert (Hsm : sgn s (Z.pos m * 2 ^ (e + 1074)) = sm * 2 ^ (e + 1074)).
    { subst sm. destruct s; cbn [sgn]; lia. }
    rewrite Hsm.
    destruct (Z.leb_spec 0 e) as [Hnonneg|Hneg].
    + rewrite (pow2_split e 1074) by lia. fold UNIT.
      replace (2 * (sm * (2 ^ e * UNIT)) + UNIT)
        with (sm * 2 ^ e * (2 * UNIT) + UNIT) by ring.
      rewrite Z.div_add_l by lia.
      rewrite (Z.div_small UNIT) by lia. lia.
    + rewrite Z.shiftr_div_pow2 by lia.
      assert (Hnum : 2 * (sm * 2 ^ (e + 1074)) + UNIT
                     = (sm + 2 ^ (- e - 1)) * 2 ^ (e + 1075)).
      { rewrite Z.mul_add_distr_r.
        rewrite <- (pow2_split (- e - 1) (e + 1075)) by lia.
        replace (- e - 1 + (e + 1075)) with 1074 by lia.
        change (2 ^ 1074) with UNIT.
        replace (e + 1075) with (1 + (e + 1074)) by lia.
        rewrite (pow2_split 1 (e + 1074)) by lia.
        change (2 ^ 1) with 2. ring. }
      assert (Hden : 2 * UNIT = 2 ^ (- e) * 2 ^ (e + 1075)).
      { rewrite <- pow2_split by lia.
        replace (- e + (e + 1075)) with 1075 by lia. reflexivity. }
      rewrite Hnum, Hden.
      rewrite Z.div_mul_cancel_r;
        [reflexivity | | ];
        apply Z.neq_sym, Z.lt_neq, pow2_pos; lia.
Qed.

Lemma scaled_lt_INF (n : Z) : Z.abs n < 2 ^ 63 -> Z.abs (n * UNIT) < INF.
Proof.
  intros Hn. pose proof UNIT_pos as HU.
  rewrite Z.abs_mul, (Z.abs_eq UNIT) by lia.
  change INF with (2 ^ (63 + 2037)). unfold UNIT.
  apply mul_pow2_lt; lia.
Qed.

Lemma is_zero_fv (x : float) : fnn x -> fv x = 0 -> is_zero x.
Proof.
  unfold fnn, not_nan, fv, is_zero. intros Hn Hz.
  pose proof (Prim2SF_valid x) as Hv. pose proof INF_pos as HI.
  destruct (Prim2SF x) as [s|s| |s m e]; cbn [Zv] in *; try congruence.
  - now exists s.
  - destruct s; cbn [sgn] in Hz; lia.
  - pose proof (finite_Zv_bounds _ _ _ Hv). destruct s; cbn [sgn] in Hz; lia.
Qed.

Lemma fv_is_zero (x : float) : is_zero x -> fv x = 0 /\ fnn x.
Proof.
  intros [s Hs]. unfold fv, fnn, not_nan. rewrite Hs. now split.
Qed.

Lemma div_zero (x y : float) :
  is_zero x -> fnn y -> 0 < fv y < INF -> is_zero (PrimFloat.div x y).
Proof.
  intros [s Hs] Hy Hfy.
  destruct (finite_nonzero y Hy ltac:(lia) ltac:(lia))
    as (sy & my & ey & Hsy & _ & _).
  exists (xorb s sy). now rewrite div_spec, Hs, Hsy.
Qed.

(** The quotient of two integers that divide exactly. *)
Lemma div_integers_fv (x y : float) (q b : Z) :
  fnn x -> fnn y -> fv x = q * b * UNIT -> fv y = b * UNIT ->
  0 < b < 2 ^ 63 -> Z.abs (q * b) < 2 ^ 63 -> Z.abs q < 2 ^ 53 ->
  fv (PrimFloat.div x y) = q * UNIT /\ fnn (PrimFloat.div x y).
Proof.
  intros Hx Hy Hfx Hfy Hb Hqb Hq.
  pose proof UNIT_pos as HU.
  assert (Hyfin : 0 < fv y < INF).
  { pose proof (scaled_lt_INF b ltac:(lia)) as H.
    rewrite <- Hfy in H. nia. }
  destruct (Z.eq_dec q 0) as [->|Hq0].
  - apply fv_is_zero. apply div_zero; [|assumption..].
    apply is_zero_fv; [assumption | now rewrite Hfx].
  - destruct (div_exact_fv x y (Z.abs q) 1074) as [Hval Hnn];
      try assumption; try lia.
    + rewrite Hfx. now apply scaled_lt_INF.
    + rewrite Hfx, Hfy. fold UNIT. rewrite !Z.abs_mul.
      rewrite (Z.abs_eq UNIT), (Z.abs_eq b) by lia. ring.
    + split; [|exact Hnn]. rewrite Hval, Hfx. fold UNIT.
      rewrite !Z.sgn_mul, (Z.sgn_pos b), (Z.sgn_pos UNIT) by lia.
      destruct (Z.lt_trichotomy q 0) as [Hneg|[Hz|Hpos]]; [|lia|].
      * rewrite Z.sgn_neg, Z.abs_neq by lia. ring.
      * rewrite Z.sgn_pos, Z.abs_eq by lia. ring.
Qed.

Lemma round_integer (d : Z) : (2 * (d * UNIT) + UNIT) / (2 * UNIT) = d.
Proof.
  pose proof UNIT_pos as HU.
  replace (2 * (d * UNIT) + UNIT) with (d * (2 * UNIT) + UNIT) by ring.
  rewrite Z.div_add_l, (Z.div_small UNIT) by lia. lia.
Qed.

Lemma Math_round_Z_integer (x : float) (d : Z) :
  fv x = d * UNIT -> Z.abs d < 2 ^ 63 -> JS.Math_round_Z x = d.
Proof.
  intros Hx Hd. rewrite Math_round_Z_fv, Hx; [apply round_integer|].
  rewrite Hx. now apply scaled_lt_INF.
Qed.

(** ** Cycle lengths are exact day differences *)

Lemma days_between_new_Date (a b : Z) :
  Z.abs (b - a) < 2 ^ 36 ->
  Shared.days_between (new_Date a) (new_Date b) = b - a.
Proof.
  intros Hd. unfold Shared.days_between, new_Date.
  replace (b * MS_PER_DAY - a * MS_PER_DAY)
    with ((b - a) * 84375 * 2 ^ 10)
    by (change MS_PER_DAY with 86400000; change (2 ^ 10) with 1024; ring).
  set (d := b - a) in *.
  destruct (of_Z_fv (d * 84375) 10) as [Hn Hnn]; [lia | lia | lia |].
  destruct (of_Z_small_fv MS_PER_DAY) as [Hm Hmn];
    [change MS_PER_DAY with 86400000; lia|].
  apply Math_round_Z_integer; [|lia].
  apply (div_integers_fv _ _ d MS_PER_DAY); try assumption.
  - rewrite Hn. change MS_PER_DAY with 86400000.
    change (2 ^ 10) with 1024. ring.
  - change MS_PER_DAY with 86400000. lia.
  - change MS_PER_DAY with 86400000. lia.
  - lia.
Qed.

(** ** Sums and differences of finite numbers *)

Lemma cond_Zopp_sgn (s : bool) (v : Z) : cond_Zopp s v = sgn s v.
Proof. now destruct s. Qed.

Lemma sgn_mul (s : bool) (v w : Z) : sgn s v * w = sgn s (v * w).
Proof. destruct s; cbn [sgn]; ring. Qed.

Lemma aligned_value (m : positive) (e ez : Z) :
  -1074 <= ez -> ez <= e ->
  Z.pos m * 2 ^ (e - ez) * 2 ^ (ez + 1074) = Z.pos m * 2 ^ (e + 1074).
Proof.
  intros H1 H2. rewrite <- Z.mul_assoc, <- pow2_split by lia.
  do 2 f_equal. lia.
Qed.

Lemma Zv_finite_rnds (s : bool) (m : positive) (e : Z) :
  valid_binary (S754_finite s m e) = true ->
  rnds (sgn s (Z.pos m * 2 ^ (e + 1074))) 0
  = sgn s (Z.pos m * 2 ^ (e + 1074)).
Proof.
  intros Hv. destruct (valid_finite_bounds _ _ _ Hv) as (He & Hm & _).
  apply rnds_exact; lia.
Qed.

Lemma SFadd_finite_Zv (sx sy : bool) (mx my : positive) (ex ey : Z) :
  -1074 <= ex -> -1074 <= ey ->
  Zv (SFadd prec emax (S754_finite sx mx ex) (S754_finite sy my ey))
  = rnds (sgn sx (Z.pos mx * 2 ^ (ex + 1074))
          + sgn sy (Z.pos my * 2 ^ (ey + 1074))) 0.
Proof.
  intros Hex Hey. cbn [SFadd]. rewrite binary_normalize_Zv.
  set (ez := Z.min ex ey).
  destruct (shl_align_value mx ex ez ltac:(lia)) as [HA _].
  destruct (shl_align_value my ey ez ltac:(lia)) as [HB _].
  rewrite HA, HB, !cond_Zopp_sgn.
  set (D := sgn sx (Z.pos mx * 2 ^ (ex - ez))
            + sgn sy (Z.pos my * 2 ^ (ey - ez))).
  transitivity (rnds (D * 2 ^ (ez + 1074)) ((ez + 1074) - (ez + 1074))).
  { symmetry. apply rnds_scale. lia. }
  rewrite Z.sub_diag. f_equal. subst D.
  rewrite Z.mul_add_distr_r, !sgn_mul, !aligned_value by lia. reflexivity.
Qed.

Lemma SFsub_finite_Zv (sx sy : bool) (mx my : positive) (ex ey : Z) :
  -1074 <= ex -> -1074 <= ey ->
  Zv (SFsub prec emax (S754_finite sx mx ex) (S754_finite sy my ey))
  = rnds (sgn sx (Z.pos mx * 2 ^ (ex + 1074))
          - sgn sy (Z.pos my * 2 ^ (ey + 1074))) 0.
Proof.
  intros Hex Hey. cbn [SFsub]. rewrite binary_normalize_Zv.
  set (ez := Z.min ex ey).
  destruct (shl_align_value mx ex ez ltac:(lia)) as [HA _].
  destruct (shl_align_value my ey ez ltac:(lia)) as [HB _].
  rewrite HA, HB, !cond_Zopp_sgn.
  set (D := sgn sx (Z.pos mx * 2 ^ (ex - ez))
            - sgn sy (Z.pos my * 2 ^ (ey - ez))).
  transitivity (rnds (D * 2 ^ (ez + 1074)) ((ez + 1074) - (ez + 1074))).
  { symmetry. apply rnds_scale. lia. }
  rewrite Z.sub_diag. f_equal. subst D.
  rewrite Z.mul_sub_distr_r, !sgn_mul, !aligned_value by lia. reflexivity.
Qed.

Lemma ffin_cases (x : float) :
  ffin x ->
  (exists s, Prim2SF x = S754_zero s)
  \/ (exists s m e,
         Prim2SF x = S754_finite s m e
         /\ valid_binary (S754_finite s m e) = true).
Proof.
  intros [Hn Hfin]. unfold fnn, not_nan, fv in *.
  pose proof (Prim2SF_valid x) as Hv. pose proof INF_pos as HI.
  destruct (Prim2SF x) as [s|s| |s m e]; cbn [Zv] in *; try congruence.
  - left. now exists s.
  - destruct s; cbn [sgn] in Hfin; lia.
  - right. now exists s, m, e.
Qed.

Lemma add_fv (x y : float) :
  ffin x -> ffin y ->
  fv (PrimFloat.add x y) = rnds (fv x + fv y) 0 /\ fnn (PrimFloat.add x y).
Proof.
  intros Hx Hy. unfold fv, fnn. rewrite add_spec. unfold SF64add.
  destruct (ffin_cases x Hx) as [[sx Ex]|(sx & mx & ex & Ex & Vx)];
    destruct (ffin_cases y Hy) as [[sy Ey]|(sy & my & ey & Ey & Vy)];
    rewrite Ex, Ey.
  - cbn [SFadd Zv]. split; [|destruct sx, sy; discriminate].
    now destruct sx, sy.
  - cbn [SFadd Zv]. split; [|discriminate].
    rewrite Z.add_0_l. symmetry. now apply Zv_finite_rnds.
  - cbn [SFadd Zv]. split; [|discriminate].
    rewrite Z.add_0_r. symmetry. now apply Zv_finite_rnds.
  - destruct (valid_finite_bounds _ _ _ Vx) as (Hex & _ & _).
    destruct (valid_finite_bounds _ _ _ Vy) as (Hey & _ & _).
    split; [now apply SFadd_finite_Zv|].
    cbn [SFadd]. apply binary_normalize_not_nan.
Qed.

Lemma sub_fv (x y : float) :
  ffin x -> ffin y ->
  fv (PrimFloat.sub x y) = rnds (fv x - fv y) 0 /\ fnn (PrimFloat.sub x y).
Proof.
  intros Hx Hy. unfold fv, fnn. rewrite sub_spec. unfold SF64sub.
  destruct (ffin_cases x Hx) as [[sx Ex]|(sx & mx & ex & Ex & Vx)];
    destruct (ffin_cases y Hy) as [[sy Ey]|(sy & my & ey & Ey & Vy)];
    rewrite Ex, Ey.
  - cbn [SFsub Zv]. split; [|destruct sx, sy; discriminate].
    now destruct sx, sy.
  - cbn [SFsub Zv]. split; [|discriminate].
    rewrite Z.sub_0_l.
    replace (- sgn sy (Z.pos my * 2 ^ (ey + 1074)))
      with (sgn (negb sy) (Z.pos my * 2 ^ (ey + 1074)))
      by (destruct sy; cbn [sgn negb]; lia).
    symmetry. apply Zv_finite_rnds. exact Vy.
  - cbn [SFsub Zv]. split; [|discriminate].
    rewrite Z.sub_0_r. symmetry. now apply Zv_finite_rnds.
  - destruct (valid_finite_bounds _ _ _ Vx) as (Hex & _ & _).
    destruct (valid_finite_bounds _ _ _ Vy) as (Hey & _ & _).
    split; [now apply SFsub_finite_Zv|].
    cbn [SFsub]. apply binary_normalize_not_nan.
Qed.

(** Integers add exactly below [2^53]. *)
Lemma add_integers_fv (x y : float) (a b : Z) :
  fnn x -> fnn y -> fv x = a * UNIT -> fv y = b * UNIT ->
  Z.abs a < 2 ^ 53 -> Z.abs b < 2 ^ 53 -> Z.abs (a + b) < 2 ^ 53 ->
  fv (PrimFloat.add x y) = (a + b) * UNIT /\ fnn (PrimFloat.add x y).
Proof.
  intros Hx Hy Hfx Hfy Ha Hb Hab.
  destruct (add_fv x y) as [Hval Hnn].
  { split; [exact Hx|]. rewrite Hfx. apply scaled_lt_INF. lia. }
  { split; [exact Hy|]. rewrite Hfy. apply scaled_lt_INF. lia. }
  split; [|exact Hnn]. rewrite Hval, Hfx, Hfy, <- Z.mul_add_distr_r.
  destruct (Z.lt_trichotomy (a + b) 0) as [Hneg|[->|Hpos]].
  - pose proof (rnds_exact true (- (a + b)) 1074 ltac:(lia) ltac:(lia)) as H.
    cbn [sgn] in H. fold UNIT in H.
    replace (- (- (a + b) * UNIT)) with ((a + b) * UNIT) in H by ring.
    exact H.
  - reflexivity.
  - pose proof (rnds_exact false (a + b) 1074 ltac:(lia) ltac:(lia)) as H.
    exact H.
Qed.

(** The difference of two equal numbers is a zero. *)
Lemma sub_equal_zero (x y : float) :
  ffin x -> ffin y -> fv x = fv y -> is_zero (PrimFloat.sub x y).
Proof.
  intros Hx Hy Heq. destruct (sub_fv x y Hx Hy) as [Hval Hnn].
  apply is_zero_fv; [exact Hnn|].
  rewrite Hval, Heq, Z.sub_diag. reflexivity.
Qed.

Lemma mul_zero_zero (x y : float) :
  is_zero x -> is_zero y -> is_zero (PrimFloat.mul x y).
Proof.
  intros [sx Ex] [sy Ey]. exists (xorb sx sy).
  now rewrite mul_spec, Ex, Ey.
Qed.


Lemma add_zero_zero (x y : float) :
  is_zero x -> is_zero y -> is_zero (PrimFloat.add x y).
Proof.
  intros [sx Ex] [sy Ey]. unfold is_zero.
  rewrite add_spec, Ex, Ey. unfold SF64add. cbn [SFadd].
  destruct sx, sy; eauto.
Qed.

Lemma div_zero_integer (x y : float) (b : Z) :
  is_zero x -> fnn y -> fv y = b * UNIT -> 0 < b < 2 ^ 63 ->
  is_zero (PrimFloat.div x y).
Proof.
  intros Hx Hy Hfy Hb. pose proof UNIT_pos as HU.
  apply div_zero; [assumption..|].
  pose proof (scaled_lt_INF b ltac:(lia)) as H.
  rewrite <- Hfy in H. nia.
Qed.

Lemma sqrt_zero (x : float) : is_zero x -> is_zero (JS.Math_sqrt x).
Proof.
  intros [s Es]. exists s. unfold JS.Math_sqrt.
  now rewrite sqrt_spec, Es.
Qed.

Lemma ffin_integer (x : float) (a : Z) :
  fnn x -> fv x = a * UNIT -> Z.abs a < 2 ^ 63 -> ffin x.
Proof.
  intros Hx Hfx Ha. split; [exact Hx|]. rewrite Hfx.
  now apply scaled_lt_INF.
Qed.

Lemma UNIT_HALF : UNIT = 2 * HALF.
Proof. reflexivity. Qed.

(** Half of an integer, rounded by [Math.round]. *)
Lemma Math_round_Z_half (x y : float) (S : Z) :
  fnn x -> fnn y -> fv x = S * UNIT -> fv y = 2 * UNIT ->
  Z.abs S < 2 ^ 53 ->
  JS.Math_round_Z (PrimFloat.div x y) = (S + 1) / 2.
Proof.
  intros Hx Hy Hfx Hfy HS. pose proof UNIT_pos as HU.
  pose proof UNIT_HALF as HH.
  assert (Hyfin : 0 < fv y < INF).
  { pose proof (scaled_lt_INF 2 ltac:(lia)) as H.
    rewrite <- Hfy in H. lia. }
  assert (Hq : fv (PrimFloat.div x y) = S * HALF).
  { destruct (Z.eq_dec S 0) as [->|HS0].
    - apply fv_is_zero, div_zero; [|assumption..].
      apply is_zero_fv; [assumption | now rewrite Hfx].
    - destruct (div_exact_fv x y (Z.abs S) 1073) as [Hval _];
        try assumption; try lia.
      + rewrite Hfx. apply scaled_lt_INF. lia.
      + rewrite Hfx, Hfy. fold HALF. rewrite Z.abs_mul.
        rewrite (Z.abs_eq UNIT) by lia. rewrite HH at 2. ring.
      + rewrite Hval, Hfx. fold HALF.
        rewrite Z.sgn_mul, (Z.sgn_pos UNIT) by lia.
        destruct (Z.lt_trichotomy S 0) as [Hneg|[Hz|Hpos]]; [|lia|].
        * rewrite Z.sgn_neg, Z.abs_neq by lia. ring.
        * rewrite Z.sgn_pos, Z.abs_eq by lia. ring. }
  rewrite Math_round_Z_fv, Hq.
  - replace (2 * (S * HALF) + UNIT) with ((S + 1) * UNIT)
      by (rewrite HH; ring).
    apply Z.div_mul_cancel_r; lia.
  - rewrite Hq.
    pose proof (scaled_lt_INF S ltac:(lia)) as H.
    rewrite Z.abs_mul in *. rewrite (Z.abs_eq UNIT) in H by lia.
    assert (0 < HALF) by lia. rewrite (Z.abs_eq HALF) by lia. nia.
Qed.

Lemma fv_two : fv 2%float = 2 * UNIT /\ fnn 2%float.
Proof. split; [reflexivity | discriminate]. Qed.

(** ** The statistics on exact integers *)

Lemma total_nonneg (l : list Z) : Forall (fun v => 0 <= v) l -> 0 <= total l.
Proof.
  induction 1 as [|v l Hv _ IH]; cbn [total fold_right]; [lia|].
  fold (total l). lia.
Qed.

Lemma is_zero_0 : is_zero 0%float.
Proof. now exists false. Qed.

(** The running sum of the cycle lengths is exact. *)
Lemma sum_loop_fv (l : list Z) :
  Forall (fun v => 0 <= v) l ->
  forall (acc : float) (A : Z),
    fnn acc -> fv acc = A * UNIT -> 0 <= A -> A + total l < 2 ^ 53 ->
    fv (fold_left (fun sum val => PrimFloat.add sum (JS.of_Z val)) l acc)
    = (A + total l) * UNIT
    /\ fnn (fold_left (fun sum val => PrimFloat.add sum (JS.of_Z val)) l acc).
Proof.
  induction 1 as [|v l Hv Hl IH]; intros acc A Hacc Hfv HA Hsum;
    cbn [fold_left total fold_right] in *.
  - rewrite Z.add_0_r. now split.
  - fold (total l) in *. pose proof (total_nonneg l Hl) as Ht.
    destruct (of_Z_small_fv v ltac:(lia)) as [Hv1 Hv2].
    destruct (add_integers_fv acc (JS.of_Z v) A v) as [Hs1 Hs2];
      try assumption; try lia.
    destruct (IH _ (A + v) Hs2 Hs1 ltac:(lia) ltac:(lia)) as [H1 H2].
    split; [|exact H2]. rewrite H1. f_equal. lia.
Qed.

Lemma sum_lengths_fv (l : list Z) :
  Forall (fun v => 0 <= v) l -> total l < 2 ^ 53 ->
  fv (Shared.sum_lengths l) = total l * UNIT /\ fnn (Shared.sum_lengths l).
Proof.
  intros Hl Hsum. unfold Shared.sum_lengths.
  destruct (sum_loop_fv l Hl 0%float 0) as [H1 H2];
    [discriminate | reflexivity | lia | lia |].
  split; [exact H1 | exact H2].
Qed.

Lemma average_unfold (l : list Z) :
  l <> [] ->
  average (Shared.calculateCycleStats l)
  = PrimFloat.div (Shared.sum_lengths l) (JS.of_Z (Z.of_nat (length l))).
Proof.
  intros Hne. unfold Shared.calculateCycleStats.
  destruct l as [|x [|y rest]]; [contradiction| |]; reflexivity.
Qed.

Lemma stdDev_unfold (l : list Z) :
  (2 <= length l)%nat ->
  stdDev (Shared.calculateCycleStats l)
  = JS.Math_sqrt
      (PrimFloat.div
         (Shared.sum_sq_dev l (average (Shared.calculateCycleStats l)))
         (JS.of_Z (Z.of_nat (length l) - 1))).
Proof.
  intros Hlen. unfold Shared.calculateCycleStats.
  destruct l as [|x [|y rest]]; [cbn in Hlen; lia | cbn in Hlen; lia |].
  reflexivity.
Qed.

Lemma total_constant (L : Z) (l : list Z) :
  Forall (fun v => v = L) l -> total l = Z.of_nat (length l) * L.
Proof.
  induction 1 as [|v l Hv _ IH]; cbn [total fold_right length]; [lia|].
  fold (total l). rewrite IH, Hv. lia.
Qed.

(** The mean of equal lengths is that length. *)
Lemma average_constant (L : Z) (l : list Z) :
  l <> [] -> Forall (fun v => v = L) l ->
  0 <= L -> Z.of_nat (length l) < 2 ^ 53 ->
  Z.of_nat (length l) * L < 2 ^ 53 ->
  fv (average (Shared.calculateCycleStats l)) = L * UNIT
  /\ fnn (average (Shared.calculateCycleStats l)).
Proof.
  intros Hne Hall HL Hn53 Hsum. rewrite average_unfold by exact Hne.
  assert (Hn : 0 < Z.of_nat (length l)) by (destruct l; cbn; [easy | lia]).
  assert (Hnn : Forall (fun v => 0 <= v) l).
  { eapply Forall_impl; [|exact Hall]. cbn. intros v ->. exact HL. }
  pose proof (total_constant L l Hall) as Ht.
  destruct (sum_lengths_fv l Hnn ltac:(lia)) as [Hs1 Hs2].
  destruct (of_Z_small_fv (Z.of_nat (length l)) ltac:(lia)) as [Hd1 Hd2].
  apply (div_integers_fv _ _ L (Z.of_nat (length l))); try assumption.
  - rewrite Hs1, Ht. ring.
  - lia.
  - nia.
  - nia.
Qed.

(** ** Cycle lengths of a log with valid dates *)

Lemma calculateCycleLengths_new_Date (days : list Z) :
  Forall valid_day days ->
  Shared.calculateCycleLengths (map new_Date days) = day_differences days.
Proof.
  induction 1 as [|a rest Ha Hrest IH]; [reflexivity|].
  destruct rest as [|b rest]; [reflexivity|].
  change (Shared.days_between (new_Date a) (new_Date b)
          :: Shared.calculateCycleLengths (map new_Date (b :: rest))
          = (b - a) :: day_differences (b :: rest)).
  rewrite IH. f_equal. apply days_between_new_Date.
  inversion Hrest as [|? ? Hb _]; subst. unfold valid_day in *.
  change (2 ^ 36) with 68719476736. lia.
Qed.

(** The cycle starts are midnights of entry dates. *)
Lemma identifyCycleStarts_days (entries : list CycleEntry) :
  let starts := Shared.identifyCycleStarts entries in
  starts = map new_Date (map toISODate starts)
  /\ Forall (fun d => exists e, In e entries /\ entry_date e = d)
            (map toISODate starts).
Proof.
  cbv zeta.
  assert (Hin : forall d, In d (Shared.identifyCycleStarts entries) ->
                          exists e, In e entries
                                    /\ new_Date (entry_date e) = d).
  { rewrite identifyCycleStarts_segment. intros d Hd.
    destruct (segment_In _ _ _ Hd) as (x & Hx & _ & Hdx).
    apply (Permutation_in _ (Permutation_sym (sort_by_date_perm _))) in Hx.
    apply in_map_iff in Hx. destruct Hx as (e & <- & He).
    now exists e. }
  induction (Shared.identifyCycleStarts entries) as [|d starts IH];
    [split; [reflexivity | constructor]|].
  destruct IH as [IH1 IH2]; [intros d' Hd'; apply Hin; now right|].
  destruct (Hin d (or_introl eq_refl)) as (e & He & Hd).
  cbn [map]. split.
  - rewrite <- IH1. f_equal. now rewrite <- Hd, toISODate_new_Date.
  - constructor; [|exact IH2].
    exists e. split; [exact He|]. now rewrite <- Hd, toISODate_new_Date.
Qed.

Lemma identifyCycleStarts_valid_days (entries : list CycleEntry) :
  valid_dates entries ->
  Forall valid_day (map toISODate (Shared.identifyCycleStarts entries)).
Proof.
  intros Hvalid. destruct (identifyCycleStarts_days entries) as [_ Hdays].
  eapply Forall_impl; [|exact Hdays]. cbn.
  intros d (e & He & <-). unfold valid_dates in Hvalid.
  rewrite Forall_forall in Hvalid. now apply Hvalid.
Qed.

Lemma sorted_days (R : Z -> Z -> Prop) (days : list Z) :
  (forall a b, R (new_Date a) (new_Date b) -> R a b) ->
  StronglySorted R (map new_Date days) -> StronglySorted R days.
Proof.
  intros HR. induction days as [|a days IH]; cbn [map]; intros Hs;
    [constructor|].
  apply StronglySorted_inv in Hs. destruct Hs as [Hs Hall].
  constructor; [now apply IH|].
  rewrite Forall_forall in *. intros b Hb. apply HR, Hall.
  now apply in_map.
Qed.

Lemma day_differences_sorted (R : Z -> Z -> Prop) (P : Z -> Prop)
      (days : list Z) :
  (forall a b, R a b -> P (b - a)) ->
  StronglySorted R days -> Forall P (day_differences days).
Proof.
  intros HP. induction 1 as [|a rest Hs IH Hall]; [constructor|].
  destruct rest as [|b rest]; [constructor|].
  change (Forall P ((b - a) :: day_differences (b :: rest))).
  constructor; [|exact IH].
  apply HP. rewrite Forall_forall in Hall. apply Hall. now left.
Qed.

Lemma new_Date_le (a b : Z) : new_Date a <= new_Date b -> a <= b.
Proof. unfold new_Date. pose proof MS_PER_DAY_pos. nia. Qed.

(** X21. For a log whose dates are valid JavaScript dates, the cycle
    lengths are the exact differences, in days, between consecutive cycle
    starts: the division of the millisecond difference and [Math.round]
    lose nothing.  No cycle length is negative. *)
Theorem calculateCycleLengths_exact (entries : list CycleEntry) :
  valid_dates entries ->
  let starts := Shared.identifyCycleStarts entries in
  Shared.calculateCycleLengths starts
  = day_differences (map toISODate starts)
  /\ Forall (fun L => 0 <= L) (Shared.calculateCycleLengths starts).
Proof.
  intros Hvalid. cbv zeta.
  destruct (identifyCycleStarts_days entries) as [Hstarts _].
  pose proof (identifyCycleStarts_valid_days entries Hvalid) as Hdays.
  assert (Heq : Shared.calculateCycleLengths
                  (Shared.identifyCycleStarts entries)
                = day_differences
                    (map toISODate (Shared.identifyCycleStarts entries))).
  { rewrite Hstarts at 1. now apply calculateCycleLengths_new_Date. }
  split; [exact Heq|]. rewrite Heq.
  apply (day_differences_sorted Z.le); [intros a b; lia|].
  apply sorted_days; [exact new_Date_le|]. rewrite <- Hstarts.
  rewrite identifyCycleStarts_segment.
  apply segment_sorted, sort_by_date_sorted.
Qed.

Lemma calculateCycleLengths_exact_witness :
  let starts := Shared.identifyCycleStarts four_regular_starts in
  Shared.calculateCycleLengths starts
  = day_differences (map toISODate starts)
  /\ Forall (fun L => 0 <= L) (Shared.calculateCycleLengths starts).
Proof.
  apply calculateCycleLengths_exact.
  unfold valid_dates, valid_day, four_regular_starts, entry.
  repeat constructor; cbn; lia.
Defined.

(** X22. With valid and pairwise distinct dates every cycle length is at
    least one day. *)
Theorem calculateCycleLengths_positive (entries : list CycleEntry) :
  valid_dates entries ->
  NoDup (map entry_date entries) ->
  Forall (fun L => 1 <= L)
         (Shared.calculateCycleLengths (Shared.identifyCycleStarts entries)).
Proof.
  intros Hvalid Hnd.
  destruct (identifyCycleStarts_days entries) as [Hstarts _].
  pose proof (identifyCycleStarts_valid_days entries Hvalid) as Hdays.
  rewrite Hstarts at 1. rewrite calculateCycleLengths_new_Date by exact Hdays.
  apply (day_differences_sorted Z.lt); [intros a b; lia|].
  apply sorted_days; [intros a b; apply new_Date_lt|]. rewrite <- Hstarts.
  rewrite identifyCycleStarts_segment.
  apply segment_sorted, sorted_nodup_strict.
  - apply sort_by_date_sorted.
  - unfold dates_of.
    eapply Permutation_NoDup;
      [apply Permutation_map, sort_by_date_perm|].
    now apply dates_of_with_date.
Qed.

Lemma calculateCycleLengths_positive_witness :
  Forall (fun L => 1 <= L)
         (Shared.calculateCycleLengths
            (Shared.identifyCycleStarts shuffled_entries)).
Proof.
  apply calculateCycleLengths_positive.
  - unfold valid_dates, valid_day, shuffled_entries, entry.
    repeat constructor; cbn; lia.
  - cbn. repeat constructor; cbn; intuition discriminate.
Defined.

(** ** The projected dates *)

Lemma predictCycle_measured (tz : TimeZone)
      (now : Date) (cycleEntries : list CycleEntry)
      (profile : UserProfile) (maxEntriesToAnalyze : Z) :
  let samples := samples_of cycleEntries maxEntriesToAnalyze in
  let r := Shared.predictCycle tz now cycleEntries profile maxEntriesToAnalyze in
  samples <> [] ->
  next_period_start r
  = addDays tz (last (starts_of cycleEntries maxEntriesToAnalyze) now)
            (JS.Math_round_Z (average (Shared.calculateCycleStats samples)))
  /\ source r = (if (3 <=? length samples)%nat then historical else hybrid)
  /\ cycles_analyzed (metadata r) = length samples.
Proof.
  cbv zeta. unfold samples_of, starts_of, Shared.predictCycle.
  set (starts := Shared.identifyCycleStarts _).
  set (samples := Shared.calculateCycleLengths starts).
  intros Hne.
  pose proof (calculateCycleLengths_length starts) as Hlen.
  fold samples in Hlen.
  assert (0 < length samples)%nat by (destruct samples; cbn; [easy | lia]).
  replace (2 <=? length starts)%nat with true
    by (symmetry; apply Nat.leb_le; lia).
  destruct (3 <=? length samples)%nat; cbv beta iota zeta;
    cbn [next_period_start source metadata cycles_analyzed];
    repeat split.
Qed.

(** X23. On a host whose offset from UTC never changes, the fertility
    window is placed around half of the predicted cycle length, halves
    rounded up: it starts five days before and ends one day after the day
    [anchor + floor((L + 1) / 2)], where [L] is the distance from the anchor
    day to the predicted start. *)
Theorem predictCycle_fertility_window (tz : TimeZone)
        (now : Date) (cycleEntries : list CycleEntry)
        (profile : UserProfile) (maxEntriesToAnalyze : Z) :
  let r := Shared.predictCycle tz now cycleEntries profile maxEntriesToAnalyze in
  let anchor := anchor_day now cycleEntries maxEntriesToAnalyze in
  let L := next_period_start r - anchor in
  fixed_offset tz ->
  Z.abs L < 2 ^ 53 ->
  fertility_window_start r = anchor + (L + 1) / 2 - 5
  /\ fertility_window_end r = anchor + (L + 1) / 2 + 1.
Proof.
  cbv zeta. intros Hfix. unfold anchor_day, Shared.predictCycle.
  set (starts := Shared.identifyCycleStarts _).
  destruct (if (2 <=? length starts)%nat then _ else _) as [[[len c] s] m].
  cbn [next_period_start fertility_window_start fertility_window_end].
  rewrite !(addDays_fixed_offset tz _ _ Hfix).
  replace (toISODate (last starts now) + len - toISODate (last starts now))
    with len by lia.
  intros HL.
  destruct (of_Z_small_fv len HL) as [H1 H2].
  destruct fv_two as [H3 H4].
  rewrite (Math_round_Z_half _ _ len H2 H4 H1 H3 HL). lia.
Qed.

Lemma predictCycle_fertility_window_witness :
  let r := Shared.predictCycle utc_zone (new_Date 100) three_regular_starts
                               (mkProfile 29 5) 90 in
  let anchor := anchor_day (new_Date 100) three_regular_starts 90 in
  let L := next_period_start r - anchor in
  fertility_window_start r = anchor + (L + 1) / 2 - 5
  /\ fertility_window_end r = anchor + (L + 1) / 2 + 1.
Proof.
  apply predictCycle_fertility_window;
    [exact utc_zone_fixed | vm_compute; reflexivity].
Defined.

(** X24. In the hybrid tier (one or two cycle lengths) the predicted cycle
    length is the mean of the lengths, rounded half up, computed without
    rounding error: the next start is [addDays] of the last cycle start and
    [floor((2 * sum + n) / (2 * n))], which on a host whose offset from UTC
    never changes is the anchor day plus that many days. *)
Theorem predictCycle_hybrid_mean (tz : TimeZone)
        (now : Date) (cycleEntries : list CycleEntry)
        (profile : UserProfile) (maxEntriesToAnalyze : Z) :
  let samples := samples_of cycleEntries maxEntriesToAnalyze in
  let n := Z.of_nat (length samples) in
  let r := Shared.predictCycle tz now cycleEntries profile maxEntriesToAnalyze in
  (1 <= length samples <= 2)%nat ->
  Forall (fun L => 0 <= L < 2 ^ 52) samples ->
  source r = hybrid
  /\ next_period_start r
     = addDays tz (last (starts_of cycleEntries maxEntriesToAnalyze) now)
               ((2 * total samples + n) / (2 * n))
  /\ (fixed_offset tz ->
      next_period_start r
      = anchor_day now cycleEntries maxEntriesToAnalyze
        + (2 * total samples + n) / (2 * n)).
Proof.
  cbv zeta. intros Hlen Hall.
  destruct (predictCycle_measured tz now cycleEntries profile
                                  maxEntriesToAnalyze)
    as (Hstart & Hsource & _).
  { intros Hnil. rewrite Hnil in Hlen. cbn in Hlen. lia. }
  rewrite Hstart, Hsource. clear Hstart Hsource.
  unfold anchor_day. fold (starts_of cycleEntries maxEntriesToAnalyze).
  set (anchor := last (starts_of cycleEntries maxEntriesToAnalyze) now).
  set (samples := samples_of cycleEntries maxEntriesToAnalyze) in *.
  replace (3 <=? length samples)%nat with false
    by (symmetry; apply Nat.leb_gt; lia).
  assert (Hlength :
            JS.Math_round_Z (average (Shared.calculateCycleStats samples))
            = (2 * total samples + Z.of_nat (length samples))
                / (2 * Z.of_nat (length samples)));
    [|rewrite Hlength; split; [reflexivity|]; split; [reflexivity|];
      intros Hfix; now rewrite (addDays_fixed_offset tz _ _ Hfix)].
  destruct samples as [|L1 [|L2 [|L3 rest]]]; cbn [length] in Hlen; try lia.
  - inversion Hall as [|? ? HL1 _]; subst.
    destruct (average_constant L1 [L1]) as [Ha1 Ha2];
      [discriminate | constructor; [reflexivity | constructor] | lia
       | change (Z.of_nat (length [L1])) with 1; lia
       | change (Z.of_nat (length [L1])) with 1; lia |].
    rewrite (Math_round_Z_integer _ L1 Ha1) by lia.
    cbn [total fold_right length]. change (Z.of_nat 1) with 1.
    apply (Z.div_unique _ _ _ 1); lia.
  - inversion Hall as [|? ? HL1 Hall']; subst.
    inversion Hall' as [|? ? HL2 _]; subst.
    rewrite average_unfold by discriminate.
    destruct (sum_lengths_fv [L1; L2]) as [Hs1 Hs2];
      [repeat constructor; lia | cbn; lia |].
    destruct (of_Z_small_fv 2 ltac:(lia)) as [Hd1 Hd2].
    cbn [total fold_right] in Hs1. rewrite Z.add_0_r in Hs1.
    cbn [length]. change (Z.of_nat 2) with 2.
    rewrite (Math_round_Z_half _ _ (L1 + L2) Hs2 Hd2 Hs1 Hd1) by lia.
    cbn [total fold_right]. rewrite Z.add_0_r.
    replace (2 * (L1 + L2) + 2) with ((L1 + L2 + 1) * 2) by ring.
    change (2 * 2) with (2 * 2). now rewrite Z.div_mul_cancel_r by lia.
Qed.

Lemma predictCycle_hybrid_mean_witness :
  let samples := samples_of three_regular_starts 90 in
  let n := Z.of_nat (length samples) in
  let r := Shared.predictCycle utc_zone (new_Date 100) three_regular_starts
                               sample_profile 90 in
  source r = hybrid
  /\ next_period_start r
     = anchor_day (new_Date 100) three_regular_starts 90
       + (2 * total samples + n) / (2 * n).
Proof.
  assert (E : samples_of three_regular_starts 90 = [28; 28])
    by (vm_compute; reflexivity).
  destruct (predictCycle_hybrid_mean utc_zone (new_Date 100)
                                     three_regular_starts sample_profile 90)
    as (Hsource & _ & Hstart).
  - rewrite E. cbn [length]. lia.
  - rewrite E. repeat constructor; lia.
  - cbv zeta. split; [exact Hsource | exact (Hstart utc_zone_fixed)].
Defined.

(** ** A perfectly regular history *)

Lemma sum_sq_dev_constant (L : Z) (avg : float) (l : list Z) :
  Forall (fun v => v = L) l ->
  Z.abs L < 2 ^ 53 -> fnn avg -> fv avg = L * UNIT ->
  is_zero (Shared.sum_sq_dev l avg).
Proof.
  intros Hall HL Havg Hfv. unfold Shared.sum_sq_dev.
  assert (Hloop : forall acc, is_zero acc ->
            is_zero (fold_left
                       (fun sum val =>
                          PrimFloat.add
                            sum (JS.Math_pow2
                                   (PrimFloat.sub (JS.of_Z val) avg)))
                       l acc)).
  { induction Hall as [|v l Hv _ IH]; intros acc Hacc; cbn [fold_left];
      [exact Hacc|].
    apply IH. apply add_zero_zero; [exact Hacc|].
    subst v. destruct (of_Z_small_fv L HL) as [H1 H2].
    assert (Hz : is_zero (PrimFloat.sub (JS.of_Z L) avg)).
    { apply sub_equal_zero.
      - apply (ffin_integer _ L); [assumption.. | lia].
      - apply (ffin_integer _ L); [assumption.. | lia].
      - now rewrite H1, Hfv. }
    unfold JS.Math_pow2. now apply mul_zero_zero. }
  apply Hloop, is_zero_0.
Qed.

Lemma deviation_ratio_constant (L : Z) (l : list Z) :
  (2 <= length l)%nat -> Forall (fun v => v = L) l ->
  1 <= L -> Z.of_nat (length l) * L < 2 ^ 53 ->
  is_zero (deviation_ratio l).
Proof.
  intros Hlen Hall HL Hsum. unfold deviation_ratio.
  assert (Hne : l <> []) by (destruct l; [cbn in Hlen; lia | discriminate]).
  destruct (average_constant L l Hne Hall) as [Ha1 Ha2]; [lia | nia | lia |].
  apply (div_zero_integer _ _ L); [|assumption | assumption | nia].
  rewrite stdDev_unfold by exact Hlen.
  apply sqrt_zero.
  destruct (of_Z_small_fv (Z.of_nat (length l) - 1) ltac:(nia)) as [Hd1 Hd2].
  apply (div_zero_integer _ _ (Z.of_nat (length l) - 1));
    [|assumption | assumption | nia].
  apply (sum_sq_dev_constant L); [assumption | nia | assumption..].
Qed.

Lemma confidence_of_zero_ratio (ratio : float) :
  is_zero ratio ->
  Shared.round2 (confidence_of_ratio ratio) = 0.95%float.
Proof.
  intros [s Hs]. unfold confidence_of_ratio.
  assert (Hone : PrimFloat.sub 1%float (PrimFloat.mul ratio 0.5%float)
                 = 1%float).
  { apply Prim2SF_inj. rewrite sub_spec, mul_spec, Hs. reflexivity. }
  rewrite Hone. vm_compute. reflexivity.
Qed.

(** X25. A perfectly regular history is predicted exactly: when the three
    or more cycle lengths of the log are all equal to [L >= 1], the source is
    [historical], the confidence is the cap 0.95, and the next start is
    [addDays] of the last cycle start and [L], which on a host whose offset
    from UTC never changes is [L] days after the last cycle start. *)
Theorem predictCycle_regular_history (tz : TimeZone)
        (now : Date) (cycleEntries : list CycleEntry)
        (profile : UserProfile) (maxEntriesToAnalyze : Z) (L : Z) :
  let samples := samples_of cycleEntries maxEntriesToAnalyze in
  let r := Shared.predictCycle tz now cycleEntries profile maxEntriesToAnalyze in
  (3 <= length samples)%nat ->
  Forall (fun v => v = L) samples ->
  1 <= L -> Z.of_nat (length samples) * L < 2 ^ 53 ->
  source r = historical
  /\ confidence r = 0.95%float
  /\ next_period_start r
     = addDays tz (last (starts_of cycleEntries maxEntriesToAnalyze) now) L
  /\ (fixed_offset tz ->
      next_period_start r
      = anchor_day now cycleEntries maxEntriesToAnalyze + L).
Proof.
  cbv zeta. intros Hlen Hall HL Hsum.
  assert (Hne : samples_of cycleEntries maxEntriesToAnalyze <> []).
  { intros Hnil. rewrite Hnil in Hlen. cbn in Hlen. lia. }
  destruct (predictCycle_measured tz now cycleEntries profile
                                  maxEntriesToAnalyze Hne)
    as (Hstart & Hsource & _).
  rewrite Hstart, Hsource.
  replace (3 <=? length (samples_of cycleEntries maxEntriesToAnalyze))%nat
    with true by (symmetry; apply Nat.leb_le; lia).
  assert (Hlength :
            JS.Math_round_Z
              (average (Shared.calculateCycleStats
                          (samples_of cycleEntries maxEntriesToAnalyze)))
            = L).
  { destruct (average_constant L _ Hne Hall) as [Ha1 Ha2]; [lia | nia | lia |].
    apply (Math_round_Z_integer _ L Ha1). lia. }
  rewrite Hlength.
  split; [reflexivity|]. split; [|split; [reflexivity|]].
  - rewrite predictCycle_historical_confidence by exact Hlen.
    apply confidence_of_zero_ratio.
    apply (deviation_ratio_constant L); [lia | assumption..].
  - intros Hfix. now rewrite (addDays_fixed_offset tz _ _ Hfix).
Qed.

Lemma predictCycle_regular_history_witness :
  let r := Shared.predictCycle utc_zone (new_Date 100) four_regular_starts
                               sample_profile 90 in
  source r = historical
  /\ confidence r = 0.95%float
  /\ next_period_start r
     = anchor_day (new_Date 100) four_regular_starts 90 + 28.
Proof.
  assert (E : samples_of four_regular_starts 90 = [28; 28; 28])
    by (vm_compute; reflexivity).
  destruct (predictCycle_regular_history
              utc_zone (new_Date 100) four_regular_starts sample_profile 90 28)
    as (Hsource & Hconf & _ & Hstart); try rewrite E.
  - cbn [length]. lia.
  - repeat constructor.
  - lia.
  - cbn [length]. lia.
  - cbv zeta. split; [exact Hsource|]. split; [exact Hconf|].
    exact (Hstart utc_zone_fixed).
Defined.

(** ** The confidence as a percentage *)

(** X26. Away from the degenerate case (with fewer than three cycle lengths,
    or when the ratio [stdDev / mean] is a number) the confidence is a whole
    number of hundredths: it is [k / 100] for an integer [k] between 50 and
    95. *)
Theorem predictCycle_confidence_percent (tz : TimeZone)
        (now : Date) (cycleEntries : list CycleEntry)
        (profile : UserProfile) (maxEntriesToAnalyze : Z) :
  let samples := samples_of cycleEntries maxEntriesToAnalyze in
  let r := Shared.predictCycle tz now cycleEntries profile maxEntriesToAnalyze in
  (length samples < 3)%nat \/ fnn (deviation_ratio samples) ->
  exists k, 50 <= k <= 95 /\ confidence r = percent k.
Proof.
  cbv zeta. intros Hcase.
  destruct (Nat.lt_ge_cases
              (length (samples_of cycleEntries maxEntriesToAnalyze)) 3)
    as [Hfew|Hmany].
  - clear Hcase. rewrite predictCycle_confidence_cases.
    destruct (length (samples_of cycleEntries maxEntriesToAnalyze))
      as [|[|[|n]]]; [exists 50 | exists 70 | exists 80 | lia];
      (split; [lia | vm_compute; reflexivity]).
  - destruct Hcase as [Hfew|Hnum]; [lia|].
    rewrite predictCycle_historical_confidence by exact Hmany.
    destruct (confidence_of_ratio_fv _ Hnum) as [_ Hc].
    pose proof (confidence_of_ratio_range _ Hnum) as Hr.
    destruct (round2_percent _ Hc Hr) as [Hk E].
    eexists. split; [exact Hk | exact E].
Qed.

Lemma predictCycle_confidence_percent_witness :
  exists k,
    50 <= k <= 95
    /\ confidence (Shared.predictCycle utc_zone (new_Date 100) four_irregular_starts
                                       sample_profile 90)
       = percent k.
Proof.
  apply predictCycle_confidence_percent.
  right. unfold fnn, not_nan. vm_compute. discriminate.
Defined.

(** ** From a stored prediction to the reminders *)

Module StoredPredictionProperties.
Import Reminders.

Lemma toISODate_shift (t : Date) (k : Z) :
  toISODate (t - k * MS_PER_DAY) = toISODate t - k.
Proof.
  replace (t - k * MS_PER_DAY) with (t + (- k) * MS_PER_DAY) by ring.
  rewrite toISODate_add_days. ring.
Qed.

(** X27. The row that [predict-cycle] stores (in the edge runtime, in UTC)
    always lets the cycle-based reminders fire.  Against that row, an
    enabled [fertile_window] reminder is due exactly [days_before || 3] days
    before the predicted fertility window starts, and an enabled
    [period_end] reminder is due exactly [period_length_days - 1] days after
    a [period_start] reminder with the same schedule. *)
Theorem stored_prediction_reminders
        (now t : Date) (cycleEntries : list CycleEntry) (profile : UserProfile)
        (ident user : string) (config : ScheduleConfig) :
  let prediction := Edge.predictCycle utc_zone now cycleEntries profile 90 in
  let row := Some (stored_row prediction) in
  let reminder ty := mkReminder ident user ty config true in
  shouldSendReminder t (reminder "fertile_window"%string) row
  = (fertility_window_start prediction - number_or (days_before config) 3
     =? toISODate t)
  /\ shouldSendReminder t (reminder "period_end"%string) row
     = shouldSendReminder
         (t - (period_length_days profile - 1) * MS_PER_DAY)
         (reminder "period_start"%string) row.
Proof.
  cbv zeta. split.
  - unfold shouldSendReminder, stored_row.
    cbn [enabled reminder_type schedule_config negb String.eqb Ascii.eqb
         Bool.eqb andb orb prediction_metadata meta_fertility_window_start].
    now rewrite RemindersFacts.reminder_day_spec.
  - unfold shouldSendReminder, stored_row.
    cbn [enabled reminder_type schedule_config negb String.eqb Ascii.eqb
         Bool.eqb andb orb cycle_start_date cycle_end_date].
    rewrite !RemindersFacts.reminder_day_spec, toISODate_shift.
    unfold Edge.predictCycle.
    set (starts := Edge.identifyCycleStarts _).
    destruct (if (2 <=? length starts)%nat then _ else _) as [[[len c] s] m].
    cbn [next_period_end next_period_start].
    rewrite !(addDays_fixed_offset utc_zone _ _ utc_zone_fixed).
    destruct (Z.eqb_spec
                (toISODate (last starts now)
                 + (len + period_length_days profile - 1)
                 - number_or (days_before config) 3) (toISODate t));
      destruct (Z.eqb_spec
                  (toISODate (last starts now) + len
                   - number_or (days_before config) 3)
                  (toISODate t - (period_length_days profile - 1)));
      reflexivity || lia.
Qed.

End StoredPredictionProperties.
